(** * Bulk dual-subtitle orchestration: a shallow embedding of the client code

    The development follows the TypeScript sources of the front end:
    - [api.getSubtitleAnalysis], [api.processBulkDualSubtitles],
      [api.formatTimeRemaining], [api.episodeHasDualSubtitle] and
      [api.getLanguageName] from the API client (the [apiClient] object);
    - the [stats] computation of the [EpisodePreviewStep] component;
    - [extractLanguageFromFilename] from [utils/languageDetection.ts];
    - the language choice of the [LanguageDiscoveryStep] component, the
      step transitions of the [BulkDualSubtitleWizard] component, and the
      upload form of the [EpisodeDetail] page with the language table of
      [data/languages.ts];
    - [fixPlexImageUrl] and [isValidImageUrl].

    JavaScript strings are modelled by [string], arrays by [list], a [Map] by
    [gmap string], a [Set] of strings by [gset string], integral numbers by
    [Z] and the other numbers by the rationals [Qc] that the doubles are.
    Optional fields ([field?: T]) are [option]s. Only the fields that the
    modelled code reads are kept in the records.

    A plain object that is read with a computed key, [obj[key]], also
    answers for the names it inherits from its prototype. Both such objects
    of the code are modelled with that: the table of [getLanguageName]
    ([api.readTable]) and the object [language_availability] that
    [getSubtitleAnalysis] fills from its map ([api.readProperty],
    [api.ownProperties]).

    The durations, which are differences of [Date.now()] readings, and their
    sums are integers; the mean and the estimate are rounded to double
    precision as JavaScript does ([round64]). The conversion to upper case
    is computed for texts of ASCII characters.
    The requests to the server, the clock, the progress callback and the
    wording of the engine's [TypeError] are the collaborators of a run; they
    are gathered in the record [api.World].
    [Array.prototype.sort] is modelled by its specified result, the stable
    ordering by the comparison function; [encodeURIComponent] works on the
    bytes of the UTF-8 form of a text, which is how a [string] holds it. *)

From stdpp Require Import base numbers strings list gmap fin_maps fin_sets pretty sorting.
From Stdlib Require Import Ascii QArith Qcanon Qround.

Set Warnings "-clear-no-such-hyp".

Local Open Scope Z_scope.

(** ** API response types ([types/index.ts]) *)

Record ExternalSubtitle := {
  file_path : string;
  file_name : string;
  language_code : option string;
  is_dual_subtitle : option bool;
  dual_languages : option (list string)
}.

Record EmbeddedSubtitle := {
  languageCode : option string;
  stream_index : Z;
  display_name : string
}.

Record EpisodeSubtitles := {
  embedded_subtitles : option (list EmbeddedSubtitle);
  external_subtitles : option (list ExternalSubtitle)
}.

Record Episode := {
  id : string;
  ep_season_episode : string;
  ep_title : string
}.

(** ** Bulk types ([types/bulk.ts]) *)

Record EmbeddedStream := {
  es_stream_index : Z;
  es_language_code : string;
  es_display_name : string
}.

Record EpisodeSubtitleInfo := {
  episode_id : string;
  season_episode : string;
  title : string;
  has_external : bool;
  has_embedded : bool;
  existing_dual_subtitles : list ExternalSubtitle;
  embedded_streams : list EmbeddedStream
}.

(** The value of the field [name], a string by its declared type. It is the
    result of [getLanguageName], which can also hand back a value found on
    [Object.prototype] (see [api.getLanguageName]); and for a code with a
    character outside ASCII the upper-case form is left unevaluated. *)
Inductive Name :=
| text (s : string)
| upperCased (code : string)
| inherited (key : string).

Coercion text : string >-> Name.

#[global] Instance Name_eq_dec : EqDecision Name.
Proof. solve_decision. Defined.

Record LanguageAvailability := {
  name : Name;
  episodes_available : Z;
  episodes_with_external : Z;
  episodes_with_embedded : Z;
  episode_details : list EpisodeSubtitleInfo
}.

(** [language_availability] holds the record of every language code, as the
    map does from which the object of that name is filled; how the object is
    read is the matter of [api.readProperty]. *)
Record SubtitleAnalysis := {
  total_episodes : Z;
  language_availability : gmap string LanguageAvailability
}.

(** ** JavaScript helpers *)

(** [s || d] on an optional string: [undefined] and the empty string are
    falsy. *)
Definition or_default (s : option string) (d : string) : string :=
  match s with
  | Some x => if decide (x = "") then d else x
  | None => d
  end.

(** Truthiness of an optional boolean flag. *)
Definition truthy (b : option bool) : bool :=
  match b with Some true => true | _ => false end.

(** [arr?.find(p)], [arr?.filter(p) || []] and [arr.length > 0] on an
    optional array. *)
Definition opt_list {A} (l : option (list A)) : list A := default [] l.

Definition find_opt {A} (p : A → bool) (l : option (list A)) : option A :=
  l ≫= List.find p.

(** The case of the ASCII letters. *)
Definition is_lower (c : ascii) : bool :=
  let n := nat_of_ascii c in (97 <=? n)%nat && (n <=? 122)%nat.
Definition is_upper (c : ascii) : bool :=
  let n := nat_of_ascii c in (65 <=? n)%nat && (n <=? 90)%nat.
Definition is_letter (c : ascii) : bool := is_lower c || is_upper c.

Definition upper_char (c : ascii) : ascii :=
  if is_lower c then ascii_of_nat (nat_of_ascii c - 32) else c.
Definition lower_char (c : ascii) : ascii :=
  if is_upper c then ascii_of_nat (nat_of_ascii c + 32) else c.

Fixpoint map_string (f : ascii → ascii) (s : string) : string :=
  match s with
  | EmptyString => EmptyString
  | String c s' => String (f c) (map_string f s')
  end.

(** A text is held as the bytes of its UTF-8 form: the ASCII characters are
    the bytes below 128. *)
Definition is_ascii (c : ascii) : bool := (nat_of_ascii c <? 128)%nat.

Fixpoint all_ascii (s : string) : bool :=
  match s with
  | EmptyString => true
  | String c s' => is_ascii c && all_ascii s'
  end.

(** [String.prototype.toUpperCase]. In a text of ASCII characters the
    letters a to z are replaced by A to Z and nothing else changes. The
    conversion of the other characters follows the Unicode tables (one
    character can become two); it is not computed here, the result is kept
    as [upperCased s]. *)
Definition toUpperCase (s : string) : Name :=
  if all_ascii s then text (map_string upper_char s) else upperCased s.

(** [String.prototype.toLowerCase], for the ASCII letters; it is applied to
    what the patterns of the language detection capture, which are ASCII
    letters and hyphens. *)
Definition toLowerCase : string → string := map_string lower_char.

(** The names of the properties that every object inherits from
    [Object.prototype]. Under each of them [obj[key]] finds a function, and
    under "__proto__" the prototype itself, unless the object has a property
    of its own with that name. *)
Definition Object_prototype_names : list string :=
  [ "constructor"; "__defineGetter__"; "__defineSetter__"; "hasOwnProperty";
    "__lookupGetter__"; "__lookupSetter__"; "isPrototypeOf";
    "propertyIsEnumerable"; "toString"; "valueOf"; "__proto__";
    "toLocaleString" ].

(** Truthiness of the value of a [name] field: a string is truthy unless
    empty, a function or an object always. *)
Definition truthyName (v : Name) : bool :=
  match v with
  | text s => negb (bool_decide (s = ""))
  | upperCased _ => true
  | inherited _ => true
  end.

(** *** Numbers

    A JavaScript number is an IEEE 754 double. The counts and the clock
    readings are integers below 2^53 and so are the differences of two
    clock readings, which are computed exactly. A sum, a quotient or a
    product of doubles is the double nearest to the exact result, the one
    with the even significand when two are equally near. [round64] is that
    rounding, with the gradual underflow of the format; the overflow to
    [Infinity], beyond 2^1024, is out of reach of these computations and
    not modelled. *)
Definition Qpow2 (e : Z) : Q :=
  if bool_decide (0 ≤ e) then inject_Z (2 ^ e) else 1 # Z.to_pos (2 ^ (- e)).

(** The [e] with [2^e ≤ x < 2^(e+1)], for a positive [x]. *)
Definition Qlog2 (x : Q) : Z :=
  let k := Z.log2 (Qnum x) - Z.log2 (Zpos (Qden x)) in
  if Qle_bool (Qpow2 k) x then k else k - 1.

(** The integer nearest to [x], the even one of the two when [x] lies half
    way between them. *)
Definition nearest_even (x : Q) : Z :=
  let f := Qfloor x in
  match (x - inject_Z f ?= 1 # 2)%Q with
  | Lt => f
  | Gt => f + 1
  | Eq => if Z.even f then f else f + 1
  end.

(** A positive [x] is rounded to a multiple of [2^e], where [e] leaves 53
    binary digits to the significand and is at least -1074. *)
Definition round64_pos (x : Q) : Q :=
  let e := Z.max (Qlog2 x - 52) (-1074) in
  (inject_Z (nearest_even (x / Qpow2 e)) * Qpow2 e)%Q.

Definition round64 (x : Qc) : Qc :=
  match (Qnum x ?= 0)%Z with
  | Eq => x
  | Gt => Q2Qc (round64_pos x)
  | Lt => (- Q2Qc (round64_pos (- x)))%Qc
  end.

(** ** The API client *)

Module api.

(** The [languages] table of [getLanguageName], an object literal. *)
Definition languages : list (string * string) :=
  [ ("en", "English"); ("ja", "Japanese"); ("es", "Spanish");
    ("fr", "French"); ("de", "German"); ("it", "Italian");
    ("pt", "Portuguese"); ("ru", "Russian"); ("ko", "Korean");
    ("zh", "Chinese"); ("zho", "Chinese"); ("spa", "Spanish");
    ("ar", "Arabic"); ("unknown", "Unknown");
    ("zh-TW", "Chinese (Traditional)"); ("zh-HK", "Chinese (Hong Kong)");
    ("zh-CN", "Chinese (Simplified)"); ("zh-SG", "Chinese (Singapore)") ].

Fixpoint lookup_table (code : string) (t : list (string * string)) : option string :=
  match t with
  | [] => None
  | (k, v) :: t' => if decide (k = code) then Some v else lookup_table code t'
  end.

(** [languages[code]]: the entry of the table, or else what the object
    literal inherits under that name; [None] is [undefined]. *)
Definition readTable (code : string) : option Name :=
  match lookup_table code languages with
  | Some v => Some (text v)
  | None =>
      if bool_decide (code ∈ Object_prototype_names) then Some (inherited code)
      else None
  end.

(** [if (code === 'hi') return 'Hearing Impaired';
     return languages[code] || code.toUpperCase();] *)
Definition getLanguageName (code : string) : Name :=
  if decide (code = "hi") then text "Hearing Impaired"
  else match readTable code with
       | Some v => if truthyName v then v else toUpperCase code
       | None => toUpperCase code
       end.

(** *** getSubtitleAnalysis *)

(** The per-language accumulator kept in [languageMap] while the episodes are
    scanned; the three sets are the temporary [_episode_ids],
    [_external_episode_ids] and [_embedded_episode_ids]. *)
Record LangData := {
  ld_name : Name;
  ld_episode_details : list EpisodeSubtitleInfo;
  _episode_ids : gset string;
  _external_episode_ids : gset string;
  _embedded_episode_ids : gset string
}.

Definition newLangData (langCode : string) : LangData :=
  {| ld_name := getLanguageName langCode;
     ld_episode_details := [];
     _episode_ids := ∅;
     _external_episode_ids := ∅;
     _embedded_episode_ids := ∅ |}.

(** [if (!languageMap.has(langCode)) languageMap.set(langCode, {...})] *)
Definition ensureLang (langCode : string) (languageMap : gmap string LangData)
  : gmap string LangData :=
  match languageMap !! langCode with
  | Some _ => languageMap
  | None => <[langCode := newLangData langCode]> languageMap
  end.

(** The [episodeInfo] object is shared by every [episode_details] array it is
    pushed to, and it is mutated ([has_embedded], [embedded_streams]) after
    the first pushes. Nothing reads it before the scan of the episode is
    over, so the model pushes the object in its final state. *)
Definition embeddedStream (sub : EmbeddedSubtitle) : EmbeddedStream :=
  {| es_stream_index := stream_index sub;
     es_language_code := or_default (languageCode sub) "unknown";
     es_display_name := display_name sub |}.

Definition episodeInfo (episode : Episode) (subtitles : EpisodeSubtitles)
  : EpisodeSubtitleInfo :=
  {| episode_id := id episode;
     season_episode := ep_season_episode episode;
     title := ep_title episode;
     has_external :=
       match external_subtitles subtitles with
       | Some l => bool_decide (0 < length l)%nat
       | None => false
       end;
     has_embedded :=
       match embedded_subtitles subtitles with
       | Some l => bool_decide (0 < length l)%nat
       | None => false
       end;
     existing_dual_subtitles :=
       List.filter (λ sub, truthy (is_dual_subtitle sub))
                   (opt_list (external_subtitles subtitles));
     embedded_streams := embeddedStream <$> opt_list (embedded_subtitles subtitles) |}.

(** The state of the scan of one episode: the language map and the local
    [episodeLangSet]. *)
Definition ScanState : Type := gmap string LangData * gset string.

Definition addEpisode (external : bool) (eid : string) (info : EpisodeSubtitleInfo)
    (d : LangData) : LangData :=
  {| ld_name := ld_name d;
     ld_episode_details := ld_episode_details d ++ [info];
     _episode_ids := {[eid]} ∪ _episode_ids d;
     _external_episode_ids :=
       if external then {[eid]} ∪ _external_episode_ids d else _external_episode_ids d;
     _embedded_episode_ids :=
       if external then _embedded_episode_ids d else {[eid]} ∪ _embedded_episode_ids d |}.

Definition addEmbeddedId (eid : string) (d : LangData) : LangData :=
  {| ld_name := ld_name d;
     ld_episode_details := ld_episode_details d;
     _episode_ids := _episode_ids d;
     _external_episode_ids := _external_episode_ids d;
     _embedded_episode_ids := {[eid]} ∪ _embedded_episode_ids d |}.

(** Body of [subtitles.external_subtitles.forEach]. *)
Definition scanExternal (eid : string) (info : EpisodeSubtitleInfo)
    (st : ScanState) (sub : ExternalSubtitle) : ScanState :=
  if truthy (is_dual_subtitle sub) then st
  else
    let langCode := or_default (language_code sub) "unknown" in
    let languageMap := ensureLang langCode st.1 in
    if decide (langCode ∈ st.2) then (languageMap, st.2)
    else (alter (addEpisode true eid info) langCode languageMap, {[langCode]} ∪ st.2).

(** Body of [subtitles.embedded_subtitles.forEach]. *)
Definition scanEmbedded (eid : string) (info : EpisodeSubtitleInfo)
    (st : ScanState) (sub : EmbeddedSubtitle) : ScanState :=
  let langCode := or_default (languageCode sub) "unknown" in
  let languageMap := ensureLang langCode st.1 in
  if decide (langCode ∈ st.2)
  then (alter (addEmbeddedId eid) langCode languageMap, st.2)
  else (alter (addEpisode false eid info) langCode languageMap, {[langCode]} ∪ st.2).

(** Body of [episodes.forEach]: an episode whose listing could not be fetched
    ([null]) is passed over. *)
Definition scanEpisode (languageMap : gmap string LangData)
    (entry : Episode * option EpisodeSubtitles) : gmap string LangData :=
  match entry.2 with
  | None => languageMap
  | Some subtitles =>
      let info := episodeInfo entry.1 subtitles in
      let st1 := foldl (scanExternal (id entry.1) info) (languageMap, ∅)
                       (opt_list (external_subtitles subtitles)) in
      let st2 := foldl (scanEmbedded (id entry.1) info) st1
                       (opt_list (embedded_subtitles subtitles)) in
      st2.1
  end.

(** "Convert Sets to counts". *)
Definition finishLang (d : LangData) : LanguageAvailability :=
  {| name := ld_name d;
     episodes_available := Z.of_nat (size (_episode_ids d));
     episodes_with_external := Z.of_nat (size (_external_episode_ids d));
     episodes_with_embedded := Z.of_nat (size (_embedded_episode_ids d));
     episode_details := ld_episode_details d |}.

(** The argument pairs every episode of the show with the listing fetched for
    it, [None] when the fetch failed ([.catch(() => null)]). *)
Definition getSubtitleAnalysis (listings : list (Episode * option EpisodeSubtitles))
  : SubtitleAnalysis :=
  {| total_episodes := Z.of_nat (length listings);
     language_availability := finishLang <$> foldl scanEpisode ∅ listings |}.

(** *** The object [language_availability]

    [getSubtitleAnalysis] ends by copying its map into a plain object, with
    [language_availability[key] = value] for every entry, and the callers
    read that object with [language_availability[code]]. The field
    [language_availability] of [SubtitleAnalysis] holds the entries of the
    map, the record of every language code. The object has them as its own
    properties, with one exception: the assignment to the key "__proto__"
    makes its record the prototype of the object. Reading "__proto__" yields
    that record all the same, but it is not listed by [Object.entries], and
    its fields become properties that the object inherits.

    A read with a key that has no record finds what the object inherits:
    a field of the prototype record, if there is one, or a function of
    [Object.prototype]. Such a value is not an availability record: its
    [episode_details] is [undefined]. Only its truthiness is kept. *)
Inductive Property :=
| undefined
| language (la : LanguageAvailability)
| inheritedValue (truthy : bool).

Definition truthyProperty (v : Property) : bool :=
  match v with
  | undefined => false
  | language _ => true
  | inheritedValue truthy => truthy
  end.

(** The truthiness of the field [key] of the record installed as prototype:
    a number is truthy unless it is 0, an array always. *)
Definition inheritedField (proto : LanguageAvailability) (key : string) : option bool :=
  if decide (key = "name") then Some (truthyName (name proto))
  else if decide (key = "episodes_available")
  then Some (negb (bool_decide (episodes_available proto = 0)))
  else if decide (key = "episodes_with_external")
  then Some (negb (bool_decide (episodes_with_external proto = 0)))
  else if decide (key = "episodes_with_embedded")
  then Some (negb (bool_decide (episodes_with_embedded proto = 0)))
  else if decide (key = "episode_details") then Some true
  else None.

(** [analysis.language_availability[key]] *)
Definition readProperty (analysis : SubtitleAnalysis) (key : string) : Property :=
  match language_availability analysis !! key with
  | Some la => language la
  | None =>
      match language_availability analysis !! "__proto__"
            ≫= (λ proto, inheritedField proto key) with
      | Some truthy => inheritedValue truthy
      | None =>
          if bool_decide (key ∈ Object_prototype_names) then inheritedValue true
          else undefined
      end
  end.

(** The own properties of the object; [Object.entries] lists them. *)
Definition ownProperties (analysis : SubtitleAnalysis)
  : gmap string LanguageAvailability :=
  delete "__proto__" (language_availability analysis).

(** *** episodeHasDualSubtitle

    The test is written three times in the sources, in this helper and inline
    in [processBulkDualSubtitles] and in the [stats] of the preview step: a
    dual file covers the pair when its first two [dual_languages] are the two
    requested languages in either order. *)
Definition coversPair (primaryLang secondaryLang : string) (dualSub : ExternalSubtitle) : bool :=
  match dual_languages dualSub with
  | Some (lang1 :: lang2 :: _) =>
      (bool_decide (lang1 = primaryLang) && bool_decide (lang2 = secondaryLang))
      || (bool_decide (lang1 = secondaryLang) && bool_decide (lang2 = primaryLang))
  | _ => false
  end.

Definition episodeHasDualSubtitle (episode : EpisodeSubtitleInfo)
    (primaryLang secondaryLang : string) : bool :=
  existsb (coversPair primaryLang secondaryLang) (existing_dual_subtitles episode).

(** "Find episodes that have both languages available". *)
Definition episodesWithBoth (primaryAvail secondaryAvail : LanguageAvailability)
  : list EpisodeSubtitleInfo :=
  List.filter
    (λ ep, existsb (λ secEp, bool_decide (episode_id secEp = episode_id ep))
                   (episode_details secondaryAvail))
    (episode_details primaryAvail).

(** *** formatTimeRemaining

    [Math.round] rounds to the nearest integer, a half upwards; [%] is the
    remainder that takes the sign of the dividend. The quotient by 1000 is
    taken exactly. *)
Definition Math_round (x : Qc) : Z := Qfloor (x + Q2Qc (1 # 2))%Qc.

Definition formatTimeRemaining (ms : Qc) : string :=
  let seconds := Math_round (ms / Qc_of_Z 1000)%Qc in
  let minutes := seconds `div` 60 in
  let remainingSeconds := seconds `rem` 60 in
  if bool_decide (0 < minutes)
  then pretty minutes +:+ "m " +:+ pretty remainingSeconds +:+ "s"
  else pretty seconds +:+ "s".

(** *** processBulkDualSubtitles *)

(** What the [catch] clause reads of a thrown error: [message], [code],
    [response?.status] and [response?.data?.detail]. *)
Record Exn := {
  message : option string;
  code : option string;
  response_status : option Z;
  response_detail : option string
}.

Inductive outcome (A : Type) : Type :=
| Returns (a : A)
| Throws (error : Exn).
Arguments Returns {A} a.
Arguments Throws {A} error.

Record DualSubtitleConfig := {
  primary_position : string;
  secondary_position : string;
  primary_color : string;
  secondary_color : string;
  primary_font_size : Z;
  secondary_font_size : Z;
  primary_language : string;
  secondary_language : string;
  output_format : string
}.

Record DualSubtitleResult := {
  success : bool;
  output_file : string
}.

(** The [config] object posted for one episode. *)
Record BulkConfig := {
  styling : DualSubtitleConfig;
  primary_subtitle : string;
  secondary_subtitle : string;
  enable_sync : bool;
  sync_method : string;
  bulk_mode : bool
}.

Record SuccessfulEntry := {
  s_episode_id : string;
  s_output_file : string;
  s_episode_title : string
}.

Record FailedEntry := {
  f_episode_id : string;
  f_error : string;
  f_episode_title : string
}.

Record SkippedEntry := {
  k_episode_id : string;
  k_reason : string
}.

Record Results := {
  successful : list SuccessfulEntry;
  failed : list FailedEntry;
  skipped : list SkippedEntry
}.

(** The argument of the [onProgress] callback. *)
Record Progress := {
  processed : Z;
  total : Z;
  currentEpisode : option string;
  estimatedTimeRemaining : option string;
  averageTimePerEpisode : option Z
}.

(** The collaborators of one run. The function awaits its requests one after
    the other, so a run is determined by what each request answers; the
    requests of the loop are indexed by the loop counter [i], which lets the
    catalog change between the analysis and a task and between two tasks.
    - [fetchListings]: [getShowDetail] followed by the per-episode
      [getEpisodeSubtitles(...).catch(() => null)] of the analysis;
    - [getEpisodeSubtitles i id]: the listing fetched inside task [i];
    - [createDualSubtitleWithTimeout i id config timeout]: the creation
      request of task [i];
    - [episodeStartTime i], [episodeEndTime i]: the two [Date.now()] readings
      of task [i], in milliseconds since 1970;
    - [typeErrorMessage method]: the message that the engine gives to the
      [TypeError] of a call [x.method(...)] whose [x] is [undefined]. *)
Record World := {
  fetchListings : outcome (list (Episode * option EpisodeSubtitles));
  getEpisodeSubtitles : nat → string → outcome EpisodeSubtitles;
  createDualSubtitleWithTimeout : nat → string → BulkConfig → Z → outcome DualSubtitleResult;
  episodeStartTime : nat → Z;
  episodeEndTime : nat → Z;
  typeErrorMessage : string → string
}.

(** [haystack.includes(needle)] *)
Fixpoint includes (needle haystack : string) : bool :=
  String.prefix needle haystack
  || match haystack with
     | EmptyString => false
     | String _ rest => includes needle rest
     end.

(** The message computed by the [catch] clause. *)
Definition errorMessageOf (error : Exn) : string :=
  let errorMessage := or_default (message error) "Unknown error" in
  if bool_decide (code error = Some "ECONNABORTED") || includes "timeout" errorMessage
  then "Processing timeout (subtitle creation takes longer than expected)"
  else if bool_decide (response_status error = Some 500)
  then or_default (response_detail error) "Server error during subtitle creation"
  else if bool_decide (response_status error = Some 404)
  then "Episode or subtitle files not found"
  else errorMessage.

(** The loop variables: [results], [episodeTimes] and the calls received by
    [onProgress] so far. *)
Record LoopState := {
  results : Results;
  episodeTimes : list Z;
  reported : list Progress
}.

Definition pushSuccessful (e : SuccessfulEntry) (duration : Z) (st : LoopState) : LoopState :=
  {| results := {| successful := successful (results st) ++ [e];
                   failed := failed (results st);
                   skipped := skipped (results st) |};
     episodeTimes := episodeTimes st ++ [duration];
     reported := reported st |}.

Definition pushFailed (e : FailedEntry) (st : LoopState) : LoopState :=
  {| results := {| successful := successful (results st);
                   failed := failed (results st) ++ [e];
                   skipped := skipped (results st) |};
     episodeTimes := episodeTimes st;
     reported := reported st |}.

Definition pushSkipped (e : SkippedEntry) (st : LoopState) : LoopState :=
  {| results := {| successful := successful (results st);
                   failed := failed (results st);
                   skipped := skipped (results st) ++ [e] |};
     episodeTimes := episodeTimes st;
     reported := reported st |}.

Definition onProgress (p : Progress) (st : LoopState) : LoopState :=
  {| results := results st;
     episodeTimes := episodeTimes st;
     reported := reported st ++ [p] |}.

(** "Calculate time estimates": the mean of [episodeTimes], 45 seconds while
    it is empty, times the number of episodes from the current one on. The
    durations are integers; [sumTimes] is
    [episodeTimes.reduce((a, b) => a + b, 0)], and every addition, the
    quotient and the product are those of doubles. *)
Definition sumTimes (episodeTimes : list Z) : Qc :=
  foldl (λ a b, round64 (a + Qc_of_Z b)%Qc) (Qc_of_Z 0) episodeTimes.

Definition averageTimePerEpisodeOf (episodeTimes : list Z) : Qc :=
  if bool_decide (0 < length episodeTimes)%nat
  then round64 (sumTimes episodeTimes / Qc_of_Z (Z.of_nat (length episodeTimes)))%Qc
  else Qc_of_Z 45000.

Definition estimatedRemainingMs (episodeTimes : list Z) (total : Z) (i : nat) : Qc :=
  let remainingEpisodes := total - Z.of_nat i in
  round64 (Qc_of_Z remainingEpisodes * averageTimePerEpisodeOf episodeTimes)%Qc.

Definition progressAt (episodeTimes : list Z) (total : Z) (i : nat)
    (episode : EpisodeSubtitleInfo) : Progress :=
  {| processed := Z.of_nat i;
     total := total;
     currentEpisode := Some (season_episode episode +:+ ": " +:+ title episode);
     estimatedTimeRemaining :=
       Some (formatTimeRemaining (estimatedRemainingMs episodeTimes total i));
     averageTimePerEpisode :=
       Some (Math_round
               (round64 (averageTimePerEpisodeOf episodeTimes / Qc_of_Z 1000)%Qc)) |}.

(** [primarySub?.file_path || `embedded:${...find(...)?.stream_index}`] *)
Definition subtitleSource (sub : option ExternalSubtitle) (embedded : option EmbeddedSubtitle)
  : string :=
  or_default (file_path <$> sub)
    ("embedded:" +:+ match embedded with
                     | Some s => pretty (stream_index s)
                     | None => "undefined"
                     end).

Section run.
Context (w : World) (primaryLanguage secondaryLanguage : string)
        (stylingConfig : DualSubtitleConfig).

Definition findExternal (lang : string) (subs : EpisodeSubtitles) : option ExternalSubtitle :=
  find_opt (λ sub, bool_decide (language_code sub = Some lang)) (external_subtitles subs).

Definition findEmbedded (lang : string) (subs : EpisodeSubtitles) : option EmbeddedSubtitle :=
  find_opt (λ sub, bool_decide (languageCode sub = Some lang)) (embedded_subtitles subs).

(** The language reported missing by the block guarded by
    [if (!primarySub || !secondarySub)], if any. *)
Definition missingLanguage (episodeSubtitles : EpisodeSubtitles) : option string :=
  let primarySub := findExternal primaryLanguage episodeSubtitles in
  let secondarySub := findExternal secondaryLanguage episodeSubtitles in
  if bool_decide (primarySub = None) || bool_decide (secondarySub = None) then
    let primaryEmbedded := findEmbedded primaryLanguage episodeSubtitles in
    let secondaryEmbedded := findEmbedded secondaryLanguage episodeSubtitles in
    if bool_decide (primarySub = None) && bool_decide (primaryEmbedded = None)
    then Some primaryLanguage
    else if bool_decide (secondarySub = None) && bool_decide (secondaryEmbedded = None)
    then Some secondaryLanguage
    else None
  else None.

Definition configFor (episodeSubtitles : EpisodeSubtitles) : BulkConfig :=
  {| styling := stylingConfig;
     primary_subtitle :=
       subtitleSource (findExternal primaryLanguage episodeSubtitles)
                      (findEmbedded primaryLanguage episodeSubtitles);
     secondary_subtitle :=
       subtitleSource (findExternal secondaryLanguage episodeSubtitles)
                      (findEmbedded secondaryLanguage episodeSubtitles);
     enable_sync := true;
     sync_method := "auto";
     bulk_mode := true |}.

Definition failedEntry (episode : EpisodeSubtitleInfo) (error : Exn) : FailedEntry :=
  {| f_episode_id := episode_id episode;
     f_error := errorMessageOf error;
     f_episode_title := title episode |}.

(** The [try] block of iteration [i] with its [catch] clause. *)
Definition tryEpisode (i : nat) (episode : EpisodeSubtitleInfo) (st : LoopState) : LoopState :=
  match getEpisodeSubtitles w i (episode_id episode) with
  | Throws error => pushFailed (failedEntry episode error) st
  | Returns episodeSubtitles =>
      match missingLanguage episodeSubtitles with
      | Some lang =>
          pushSkipped {| k_episode_id := episode_id episode;
                         k_reason := "Missing " +:+ lang +:+ " subtitle" |} st
      | None =>
          match createDualSubtitleWithTimeout w i (episode_id episode)
                  (configFor episodeSubtitles) 240000 with
          | Throws error => pushFailed (failedEntry episode error) st
          | Returns result =>
              let episodeDuration := episodeEndTime w i - episodeStartTime w i in
              pushSuccessful {| s_episode_id := episode_id episode;
                                s_output_file := output_file result;
                                s_episode_title := title episode |}
                             episodeDuration st
          end
      end
  end.

(** One iteration of the [for] loop. *)
Definition iteration (total : Z) (i : nat) (episode : EpisodeSubtitleInfo)
    (st : LoopState) : LoopState :=
  tryEpisode i episode (onProgress (progressAt (episodeTimes st) total i episode) st).

(** The [for] loop from counter [i] on, over the episodes left. *)
Fixpoint loop (total : Z) (i : nat) (episodes : list EpisodeSubtitleInfo)
    (st : LoopState) : LoopState :=
  match episodes with
  | [] => st
  | episode :: rest => loop total (S i) rest (iteration total i episode st)
  end.

(** "Filter out episodes that already have the requested dual subtitle
    combination". *)
Definition episodesToProcess (primaryAvail secondaryAvail : LanguageAvailability)
  : list EpisodeSubtitleInfo :=
  List.filter
    (λ ep, negb (episodeHasDualSubtitle ep primaryLanguage secondaryLanguage))
    (episodesWithBoth primaryAvail secondaryAvail).

Definition initialState : LoopState :=
  {| results := {| successful := []; failed := []; skipped := [] |};
     episodeTimes := [];
     reported := [] |}.

Definition finalProgress (total : Z) : Progress :=
  {| processed := total; total := total; currentEpisode := None;
     estimatedTimeRemaining := None; averageTimePerEpisode := None |}.

(** The loop and the last [onProgress] call, on the task list. *)
Definition runTasks (tasks : list EpisodeSubtitleInfo) : LoopState :=
  let total := Z.of_nat (length tasks) in
  onProgress (finalProgress total) (loop total 0 tasks initialState).

(** [new Error('Selected languages not available in this show')] *)
Definition notAvailable : Exn :=
  {| message := Some "Selected languages not available in this show";
     code := None; response_status := None; response_detail := None |}.

(** The [TypeError] of a call [x.episode_details.method(...)] where
    [x.episode_details] is [undefined]. *)
Definition TypeError_reading (method : string) : Exn :=
  {| message := Some (typeErrorMessage w method);
     code := None; response_status := None; response_detail := None |}.

(** The whole function: the returned [results] together with the calls
    made to [onProgress]. The guard tests the truthiness of the two values
    read from the object. Past it, [primaryAvail.episode_details.filter]
    throws when [primaryAvail] is no record, and the callback of that
    [filter], which is called for the first episode of the primary language
    if there is one, throws on [secondaryAvail.episode_details.some] when
    [secondaryAvail] is no record. *)
Definition processBulkDualSubtitles : outcome (Results * list Progress) :=
  match fetchListings w with
  | Throws error => Throws error
  | Returns listings =>
      let analysis := getSubtitleAnalysis listings in
      let primaryAvail := readProperty analysis primaryLanguage in
      let secondaryAvail := readProperty analysis secondaryLanguage in
      if negb (truthyProperty primaryAvail) || negb (truthyProperty secondaryAvail)
      then Throws notAvailable
      else
        match primaryAvail, secondaryAvail with
        | language primaryAvail, language secondaryAvail =>
            let st := runTasks (episodesToProcess primaryAvail secondaryAvail) in
            Returns (results st, reported st)
        | language primaryAvail, _ =>
            match episode_details primaryAvail with
            | [] => let st := runTasks [] in Returns (results st, reported st)
            | _ :: _ => Throws (TypeError_reading "some")
            end
        | _, _ => Throws (TypeError_reading "filter")
        end
  end.
End run.

End api.

(** ** The preview step of the wizard ([EpisodePreviewStep]) *)

Module EpisodePreviewStep.

Record Stats := {
  ready : Z;
  needsAttention : Z;
  willSkip : Z;
  alreadyExists : Z
}.

(** The record that the [useMemo] callback returns: the one of its guard
    when a language has no record, the computed one when both have. The
    guard tests the truthiness of what is read from the object; when a code
    without a record reads as a truthy inherited value
    ([api.readProperty]), the guard does not fire and the callback throws
    instead of returning a record. *)
Definition stats (analysis : SubtitleAnalysis) (primaryLanguage secondaryLanguage : string)
  : Stats :=
  match language_availability analysis !! primaryLanguage,
        language_availability analysis !! secondaryLanguage with
  | Some primaryAvail, Some secondaryAvail =>
      let episodesWithBoth := api.episodesWithBoth primaryAvail secondaryAvail in
      let episodesWithExistingDual :=
        List.filter (λ ep, api.episodeHasDualSubtitle ep primaryLanguage secondaryLanguage)
                    episodesWithBoth in
      let alreadyExists := Z.of_nat (length episodesWithExistingDual) in
      let ready := Z.of_nat (length episodesWithBoth) - alreadyExists in
      let maxAvailable :=
        Z.max (episodes_available primaryAvail) (episodes_available secondaryAvail) in
      let needsAttention := maxAvailable - Z.of_nat (length episodesWithBoth) in
      let willSkip := total_episodes analysis - maxAvailable in
      {| ready := ready; needsAttention := needsAttention;
         willSkip := willSkip; alreadyExists := alreadyExists |}
  | _, _ =>
      {| ready := 0; needsAttention := 0;
         willSkip := total_episodes analysis; alreadyExists := 0 |}
  end.

End EpisodePreviewStep.

(** ** Language detection from file names ([utils/languageDetection.ts]) *)

Module languageDetection.

(** The fragment of regular expressions the five patterns are written in, all
    of them under the flag [i]: a literal character, a class [[lo-hi]],
    concatenation, alternation, the first capturing group, and the anchor
    [$]. [x{2}] is written out as [x x]; the group around the extension is
    never read and is left out. *)
Inductive regex :=
| Chr (c : ascii)
| Range (lo hi : ascii)
| Seq (r1 r2 : regex)
| Alt (r1 r2 : regex)
| Group1 (r : regex)
| End_.

(** Under [i] two characters match when their upper-case forms agree. *)
Definition canon_eq (c d : ascii) : bool :=
  bool_decide (upper_char c = upper_char d).

Definition in_class (lo hi c : ascii) : bool :=
  existsb (λ n, canon_eq (ascii_of_nat n) c)
          (seq (nat_of_ascii lo) (S (nat_of_ascii hi) - nat_of_ascii lo)).

(** The first [n] characters of [s]. *)
Fixpoint take_string (n : nat) (s : string) : string :=
  match n, s with
  | S n', String c s' => String c (take_string n' s')
  | _, _ => EmptyString
  end.

(** Backtracking matcher in continuation-passing style: [match_at r s cap k]
    matches [r] at the head of [s] and hands the rest of the input and the
    current capture of group 1 to [k]; alternatives are tried from the left. *)
Fixpoint match_at {R} (r : regex) (s : string) (cap : option string)
    (k : string → option string → option R) : option R :=
  match r with
  | Chr c =>
      match s with
      | String d s' => if canon_eq c d then k s' cap else None
      | EmptyString => None
      end
  | Range lo hi =>
      match s with
      | String d s' => if in_class lo hi d then k s' cap else None
      | EmptyString => None
      end
  | Seq r1 r2 => match_at r1 s cap (λ s' cap', match_at r2 s' cap' k)
  | Alt r1 r2 =>
      match match_at r1 s cap k with
      | Some x => Some x
      | None => match_at r2 s cap k
      end
  | Group1 r1 =>
      match_at r1 s cap
        (λ s' _, k s' (Some (take_string (String.length s - String.length s') s)))
  | End_ =>
      match s with
      | EmptyString => k s cap
      | String _ _ => None
      end
  end.

(** [s.match(r)] without the flag [g]: the leftmost position where [r]
    matches; the result is capture 1 of that match. *)
Fixpoint regex_match (r : regex) (s : string) : option (option string) :=
  match match_at r s None (λ _ cap, Some cap) with
  | Some cap => Some cap
  | None =>
      match s with
      | EmptyString => None
      | String _ s' => regex_match r s'
      end
  end.

(** A word written out as a concatenation of its characters. *)
Fixpoint lit (s : string) : regex :=
  match s with
  | EmptyString => End_
  | String c EmptyString => Chr c
  | String c s' => Seq (Chr c) (lit s')
  end.

Definition az : regex := Range "a" "z".

Definition subtitle_extensions : list string := ["srt"; "ass"; "vtt"; "sub"].

(** [\.(srt|ass|vtt|sub)$] *)
Definition extension : regex :=
  Seq (Chr ".") (Seq (Alt (lit "srt") (Alt (lit "ass") (Alt (lit "vtt") (lit "sub")))) End_).

Definition patterns : list regex :=
  [ Seq (Chr ".") (Seq (Group1 (Seq az az)) extension);
    Seq (Chr ".") (Seq (Group1 (Seq az (Seq az (Seq (Chr "-") (Seq az az))))) extension);
    Seq (Chr ".") (Seq (Group1 (Seq az (Seq az az))) extension);
    Seq (Chr "_") (Seq (Group1 (Seq az az)) extension);
    Seq (Chr "-") (Seq (Group1 (Seq az az)) extension) ].

(** The [for] loop over the patterns; [match[1]] is always set by a match of
    these patterns, [None] there stands for [undefined]. *)
Fixpoint firstMatch (ps : list regex) (filename : string) : option string :=
  match ps with
  | [] => None
  | pattern :: rest =>
      match regex_match pattern filename with
      | Some m => toLowerCase <$> m
      | None => firstMatch rest filename
      end
  end.

Definition extractLanguageFromFilename (filename : string) : option string :=
  firstMatch patterns filename.

End languageDetection.

(** ** The scenario of 24 episodes *)

Module Scenario.

Definition episode (n : nat) : Episode :=
  {| id := "ep" +:+ pretty n;
     ep_season_episode := "S01E" +:+ pretty n;
     ep_title := "Episode " +:+ pretty n |}.

Definition srt (n : nat) (lang : string) : ExternalSubtitle :=
  {| file_path := "/tv/show/ep" +:+ pretty n +:+ "." +:+ lang +:+ ".srt";
     file_name := "ep" +:+ pretty n +:+ "." +:+ lang +:+ ".srt";
     language_code := Some lang;
     is_dual_subtitle := None;
     dual_languages := None |}.

Definition dual (n : nat) (lang1 lang2 : string) : ExternalSubtitle :=
  {| file_path := "/tv/show/ep" +:+ pretty n +:+ ".dual." +:+ lang1 +:+ "." +:+ lang2 +:+ ".ass";
     file_name := "ep" +:+ pretty n +:+ ".dual." +:+ lang1 +:+ "." +:+ lang2 +:+ ".ass";
     language_code := None;
     is_dual_subtitle := Some true;
     dual_languages := Some [lang1; lang2] |}.

Definition stream (ix : Z) (lang : string) : EmbeddedSubtitle :=
  {| languageCode := Some lang; stream_index := ix; display_name := lang |}.

(** English: episodes 1 to 20 as files, 21 to 24 embedded. Japanese: 1 to 18
    as files, 19 to 22 embedded, none for 23 and 24. Episodes 1 and 2 already
    have an English and Japanese dual file. *)
Definition listing (n : nat) : EpisodeSubtitles :=
  {| external_subtitles :=
       Some ((if bool_decide (n ≤ 20)%nat then [srt n "en"] else [])
             ++ (if bool_decide (n ≤ 18)%nat then [srt n "ja"] else [])
             ++ (if bool_decide (n ≤ 2)%nat then [dual n "en" "ja"] else []));
     embedded_subtitles :=
       Some ((if bool_decide (20 < n)%nat then [stream 2 "en"] else [])
             ++ (if bool_decide (18 < n ≤ 22)%nat then [stream 3 "ja"] else [])) |}.

Definition listings : list (Episode * option EpisodeSubtitles) :=
  (λ n, (episode n, Some (listing n))) <$> seq 1 24.

End Scenario.

(** ** A show with one English-only and one Japanese-only episode *)

Module Disjoint.

Definition listings : list (Episode * option EpisodeSubtitles) :=
  [ (Scenario.episode 1,
     Some {| external_subtitles := Some [Scenario.srt 1 "en"];
             embedded_subtitles := Some [] |});
    (Scenario.episode 2,
     Some {| external_subtitles := Some [Scenario.srt 2 "ja"];
             embedded_subtitles := Some [] |}) ].

End Disjoint.

(** ** A run over five episodes

    Episode 1 already has an English and Japanese dual file. Episode 2 has
    Japanese only as an embedded stream. The Japanese file of episode 3 is
    gone when its task runs. The creation request of episode 4 times out.
    Episode 5 has both files. Task [i] starts at second [10 i]; a creation
    that succeeds takes 4 seconds for the first task and 6 seconds for the
    others. *)

Module Run.

Definition both (n : nat) : EpisodeSubtitles :=
  {| external_subtitles := Some [Scenario.srt n "en"; Scenario.srt n "ja"];
     embedded_subtitles := Some [] |}.

Definition listing1 : EpisodeSubtitles :=
  {| external_subtitles :=
       Some [Scenario.srt 1 "en"; Scenario.srt 1 "ja"; Scenario.dual 1 "ja" "en"];
     embedded_subtitles := Some [] |}.

Definition info1 : EpisodeSubtitleInfo := api.episodeInfo (Scenario.episode 1) listing1.

Definition listing2 : EpisodeSubtitles :=
  {| external_subtitles := Some [Scenario.srt 2 "en"];
     embedded_subtitles := Some [Scenario.stream 3 "ja"] |}.


Definition info3 : EpisodeSubtitleInfo := api.episodeInfo (Scenario.episode 3) (both 3).

(** The listing of episode 3 when its task runs. *)
Definition listing3_later : EpisodeSubtitles :=
  {| external_subtitles := Some [Scenario.srt 3 "en"];
     embedded_subtitles := Some [] |}.

Definition listings : list (Episode * option EpisodeSubtitles) :=
  [ (Scenario.episode 1, Some listing1);
    (Scenario.episode 2, Some listing2);
    (Scenario.episode 3, Some (both 3));
    (Scenario.episode 4, Some (both 4));
    (Scenario.episode 5, Some (both 5)) ].

Definition notFound : api.Exn :=
  {| api.message := Some "Request failed with status code 404";
     api.code := Some "ERR_BAD_REQUEST";
     api.response_status := Some 404;
     api.response_detail := None |}.

Definition timedOut : api.Exn :=
  {| api.message := Some "timeout of 240000ms exceeded";
     api.code := Some "ECONNABORTED";
     api.response_status := None;
     api.response_detail := None |}.

Definition world : api.World :=
  {| api.fetchListings := api.Returns listings;
     api.getEpisodeSubtitles := λ _ eid,
       if bool_decide (eid = "ep3")
       then api.Returns listing3_later
       else match List.find (λ entry, bool_decide (id entry.1 = eid)) listings with
            | Some (_, Some subtitles) => api.Returns subtitles
            | _ => api.Throws notFound
            end;
     api.createDualSubtitleWithTimeout := λ _ eid _ _,
       if bool_decide (eid = "ep4") then api.Throws timedOut
       else api.Returns {| api.success := true;
                           api.output_file := eid +:+ ".dual.en.ja.ass" |};
     api.episodeStartTime := λ i, 10000 * Z.of_nat i;
     api.episodeEndTime := λ i, 10000 * Z.of_nat i + (if bool_decide (i = 0%nat) then 4000 else 6000);
     api.typeErrorMessage := λ method,
       "Cannot read properties of undefined (reading '" +:+ method +:+ "')" |}.

Definition stylingConfig : api.DualSubtitleConfig :=
  {| api.primary_position := "bottom";
     api.secondary_position := "top";
     api.primary_color := "#FFFFFF";
     api.secondary_color := "#FFFF00";
     api.primary_font_size := 20;
     api.secondary_font_size := 18;
     api.primary_language := "en";
     api.secondary_language := "ja";
     api.output_format := "ass" |}.

(** The task list of the run and what the run answers. *)
Definition tasks : list EpisodeSubtitleInfo :=
  let availability := language_availability (api.getSubtitleAnalysis listings) in
  match availability !! "en", availability !! "ja" with
  | Some primaryAvail, Some secondaryAvail =>
      api.episodesToProcess "en" "ja" primaryAvail secondaryAvail
  | _, _ => []
  end.

Definition answer : api.Results * list api.Progress := Eval vm_compute in
  match api.processBulkDualSubtitles world "en" "ja" stylingConfig with
  | api.Returns r => r
  | api.Throws _ => ({| api.successful := []; api.failed := []; api.skipped := [] |}, [])
  end.

End Run.

(** ** Vocabulary of the statements about a run *)

Module RunSpec.

Definition resultIds (r : api.Results) : list string :=
  (api.s_episode_id <$> api.successful r)
  ++ (api.f_episode_id <$> api.failed r)
  ++ (api.k_episode_id <$> api.skipped r).

(** How a task ends. *)
Inductive TaskOutcome :=
| Succeeded (entry : api.SuccessfulEntry) (duration : Z)
| Failed (entry : api.FailedEntry)
| Skipped (entry : api.SkippedEntry).

Definition successfulOf (os : list TaskOutcome) : list api.SuccessfulEntry :=
  os ≫= λ o, match o with Succeeded e _ => [e] | _ => [] end.
Definition failedOf (os : list TaskOutcome) : list api.FailedEntry :=
  os ≫= λ o, match o with Failed e => [e] | _ => [] end.
Definition skippedOf (os : list TaskOutcome) : list api.SkippedEntry :=
  os ≫= λ o, match o with Skipped e => [e] | _ => [] end.
Definition durationsOf (os : list TaskOutcome) : list Z :=
  os ≫= λ o, match o with Succeeded _ d => [d] | _ => [] end.

(** The state after a task that ended with outcome [o]. *)
Definition record (o : TaskOutcome) (st : api.LoopState) : api.LoopState :=
  match o with
  | Succeeded e d => api.pushSuccessful e d st
  | Failed e => api.pushFailed e st
  | Skipped e => api.pushSkipped e st
  end.

Section outcomes.
Context (w : api.World) (primaryLanguage secondaryLanguage : string)
        (stylingConfig : api.DualSubtitleConfig).

(** The end of task [i] on [episode], read off the answers of the world. *)
Definition taskOutcome (i : nat) (episode : EpisodeSubtitleInfo) : TaskOutcome :=
  match api.getEpisodeSubtitles w i (episode_id episode) with
  | api.Throws error => Failed (api.failedEntry episode error)
  | api.Returns episodeSubtitles =>
      match api.missingLanguage primaryLanguage secondaryLanguage episodeSubtitles with
      | Some lang =>
          Skipped {| api.k_episode_id := episode_id episode;
                     api.k_reason := "Missing " +:+ lang +:+ " subtitle" |}
      | None =>
          match api.createDualSubtitleWithTimeout w i (episode_id episode)
                  (api.configFor primaryLanguage secondaryLanguage stylingConfig
                                 episodeSubtitles) 240000 with
          | api.Throws error => Failed (api.failedEntry episode error)
          | api.Returns result =>
              Succeeded {| api.s_episode_id := episode_id episode;
                           api.s_output_file := api.output_file result;
                           api.s_episode_title := title episode |}
                        (api.episodeEndTime w i - api.episodeStartTime w i)
          end
      end
  end.

(** The ends of the tasks on [episodes], the first of them being task [i]. *)
Fixpoint taskOutcomes (i : nat) (episodes : list EpisodeSubtitleInfo) : list TaskOutcome :=
  match episodes with
  | [] => []
  | episode :: rest => taskOutcome i episode :: taskOutcomes (S i) rest
  end.

(** The progress calls of the loop from counter [i] on, when [times] are
    the durations recorded before. *)
Fixpoint reports (total : Z) (i : nat) (episodes : list EpisodeSubtitleInfo)
    (times : list Z) : list api.Progress :=
  match episodes with
  | [] => []
  | episode :: rest =>
      api.progressAt times total i episode
      :: reports total (S i) rest (times ++ durationsOf [taskOutcome i episode])
  end.

(** The durations recorded by the tasks on [episodes]. *)
Definition recordedDurations (i : nat) (episodes : list EpisodeSubtitleInfo) : list Z :=
  durationsOf (taskOutcomes i episodes).
End outcomes.

End RunSpec.

(** ** Vocabulary of the statements *)

Module Spec.

(** A listing: an episode of the show with what was fetched for it. *)
Abbreviation Listing := (Episode * option EpisodeSubtitles)%type.

Definition codesOfExternal (subs : list ExternalSubtitle) : list string :=
  (λ sub, or_default (language_code sub) "unknown")
    <$> List.filter (λ sub, negb (truthy (is_dual_subtitle sub))) subs.

Definition codesOfEmbedded (subs : list EmbeddedSubtitle) : list string :=
  (λ sub, or_default (languageCode sub) "unknown") <$> subs.

(** The episode has a file of language [c] that is not flagged as a dual
    output. *)
Definition hasExternal (c : string) (entry : Listing) : bool :=
  match entry.2 with
  | Some subtitles =>
      bool_decide (c ∈ codesOfExternal (opt_list (external_subtitles subtitles)))
  | None => false
  end.

(** The episode has an embedded stream of language [c]. *)
Definition hasEmbedded (c : string) (entry : Listing) : bool :=
  match entry.2 with
  | Some subtitles =>
      bool_decide (c ∈ codesOfEmbedded (opt_list (embedded_subtitles subtitles)))
  | None => false
  end.

Definition hasLanguage (c : string) (entry : Listing) : bool :=
  hasExternal c entry || hasEmbedded c entry.

(** The distinct episodes, by id, among the listings that satisfy [P]. *)
Definition episodesWhere (P : Listing → bool) (listings : list Listing) : gset string :=
  list_to_set ((λ entry, id entry.1) <$> List.filter P listings).

Definition countEpisodes (P : Listing → bool) (listings : list Listing) : Z :=
  Z.of_nat (size (episodesWhere P listings)).

(** The entry pushed to [episode_details] for a listing. *)
Definition infoOf (entry : Listing) : EpisodeSubtitleInfo :=
  api.episodeInfo entry.1 (default {| embedded_subtitles := None; external_subtitles := None |}
                                   entry.2).

(** The listings without the files flagged as dual outputs. *)
Definition dropDual (entry : Listing) : Listing :=
  (entry.1,
   (λ subtitles,
      {| embedded_subtitles := embedded_subtitles subtitles;
         external_subtitles :=
           List.filter (λ sub, negb (truthy (is_dual_subtitle sub)))
             <$> external_subtitles subtitles |}) <$> entry.2).

(** The episodes of a language in an analysis, none when the language does
    not occur in it. *)
Definition detailsOf (analysis : SubtitleAnalysis) (lang : string)
  : list EpisodeSubtitleInfo :=
  match language_availability analysis !! lang with
  | Some la => episode_details la
  | None => []
  end.

(** The episodes of [xs] that have no entry, by id, in [ys]. *)
Definition onlyIn (xs ys : list EpisodeSubtitleInfo) : list EpisodeSubtitleInfo :=
  List.filter
    (λ ep, negb (existsb (λ other, bool_decide (episode_id other = episode_id ep)) ys))
    xs.

(** The number of episodes that occur under exactly one of two languages. *)
Definition exactlyOneLanguage (analysis : SubtitleAnalysis)
    (primaryLanguage secondaryLanguage : string) : Z :=
  Z.of_nat (length (onlyIn (detailsOf analysis primaryLanguage)
                           (detailsOf analysis secondaryLanguage)))
  + Z.of_nat (length (onlyIn (detailsOf analysis secondaryLanguage)
                             (detailsOf analysis primaryLanguage))).

(** What the scan of one episode does to the entry of language [c]. *)
Definition register (external embedded : bool) (eid : string)
    (info : EpisodeSubtitleInfo) (d : api.LangData) : api.LangData :=
  {| api.ld_name := api.ld_name d;
     api.ld_episode_details := api.ld_episode_details d ++ [info];
     api._episode_ids := {[eid]} ∪ api._episode_ids d;
     api._external_episode_ids :=
       if external then {[eid]} ∪ api._external_episode_ids d else api._external_episode_ids d;
     api._embedded_episode_ids :=
       if embedded then {[eid]} ∪ api._embedded_episode_ids d else api._embedded_episode_ids d |}.

(** What the scan of an episode does to the entry of language [c]: the
    episode is entered once, and its id goes to the sets of the sources it
    has. *)
Definition applyEpisode (c : string) (entry : Listing) (o : option api.LangData)
  : option api.LangData :=
  if hasLanguage c entry
  then Some (register (hasExternal c entry) (hasEmbedded c entry) (id entry.1)
                      (infoOf entry) (default (api.newLangData c) o))
  else o.

(** The entry of language [c] after the listings were scanned from [d]. *)
Definition grow (c : string) (listings : list Listing) (d : api.LangData) : api.LangData :=
  {| api.ld_name := api.ld_name d;
     api.ld_episode_details :=
       api.ld_episode_details d ++ (infoOf <$> List.filter (hasLanguage c) listings);
     api._episode_ids := api._episode_ids d ∪ episodesWhere (hasLanguage c) listings;
     api._external_episode_ids :=
       api._external_episode_ids d ∪ episodesWhere (hasExternal c) listings;
     api._embedded_episode_ids :=
       api._embedded_episode_ids d ∪ episodesWhere (hasEmbedded c) listings |}.

(** The three counts of a language. *)
Definition counts (la : LanguageAvailability) : Z * Z * Z :=
  (episodes_available la, episodes_with_external la, episodes_with_embedded la).

(** The sum of a list of integers. *)
Definition exactSum (l : list Z) : Z := foldr Z.add 0 l.

(** The names under which the object [language_availability] can find a
    value that it inherits: those of [Object.prototype], and the fields of a
    record of the code "__proto__" when the analysis has one. *)
Definition inheritedNames (analysis : SubtitleAnalysis) : list string :=
  Object_prototype_names
  ++ match language_availability analysis !! "__proto__" with
     | Some _ => [ "name"; "episodes_available"; "episodes_with_external";
                   "episodes_with_embedded"; "episode_details" ]
     | None => []
     end.

End Spec.

(** ** More of JavaScript *)

(** Truthiness of a string: every string but the empty one. *)
Definition truthyString (s : string) : bool := negb (bool_decide (s = "")).

(** ** The discovery step of the wizard ([LanguageDiscoveryStep]) *)

Module LanguageDiscoveryStep.

(** The comparison function given to [sort]:
    [([, a], [, b]) => b.episodes_available - a.episodes_available]. *)
Definition compareFn (a b : string * LanguageAvailability) : Z :=
  episodes_available b.2 - episodes_available a.2.

(** [Array.prototype.sort] is stable: with this comparison function its
    result is determined, the entries by decreasing [episodes_available] and
    entries with equal counts in their order in the array. The model builds
    that result by insertion from the right: an entry goes in front of the
    first entry that it does not have to follow. *)
Fixpoint insertEntry (x : string * LanguageAvailability)
    (l : list (string * LanguageAvailability)) : list (string * LanguageAvailability) :=
  match l with
  | [] => [x]
  | y :: l' => if bool_decide (compareFn x y ≤ 0) then x :: y :: l' else y :: insertEntry x l'
  end.

Definition sortEntries (entries : list (string * LanguageAvailability))
  : list (string * LanguageAvailability) :=
  foldr insertEntry [] entries.

(** [sortedLanguages], for the entries of [analysis.language_availability]
    in the order [Object.entries] lists them. *)
Definition sortedLanguages (entries : list (string * LanguageAvailability))
  : list (string * LanguageAvailability) :=
  take 6 (sortEntries entries).

(** The effect "Auto-select most common languages if none selected": the
    selection after it. *)
Definition autoSelect (sorted : list (string * LanguageAvailability))
    (primaryLanguage secondaryLanguage : string) : string * string :=
  match sorted with
  | (firstLang, _) :: (secondLang, _) :: _ =>
      if negb (truthyString primaryLanguage) && negb (truthyString secondaryLanguage)
      then (firstLang, secondLang)
      else (primaryLanguage, secondaryLanguage)
  | _ => (primaryLanguage, secondaryLanguage)
  end.

(** The truthiness of [canContinue], which enables the button "Continue to
    Preview". *)
Definition canContinue (analysis : SubtitleAnalysis)
    (primaryLanguage secondaryLanguage : string) : bool :=
  truthyString primaryLanguage
  && truthyString secondaryLanguage
  && negb (bool_decide (primaryLanguage = secondaryLanguage))
  && api.truthyProperty (api.readProperty analysis primaryLanguage)
  && api.truthyProperty (api.readProperty analysis secondaryLanguage).

(** [handleContinue]: the pair handed to [onLanguageSelect], if any. *)
Definition handleContinue (primaryLanguage secondaryLanguage : string)
  : option (string * string) :=
  if truthyString primaryLanguage && truthyString secondaryLanguage
     && negb (bool_decide (primaryLanguage = secondaryLanguage))
  then Some (primaryLanguage, secondaryLanguage)
  else None.

(** [x?.episodes_available || 0] *)
Definition availableOrZero (la : option LanguageAvailability) : Z :=
  match la with
  | Some x => episodes_available x
  | None => 0
  end.

(** [previewData]; of the two values read from the analysis the record is
    kept, if it is one. *)
Record PreviewData := {
  primary : option LanguageAvailability;
  secondary : option LanguageAvailability;
  compatible : Z
}.

Definition previewData (analysis : SubtitleAnalysis)
    (primaryLanguage secondaryLanguage : string) : option PreviewData :=
  if truthyString primaryLanguage && truthyString secondaryLanguage
  then Some {| primary := language_availability analysis !! primaryLanguage;
               secondary := language_availability analysis !! secondaryLanguage;
               compatible :=
                 Z.min (availableOrZero (language_availability analysis !! primaryLanguage))
                       (availableOrZero (language_availability analysis !! secondaryLanguage)) |}
  else None.

(** The three numbers of the "Preview Results" panel: "Episodes Ready",
    "Need Attention" and "Will Skip". They are numbers when both languages
    have a record. Without a record there are none, and [None] stands for
    that: reading [episodes_available] of [undefined] throws, and an
    inherited value has no such field. *)
Record PreviewNumbers := {
  episodesReady : Z;
  needAttention : Z;
  willSkip : Z
}.

Definition previewNumbers (analysis : SubtitleAnalysis) (data : PreviewData)
  : option PreviewNumbers :=
  match primary data, secondary data with
  | Some p, Some s =>
      Some {| episodesReady := compatible data;
              needAttention :=
                Z.max (episodes_available p) (episodes_available s) - compatible data;
              willSkip :=
                total_episodes analysis
                - Z.max (episodes_available p) (episodes_available s) |}
  | _, _ => None
  end.

End LanguageDiscoveryStep.

(** ** Vocabulary for texts *)

Module Text.

Definition is_digit (c : ascii) : bool :=
  (48 <=? nat_of_ascii c)%nat && (nat_of_ascii c <=? 57)%nat.


Fixpoint all_letters (s : string) : bool :=
  match s with
  | EmptyString => true
  | String c s' => is_letter c && all_letters s'
  end.

(** [s] without its first [n] characters. *)
Fixpoint drop_string (n : nat) (s : string) : string :=
  match n, s with
  | S n', String _ s' => drop_string n' s'
  | _, _ => s
  end.

End Text.

(** ** The language table of the upload form ([data/languages.ts]) *)

Module data_languages.

(** The [code] fields of [COMPREHENSIVE_LANGUAGES], in the order of the
    table; the other fields of an entry are not read by the code below. *)
Definition COMPREHENSIVE_LANGUAGES : list string :=
  [ "en"; "zh"; "zh-TW"; "hi"; "es"; "fr"; "ar"; "bn"; "pt"; "ru"; "ja"; "de"; "ko"; "it";
    "tr"; "vi"; "pl"; "uk"; "nl"; "fa";
    "sv"; "no"; "da"; "fi"; "is"; "cs"; "sk"; "hu"; "ro"; "bg"; "hr"; "sr"; "bs"; "sl";
    "mk"; "sq"; "et"; "lv"; "lt"; "mt"; "ga"; "cy"; "eu"; "ca"; "gl";
    "th"; "my"; "km"; "lo"; "si"; "ta"; "te"; "kn"; "ml"; "gu"; "pa"; "mr"; "ne"; "ur";
    "sd"; "ps"; "dv";
    "he"; "ku"; "az"; "ka"; "hy";
    "sw"; "am"; "ti"; "om"; "so"; "ha"; "yo"; "ig"; "zu"; "xh"; "af";
    "es-MX"; "es-AR"; "es-CO"; "es-CL"; "es-PE"; "es-VE";
    "pt-BR"; "pt-PT";
    "en-US"; "en-GB"; "en-AU"; "en-CA";
    "fr-FR"; "fr-CA"; "fr-CH"; "fr-BE";
    "de-DE"; "de-AT"; "de-CH";
    "ar-SA"; "ar-EG"; "ar-AE"; "ar-MA";
    "id"; "ms"; "tl"; "ceb"; "haw"; "mi"; "sm"; "to"; "fj";
    "eo"; "ia"; "vo";
    "asl"; "bsl"; "jsl";
    "zxx"; "mul"; "und" ].

(** [COMPREHENSIVE_LANGUAGES.find(lang => lang.code === code)], the entry
    standing for its code. *)
Definition getLanguageByCode (code : string) : option string :=
  List.find (λ lang, bool_decide (lang = code)) COMPREHENSIVE_LANGUAGES.

End data_languages.

(** ** The upload form of the episode page ([EpisodeDetail]) *)

Module EpisodeDetail.

(** The three state variables the handlers of the form write. *)
Record UploadForm := {
  uploadFile : option string;
  uploadLanguage : string;
  detectedLanguage : option string
}.

Definition initialForm : UploadForm :=
  {| uploadFile := None; uploadLanguage := "en"; detectedLanguage := None |}.

(** [setUploadFile(file)] followed by the block "Try to detect language from
    filename", which the two handlers share; a file is given by its name. *)
Definition detectLanguage (fileName : string) (form : UploadForm) : UploadForm :=
  match languageDetection.extractLanguageFromFilename fileName with
  | Some detectedLang =>
      if truthyString detectedLang
         && bool_decide (is_Some (data_languages.getLanguageByCode detectedLang))
      then {| uploadFile := Some fileName;
              uploadLanguage := detectedLang;
              detectedLanguage := Some detectedLang |}
      else {| uploadFile := Some fileName;
              uploadLanguage := uploadLanguage form;
              detectedLanguage := None |}
  | None =>
      {| uploadFile := Some fileName;
         uploadLanguage := uploadLanguage form;
         detectedLanguage := None |}
  end.

(** [handleDrop] on the dropped files: the form afterwards. For a file
    without a subtitle extension the handler calls [showToast] to show the
    toast "Invalid file type". The page takes [showToast] from
    [useToast()], whose context provides [addToast] and [removeToast] only:
    [showToast] is [undefined] and the call throws a [TypeError]. [None]
    stands for that; nothing of the form was written before. *)
Definition handleDrop (files : list string) (form : UploadForm) : option UploadForm :=
  match files with
  | fileName :: _ =>
      if bool_decide (is_Some (languageDetection.regex_match languageDetection.extension
                                                               fileName))
      then Some (detectLanguage fileName form)
      else None
  | [] => Some form
  end.

(** The [onChange] handler of the file input, on [e.target.files?.[0] || null]. *)
Definition onChange (file : option string) (form : UploadForm) : UploadForm :=
  match file with
  | Some fileName => detectLanguage fileName form
  | None =>
      {| uploadFile := None;
         uploadLanguage := uploadLanguage form;
         detectedLanguage := detectedLanguage form |}
  end.

End EpisodeDetail.

(** ** Image addresses ([fixPlexImageUrl], [isValidImageUrl]) *)

Module imageUtils.

(** [s.startsWith(searchString)] *)
Definition startsWith (searchString s : string) : bool := String.prefix searchString s.

(** [s.replace(pattern, replacement)] for a pattern that is a string, and a
    replacement without [$]: the first occurrence is replaced. *)
Fixpoint replace (pattern replacement s : string) : string :=
  if String.prefix pattern s
  then replacement +:+ Text.drop_string (String.length pattern) s
  else match s with
       | EmptyString => EmptyString
       | String c s' => String c (replace pattern replacement s')
       end.

(** [encodeURIComponent] on a text given by the bytes of its UTF-8 form:
    the letters, the digits and [- _ . ! ~ * ' ( )] stay, every other byte
    becomes [%] and its two upper-case hexadecimal digits. *)
Definition unreserved (c : ascii) : bool :=
  is_letter c || Text.is_digit c
  || existsb (λ mark, bool_decide (c = mark)) ["-"; "_"; "."; "!"; "~"; "*"; "'"; "("; ")"]%char.

Definition hexDigit (n : nat) : ascii :=
  if (n <? 10)%nat then ascii_of_nat (48 + n) else ascii_of_nat (55 + n).

Definition percentEncoded (c : ascii) : string :=
  String "%" (String (hexDigit (nat_of_ascii c / 16))
                     (String (hexDigit (nat_of_ascii c mod 16)) EmptyString)).

Fixpoint encodeURIComponent (s : string) : string :=
  match s with
  | EmptyString => EmptyString
  | String c s' =>
      (if unreserved c then String c EmptyString else percentEncoded c)
        +:+ encodeURIComponent s'
  end.

(** [getStoredToken] is what [PlexAuthService.getStoredToken()] answers,
    [None] for [null]. *)
Definition fixPlexImageUrl (getStoredToken : option string) (thumbUrl : option string)
  : option string :=
  match thumbUrl with
  | None => None
  | Some thumbUrl =>
      if negb (truthyString thumbUrl) then None
      else if startsWith "None/" thumbUrl then
        let pathPart := replace "None/" "" thumbUrl in
        let backendBase := "http://localhost:8000" in
        match getStoredToken with
        | Some token =>
            if negb (truthyString token) then None
            else Some (backendBase +:+ "/api/plex-proxy/" +:+ encodeURIComponent pathPart
                         +:+ "?token=" +:+ encodeURIComponent token)
        | None => None
        end
      else Some thumbUrl
  end.

Definition isValidImageUrl (url : option string) : bool :=
  match url with
  | None => false
  | Some url => negb (bool_decide (url = "None")) && negb (startsWith "None/" url)
  end.

End imageUtils.

(** ** The wizard ([BulkDualSubtitleWizard]) *)

Module BulkDualSubtitleWizard.

Inductive WizardStep := discovery | preview | processing | results.

#[global] Instance WizardStep_eq_dec : EqDecision WizardStep.
Proof. solve_decision. Defined.

(** The state variables that decide the step shown; the styling and the
    episode configurations, which no transition reads, are left out. *)
Record State := {
  currentStep : WizardStep;
  primaryLanguage : string;
  secondaryLanguage : string;
  jobId : string
}.

Definition initialState : State :=
  {| currentStep := discovery; primaryLanguage := ""; secondaryLanguage := ""; jobId := "" |}.

Definition handleLanguageSelect (primary secondary : string) (st : State) : State :=
  {| currentStep := preview;
     primaryLanguage := primary;
     secondaryLanguage := secondary;
     jobId := jobId st |}.

Definition handleStartProcessing (st : State) : State :=
  {| currentStep := processing;
     primaryLanguage := primaryLanguage st;
     secondaryLanguage := secondaryLanguage st;
     jobId := jobId st |}.

Definition handleJobStarted (startedJobId : string) (st : State) : State :=
  {| currentStep := results;
     primaryLanguage := primaryLanguage st;
     secondaryLanguage := secondaryLanguage st;
     jobId := startedJobId |}.

Definition handleBack (st : State) : State :=
  match currentStep st with
  | preview =>
      {| currentStep := discovery;
         primaryLanguage := primaryLanguage st;
         secondaryLanguage := secondaryLanguage st;
         jobId := jobId st |}
  | processing =>
      {| currentStep := preview;
         primaryLanguage := primaryLanguage st;
         secondaryLanguage := secondaryLanguage st;
         jobId := jobId st |}
  | results => st
  | discovery => st
  end.

Definition canGoBack (st : State) : bool :=
  bool_decide (currentStep st = preview)
  || (bool_decide (currentStep st = processing) && negb (truthyString (jobId st))).

Definition getStepTitle (st : State) : string :=
  match currentStep st with
  | discovery => "Language Discovery"
  | preview => "Episode Configuration"
  | processing => "Starting Background Job"
  | results => if truthyString (jobId st) then "Job Started Successfully"
               else "Processing Complete"
  end.

(** The step indicator: the three entries and, for an entry, [isActive] and
    [isCompleted]. *)
Definition indicatorSteps : list WizardStep := [discovery; preview; results].

Definition isActive (step : WizardStep) (st : State) : bool :=
  bool_decide (step = currentStep st)
  || (bool_decide (currentStep st = processing) && bool_decide (step = results)).

Definition isCompleted (step : WizardStep) (st : State) : bool :=
  (bool_decide (step = discovery)
   && bool_decide (currentStep st ∈ [preview; processing; results]))
  || (bool_decide (step = preview)
      && bool_decide (currentStep st ∈ [processing; results])).

(** What can happen to a wizard on the screen. The discovery step, shown in
    the step [discovery], hands over a pair through its [handleContinue];
    the preview step, shown in the step [preview], starts the processing;
    the processing step reports the id of its job when its request is
    answered, which can be after the step was left; the button "back" is
    shown when [canGoBack] holds. *)
Inductive Event :=
| Continue (primary secondary : string)
| StartProcessing
| JobIdReceived (startedJobId : string)
| Back.

(** A wizard together with the number of processing steps whose request has
    not been answered yet. *)
Record Wizard := {
  state : State;
  pendingRequests : nat
}.

Definition initialWizard : Wizard := {| state := initialState; pendingRequests := 0 |}.

(** The wizard after an event, [None] when the event cannot happen. *)
Definition fire (e : Event) (wz : Wizard) : option Wizard :=
  let st := state wz in
  match e with
  | Continue primary secondary =>
      if bool_decide (currentStep st = discovery) then
        match LanguageDiscoveryStep.handleContinue primary secondary with
        | Some (p, s) =>
            Some {| state := handleLanguageSelect p s st;
                    pendingRequests := pendingRequests wz |}
        | None => Some wz
        end
      else None
  | StartProcessing =>
      if bool_decide (currentStep st = preview)
      then Some {| state := handleStartProcessing st;
                   pendingRequests := S (pendingRequests wz) |}
      else None
  | JobIdReceived startedJobId =>
      match pendingRequests wz with
      | S n => Some {| state := handleJobStarted startedJobId st; pendingRequests := n |}
      | O => None
      end
  | Back =>
      if canGoBack st
      then Some {| state := handleBack st; pendingRequests := pendingRequests wz |}
      else None
  end.

Fixpoint fireAll (events : list Event) (wz : Wizard) : option Wizard :=
  match events with
  | [] => Some wz
  | e :: rest =>
      match fire e wz with
      | Some wz' => fireAll rest wz'
      | None => None
      end
  end.

End BulkDualSubtitleWizard.

(** * Properties *)

(** ** Language names *)

Example getLanguageName_tests :
  api.getLanguageName "ja" = "Japanese"
  ∧ api.getLanguageName "zh-TW" = "Chinese (Traditional)"
  ∧ api.getLanguageName "nl" = "NL"
  ∧ api.getLanguageName "unknown" = "Unknown"
  ∧ api.getLanguageName "" = ""
  ∧ api.getLanguageName "toString" = inherited "toString".
Proof. vm_compute. repeat split. Qed.

Section name_lemmas.

Lemma map_string_length (f : ascii → ascii) (s : string) :
  String.length (map_string f s) = String.length s.
Proof. induction s as [|c s IH]; simpl; [done|]. by rewrite IH. Qed.

Lemma map_string_get (f : ascii → ascii) (s : string) (i : nat) :
  String.get i (map_string f s) = f <$> String.get i s.
Proof.
  revert i. induction s as [|c s IH]; intros i; simpl; [done|].
  destruct i as [|i]; [done|]. apply IH.
Qed.

(** The codes for which [getLanguageName] reaches its fall-back and computes
    it: they are turned into upper case letter by letter. *)
Lemma getLanguageName_fallback (code : string) :
  code ≠ "hi" →
  api.lookup_table code api.languages = None →
  code ∉ Object_prototype_names →
  all_ascii code = true →
  api.getLanguageName code = text (map_string upper_char code).
Proof.
  intros Hhi Habsent Hown Hascii. unfold api.getLanguageName, api.readTable.
  rewrite decide_False by done. rewrite Habsent.
  rewrite bool_decide_eq_false_2 by done.
  unfold toUpperCase. by rewrite Hascii.
Qed.
End name_lemmas.

(** C9. [getLanguageName] answers "Hearing Impaired" for the code "hi". For
    a code that is not a key of its table it does not always answer the
    code in upper case: for "constructor" the read [languages[code]] finds
    the function that every object inherits under that name, and that
    function is the answer, not the text "CONSTRUCTOR". Away from the names
    of [Object.prototype], a code of ASCII characters that is not in the
    table is answered letter by letter in upper case: a letter from a to z
    by the letter 32 places before it, any other character by itself. *)
Theorem getLanguageName_inherited_name :
  api.getLanguageName "hi" = "Hearing Impaired"
  ∧ api.lookup_table "constructor" api.languages = None
  ∧ api.getLanguageName "constructor" = inherited "constructor"
  ∧ api.getLanguageName "constructor" ≠ "CONSTRUCTOR"
  ∧ ∀ code : string,
      code ≠ "hi" →
      api.lookup_table code api.languages = None →
      code ∉ Object_prototype_names →
      all_ascii code = true →
      ∃ answer : string,
        api.getLanguageName code = answer
        ∧ String.length answer = String.length code
        ∧ ∀ (i : nat) (c : ascii),
            String.get i code = Some c →
            String.get i answer
            = Some (if (97 <=? nat_of_ascii c)%nat && (nat_of_ascii c <=? 122)%nat
                    then ascii_of_nat (nat_of_ascii c - 32)
                    else c).
Proof.
  split; [reflexivity|]. split; [reflexivity|]. split; [reflexivity|].
  split; [discriminate|].
  intros code Hhi Habsent Hown Hascii. exists (map_string upper_char code).
  split; [by apply getLanguageName_fallback|].
  split; [apply map_string_length|].
  intros i c Hc. by rewrite map_string_get, Hc.
Qed.

Lemma getLanguageName_inherited_name_witness :
  api.getLanguageName "nl" = "NL".
Proof.
  destruct (proj2 (proj2 (proj2 (proj2 getLanguageName_inherited_name))) "nl")
    as (answer & -> & Hlen & Hchars).
  - discriminate.
  - reflexivity.
  - apply (bool_decide_unpack _). vm_compute. exact I.
  - reflexivity.
  - pose proof (Hchars 0%nat "n"%char eq_refl) as H0.
    pose proof (Hchars 1%nat "l"%char eq_refl) as H1.
    destruct answer as [|a [|b [|? ?]]]; simpl in Hlen; try discriminate.
    simpl in H0, H1. injection H0 as ->. injection H1 as ->. reflexivity.
Defined.

(** ** Language detection *)

Example extract_tests :
  languageDetection.extractLanguageFromFilename "show.zh.hi.srt" = Some "hi"
  ∧ languageDetection.extractLanguageFromFilename "Show.S01E01.EN.SRT" = Some "en"
  ∧ languageDetection.extractLanguageFromFilename "show.en-US.ass" = Some "en-us"
  ∧ languageDetection.extractLanguageFromFilename "show.eng.vtt" = Some "eng"
  ∧ languageDetection.extractLanguageFromFilename "show_fr.sub" = Some "fr"
  ∧ languageDetection.extractLanguageFromFilename "show-de.srt" = Some "de"
  ∧ languageDetection.extractLanguageFromFilename "show.srt" = None
  ∧ languageDetection.extractLanguageFromFilename "show.en.srt.bak" = None
  ∧ languageDetection.extractLanguageFromFilename "" = None.
Proof. vm_compute. repeat split. Qed.


Section detection_lemmas.
Import languageDetection.

Lemma string_length_app s t :
  String.length (s +:+ t) = (String.length s + String.length t)%nat.
Proof.
  induction s as [|a s IH]; [reflexivity|].
  change (String a s +:+ t) with (String a (s +:+ t)). simpl. by rewrite IH.
Qed.

Lemma in_class_az c : in_class "a" "z" c = is_letter c.
Proof. by destruct c as [[] [] [] [] [] [] [] []]; vm_compute. Qed.

Lemma canon_eq_lower c d :
  lower_char d = c → is_lower c = true → canon_eq c d = true.
Proof.
  intros <-. by destruct d as [[] [] [] [] [] [] [] []]; vm_compute.
Qed.

Lemma regex_match_unfold r s :
  regex_match r s =
  match match_at r s None (λ _ cap, Some cap) with
  | Some cap => Some cap
  | None => match s with
            | EmptyString => None
            | String _ s' => regex_match r s'
            end
  end.
Proof. by destruct s. Qed.

Lemma firstMatch_none ps filename :
  Forall (λ pattern, regex_match pattern filename = None) ps →
  firstMatch ps filename = None.
Proof.
  induction 1 as [|pattern ps Hp _ IH]; [done|].
  simpl. by rewrite Hp.
Qed.

(** A match that is anchored at the end and leaves [n] characters to a
    pattern of fixed width cannot start before the last [n] characters. *)
Lemma regex_match_suffix r n stem s cap :
  (∀ t, is_Some (match_at r t None (λ _ cap, Some cap)) → String.length t = n) →
  String.length s = n →
  match_at r s None (λ _ cap, Some cap) = Some cap →
  regex_match r (stem +:+ s) = Some cap.
Proof.
  intros Hwidth Hlen Hs. induction stem as [|a stem IH].
  - change ("" +:+ s) with s. by rewrite regex_match_unfold, Hs.
  - change (String a stem +:+ s) with (String a (stem +:+ s)).
    rewrite regex_match_unfold.
    destruct (match_at r (String a (stem +:+ s)) None (λ _ cap, Some cap)) eqn:E.
    + assert (String.length (String a (stem +:+ s)) = n) as Habs
        by (apply Hwidth; rewrite E; eauto).
      simpl in Habs. rewrite string_length_app in Habs. lia.
    + apply IH.
Qed.

Local Arguments canon_eq : simpl never.
Local Arguments in_class : simpl never.

Lemma dot_two_letters_width t :
  is_Some (match_at (Seq (Chr ".") (Seq (Group1 (Seq az az)) extension)) t None
                    (λ _ cap, Some cap)) →
  String.length t = 7%nat.
Proof.
  intros [cap H].
  destruct t as [|c1 [|c2 [|c3 [|c4 [|c5 [|c6 [|c7 [|c8 t]]]]]]]];
    try reflexivity; cbn in H; repeat case_match; congruence.
Qed.

Lemma dot_two_letters_match c d ext :
  is_letter c = true → is_letter d = true →
  toLowerCase ext ∈ subtitle_extensions →
  match_at (Seq (Chr ".") (Seq (Group1 (Seq az az)) extension))
           (String "." (String c (String d (String "." ext)))) None
           (λ _ cap, Some cap)
  = Some (Some (String c (String d ""))).
Proof.
  intros Hc Hd Hext.
  apply list_elem_of_In in Hext. simpl in Hext.
  destruct ext as [|e1 [|e2 [|e3 [|e4 ext]]]];
    try (by destruct Hext as [H|[H|[H|[H|[]]]]]).
  assert (∀ x e, lower_char e = x → is_lower x = true → canon_eq x e = true)
    as Hcanon by apply canon_eq_lower.
  assert (canon_eq "." "." = true) as Hdot by reflexivity.
  cbn. rewrite !in_class_az, Hc, Hd.
  destruct Hext as [H|[H|[H|[H|[]]]]]; injection H as H1 H2 H3;
    symmetry in H1, H2, H3;
    apply Hcanon in H1; try reflexivity;
    apply Hcanon in H2; try reflexivity;
    apply Hcanon in H3; try reflexivity;
    cbn; repeat case_match; congruence.
Qed.
End detection_lemmas.

(** C10. [extractLanguageFromFilename] answers [null] when none of its
    patterns matches the file name; and for a file name that ends in two
    two-letter codes and a subtitle extension, each after a dot, it answers
    the code next to the extension, in lower case. *)
Theorem extractLanguageFromFilename_null_and_last_suffix :
  (∀ filename : string,
     Forall (λ pattern, languageDetection.regex_match pattern filename = None)
            languageDetection.patterns →
     languageDetection.extractLanguageFromFilename filename = None)
  ∧ (∀ (stem : string) (a b c d : ascii) (ext : string),
       is_letter a = true → is_letter b = true →
       is_letter c = true → is_letter d = true →
       toLowerCase ext ∈ languageDetection.subtitle_extensions →
       languageDetection.extractLanguageFromFilename
         (stem +:+ String "." (String a (String b
                  (String "." (String c (String d (String "." ext)))))))
       = Some (toLowerCase (String c (String d "")))).
Proof.
  split.
  - intros filename Hnone. by apply firstMatch_none.
  - intros stem a b c d ext _ _ Hc Hd Hext.
    unfold languageDetection.extractLanguageFromFilename, languageDetection.patterns.
    cbn [languageDetection.firstMatch].
    replace (stem +:+ String "." (String a (String b
               (String "." (String c (String d (String "." ext)))))))
      with ((stem +:+ String "." (String a (String b "")))
              +:+ String "." (String c (String d (String "." ext)))).
    2:{ clear. induction stem as [|x stem IH]; [reflexivity|].
        change (String x stem +:+ ?t) with (String x (stem +:+ t)).
        by rewrite <- IH. }
    rewrite (regex_match_suffix _ 7 _ _ (Some (String c (String d "")))).
    + reflexivity.
    + apply dot_two_letters_width.
    + apply dot_two_letters_width. rewrite dot_two_letters_match by done. eauto.
    + by apply dot_two_letters_match.
Qed.

Lemma extractLanguageFromFilename_null_and_last_suffix_witness :
  languageDetection.extractLanguageFromFilename "show.srt" = None
  ∧ languageDetection.extractLanguageFromFilename "show.zh.hi.srt" = Some "hi".
Proof.
  split.
  - apply (proj1 extractLanguageFromFilename_null_and_last_suffix "show.srt").
    repeat constructor.
  - apply (proj2 extractLanguageFromFilename_null_and_last_suffix
             "show" "z"%char "h"%char "h"%char "i"%char "srt"); try reflexivity.
    vm_compute. set_solver.
Defined.

(** ** The availability analysis *)

Section analysis_lemmas.
Import api Spec.


Lemma ensureLang_lookup c c' (m : gmap string LangData) :
  ensureLang c m !! c' =
  if decide (c = c') then Some (default (newLangData c) (m !! c)) else m !! c'.
Proof.
  unfold ensureLang. destruct (m !! c) eqn:E; case_decide; simplify_map_eq; done.
Qed.

Lemma foldl_scanExternal eid info xs (m : gmap string LangData) (seen : gset string) c :
  let st := foldl (scanExternal eid info) (m, seen) xs in
  st.2 = seen ∪ list_to_set (codesOfExternal xs)
  ∧ st.1 !! c =
      if decide (c ∈ codesOfExternal xs)
      then Some ((if decide (c ∈ seen) then λ d, d else addEpisode true eid info)
                   (default (newLangData c) (m !! c)))
      else m !! c.
Proof.
  revert m seen. induction xs as [|x xs IH]; intros m seen; simpl.
  - split; [set_solver|done].
  - unfold scanExternal at 2 4. unfold codesOfExternal. simpl.
    destruct (truthy (is_dual_subtitle x)) eqn:Hdual; simpl.
    { apply IH. }
    set (cx := or_default (language_code x) "unknown").
    fold (codesOfExternal xs).
    destruct (decide (cx ∈ seen)) as [Hin|Hin]; cbn [fst snd].
    + destruct (IH (ensureLang cx m) seen) as [IH1 IH2].
      rewrite IH1, IH2. split; [set_solver|].
      rewrite ?ensureLang_lookup.
      repeat case_decide; simplify_eq/=; try done; try set_solver.
    + destruct (IH (alter (addEpisode true eid info) cx (ensureLang cx m))
                   ({[cx]} ∪ seen)) as [IH1 IH2].
      rewrite IH1, IH2. split; [set_solver|].
      rewrite ?lookup_alter, ?ensureLang_lookup.
      repeat case_decide; simplify_eq/=; try done; try set_solver.
Qed.

Lemma addEmbeddedId_idemp eid d :
  addEmbeddedId eid (addEmbeddedId eid d) = addEmbeddedId eid d.
Proof. unfold addEmbeddedId; simpl. f_equal. set_solver. Qed.

Lemma addEmbeddedId_addEpisode eid info d :
  addEmbeddedId eid (addEpisode false eid info d) = addEpisode false eid info d.
Proof. unfold addEmbeddedId, addEpisode; simpl. f_equal. set_solver. Qed.

Lemma foldl_scanEmbedded eid info ys (m : gmap string LangData) (seen : gset string) c :
  (foldl (scanEmbedded eid info) (m, seen) ys).1 !! c =
    if decide (c ∈ codesOfEmbedded ys)
    then Some ((if decide (c ∈ seen) then addEmbeddedId eid
                else addEpisode false eid info)
                 (default (newLangData c) (m !! c)))
    else m !! c.
Proof.
  revert m seen. induction ys as [|y ys IH]; intros m seen; simpl; [done|].
  unfold scanEmbedded at 2. unfold codesOfEmbedded. simpl.
  set (cy := or_default (languageCode y) "unknown").
  fold (codesOfEmbedded ys).
  destruct (decide (cy ∈ seen)) as [Hin|Hin]; cbn [fst snd];
    rewrite IH, ?lookup_alter, ?ensureLang_lookup;
    repeat case_decide; simplify_eq; cbn [fmap option_fmap option_map default];
    unfold Datatypes.id;
    rewrite ?addEmbeddedId_idemp, ?addEmbeddedId_addEpisode;
    try done; try set_solver.
Qed.


Lemma scanEpisode_lookup (m : gmap string LangData) entry c :
  scanEpisode m entry !! c = applyEpisode c entry (m !! c).
Proof.
  destruct entry as [episode [subtitles|]]; [|done].
  unfold scanEpisode, applyEpisode, hasLanguage, hasExternal, hasEmbedded, infoOf.
  cbn [fst snd default].
  pose proof (foldl_scanExternal (id episode) (episodeInfo episode subtitles)
                (opt_list (external_subtitles subtitles)) m ∅ c) as Hext.
  destruct (foldl (scanExternal _ _) _ _) as [m1 seen1].
  cbn [fst snd] in Hext. destruct Hext as [-> Hm1].
  rewrite foldl_scanEmbedded, Hm1.
  repeat case_bool_decide; repeat case_decide; cbn [orb];
    try done; try set_solver.
Qed.

Lemma foldl_scanEpisode_lookup listings (m : gmap string LangData) c :
  foldl scanEpisode m listings !! c
  = foldl (λ o entry, applyEpisode c entry o) (m !! c) listings.
Proof.
  revert m. induction listings as [|entry listings IH]; intros m; simpl; [done|].
  by rewrite IH, scanEpisode_lookup.
Qed.


Lemma grow_cons c entry listings d :
  hasLanguage c entry = true →
  grow c (entry :: listings) d
  = grow c listings (register (hasExternal c entry) (hasEmbedded c entry)
                              (id entry.1) (infoOf entry) d).
Proof.
  intros Hlang. unfold grow, register, episodesWhere. simpl. rewrite Hlang.
  f_equal.
  - by rewrite <- app_assoc.
  - set_solver.
  - destruct (hasExternal c entry); set_solver.
  - destruct (hasEmbedded c entry); set_solver.
Qed.

Lemma grow_cons_skip c entry listings d :
  hasLanguage c entry = false →
  grow c (entry :: listings) d = grow c listings d.
Proof.
  intros Hlang. unfold grow, episodesWhere. simpl. rewrite Hlang.
  unfold hasLanguage in Hlang. apply orb_false_elim in Hlang as [-> ->]. done.
Qed.

Lemma filter_nil_false {A} (P : A → bool) (l : list A) :
  List.filter P l = [] ↔ ∀ x, x ∈ l → P x = false.
Proof.
  induction l as [|a l IH]; simpl.
  - split; [|done]. by intros _ x ?%elem_of_nil.
  - destruct (P a) eqn:Ha.
    + split; [done|]. intros H. specialize (H a (list_elem_of_here _ _)). congruence.
    + rewrite IH. split.
      * intros H x [->|?]%elem_of_cons; auto.
      * intros H x ?. apply H. by right.
Qed.

Lemma grow_nil c listings d :
  List.filter (hasLanguage c) listings = [] → grow c listings d = d.
Proof.
  intros Hnone. unfold grow, episodesWhere. rewrite Hnone.
  assert (List.filter (hasExternal c) listings = []) as ->.
  { apply filter_nil_false. intros x Hx.
    apply (proj1 (filter_nil_false _ _) Hnone) in Hx.
    unfold hasLanguage in Hx. by apply orb_false_elim in Hx as []. }
  assert (List.filter (hasEmbedded c) listings = []) as ->.
  { apply filter_nil_false. intros x Hx.
    apply (proj1 (filter_nil_false _ _) Hnone) in Hx.
    unfold hasLanguage in Hx. by apply orb_false_elim in Hx as []. }
  destruct d; simpl. f_equal; [by rewrite app_nil_r|set_solver..].
Qed.

Lemma foldl_applyEpisode c listings o :
  foldl (λ o entry, applyEpisode c entry o) o listings
  = if decide (List.filter (hasLanguage c) listings = []) then o
    else Some (grow c listings (default (newLangData c) o)).
Proof.
  revert o. induction listings as [|entry listings IH]; intros o; simpl; [done|].
  rewrite IH. unfold applyEpisode.
  destruct (hasLanguage c entry) eqn:Hlang; [|by rewrite grow_cons_skip].
  destruct (decide (entry :: _ = [])) as [Habs|_]; [discriminate Habs|].
  cbn [default]. rewrite grow_cons by done.
  case_decide as Hrest; [|done]. by rewrite grow_nil.
Qed.

(** The availability of language [c] in the analysis, in closed form. *)
Lemma getSubtitleAnalysis_lookup listings c :
  language_availability (getSubtitleAnalysis listings) !! c
  = if decide (List.filter (hasLanguage c) listings = []) then None
    else Some {| name := getLanguageName c;
                 episodes_available := countEpisodes (hasLanguage c) listings;
                 episodes_with_external := countEpisodes (hasExternal c) listings;
                 episodes_with_embedded := countEpisodes (hasEmbedded c) listings;
                 episode_details := infoOf <$> List.filter (hasLanguage c) listings |}.
Proof.
  unfold getSubtitleAnalysis. cbn [language_availability].
  rewrite lookup_fmap, foldl_scanEpisode_lookup, foldl_applyEpisode, lookup_empty.
  case_decide; [done|]. cbn [fmap option_fmap option_map default].
  unfold finishLang, grow, countEpisodes. simpl.
  by rewrite !union_empty_l_L.
Qed.

Lemma getSubtitleAnalysis_Some listings c la :
  language_availability (getSubtitleAnalysis listings) !! c = Some la →
  la = {| name := getLanguageName c;
          episodes_available := countEpisodes (hasLanguage c) listings;
          episodes_with_external := countEpisodes (hasExternal c) listings;
          episodes_with_embedded := countEpisodes (hasEmbedded c) listings;
          episode_details := infoOf <$> List.filter (hasLanguage c) listings |}.
Proof. rewrite getSubtitleAnalysis_lookup. case_decide; congruence. Qed.

Lemma elem_of_filter_bool {A} (P : A → bool) (l : list A) x :
  x ∈ List.filter P l ↔ x ∈ l ∧ P x = true.
Proof. by rewrite !list_elem_of_In, List.filter_In. Qed.

Lemma filter_fmap_bool {A B} (f : A → B) (P : B → bool) (l : list A) :
  List.filter P (f <$> l) = f <$> List.filter (λ x, P (f x)) l.
Proof.
  induction l as [|a l IH]; [done|].
  cbn [fmap list_fmap List.filter]. fold (fmap f l). rewrite IH.
  by destruct (P (f a)).
Qed.

Lemma filter_ext_bool {A} (P Q : A → bool) (l : list A) :
  (∀ x, P x = Q x) → List.filter P l = List.filter Q l.
Proof. intros H. apply List.filter_ext. exact H. Qed.

Lemma codesOfExternal_dropDual xs :
  codesOfExternal (List.filter (λ sub, negb (truthy (is_dual_subtitle sub))) xs)
  = codesOfExternal xs.
Proof.
  unfold codesOfExternal. f_equal.
  induction xs as [|x xs IH]; simpl; [done|].
  destruct (negb (truthy (is_dual_subtitle x))) eqn:E; simpl; rewrite ?E, IH; done.
Qed.

Lemma hasExternal_dropDual c entry : hasExternal c (dropDual entry) = hasExternal c entry.
Proof.
  destruct entry as [episode [[emb [ext|]]|]]; try done.
  unfold hasExternal, dropDual; simpl. by rewrite codesOfExternal_dropDual.
Qed.

Lemma hasEmbedded_dropDual c entry : hasEmbedded c (dropDual entry) = hasEmbedded c entry.
Proof. by destruct entry as [episode [[emb ext]|]]. Qed.

Lemma episodesWhere_dropDual (P : Listing → bool) listings :
  (∀ entry, P (dropDual entry) = P entry) →
  episodesWhere P (dropDual <$> listings) = episodesWhere P listings.
Proof.
  intros HP. unfold episodesWhere. rewrite filter_fmap_bool.
  rewrite (filter_ext_bool _ P) by done.
  by rewrite <- list_fmap_compose.
Qed.
End analysis_lemmas.

Section object_lemmas.
Import api.

(** A read of the object yields a record exactly for the codes of the map. *)
Lemma readProperty_language analysis key la :
  readProperty analysis key = language la
  ↔ language_availability analysis !! key = Some la.
Proof.
  unfold readProperty. destruct (language_availability analysis !! key) as [la'|].
  - split; congruence.
  - split; [|done]. destruct (_ ≫= _); [done|]. by case_bool_decide.
Qed.

Lemma readProperty_record {A} (f : LanguageAvailability → A) analysis key :
  match readProperty analysis key with
  | language la => Some (f la)
  | _ => None
  end = f <$> language_availability analysis !! key.
Proof.
  unfold readProperty. destruct (language_availability analysis !! key) as [la'|]; [done|].
  destruct (_ ≫= _); [done|]. by case_bool_decide.
Qed.

Lemma readProperty_falsy analysis key :
  truthyProperty (readProperty analysis key) = false →
  language_availability analysis !! key = None.
Proof.
  unfold readProperty. by destruct (language_availability analysis !! key).
Qed.
(** Every record of an analysis holds at least one episode. *)
Lemma details_nonempty listings c la :
  language_availability (getSubtitleAnalysis listings) !! c = Some la →
  episode_details la ≠ [].
Proof.
  rewrite getSubtitleAnalysis_lookup. case_decide as Hnil; [done|].
  intros [= <-]. cbn [episode_details]. by intros ?%fmap_nil_inv.
Qed.
End object_lemmas.

(** C4. In the analysis of any list of listings and for any language code
    [c], for the record that is read from the returned object under [c]:
    [episodes_available] is the number of distinct episodes that have a
    file of code [c] not flagged as a dual output or an embedded stream of
    code [c], and the two source counts are the numbers of distinct episodes
    with such a file and with such a stream; there is a record under [c]
    exactly when some episode has such a file or stream, and it is one of
    the object's own properties, which [Object.entries] lists, unless [c]
    is "__proto__"; an episode that has such a file has an entry in
    [episode_details], which lists all its embedded streams, each with its
    index, its code ("unknown" for a stream without one) and its display
    name; the counts are the same when the files flagged as dual outputs
    are removed from the listings; and an episode with a track that has no
    code (absent or empty) is entered under "unknown". *)
Theorem getSubtitleAnalysis_counts (listings : list Spec.Listing) (c : string) :
  let read l := api.readProperty (api.getSubtitleAnalysis l) in
  let countsAt l :=
    match read l c with
    | api.language la => Some (Spec.counts la)
    | _ => None
    end in
  (∀ la, read listings c = api.language la →
     episodes_available la = Spec.countEpisodes (Spec.hasLanguage c) listings
     ∧ episodes_with_external la = Spec.countEpisodes (Spec.hasExternal c) listings
     ∧ episodes_with_embedded la = Spec.countEpisodes (Spec.hasEmbedded c) listings
     ∧ episode_id <$> episode_details la
       = (λ entry : Spec.Listing, id entry.1)
           <$> List.filter (Spec.hasLanguage c) listings)
  ∧ ((∃ la, read listings c = api.language la)
     ↔ ∃ entry, entry ∈ listings ∧ Spec.hasLanguage c entry = true)
  ∧ (is_Some (api.ownProperties (api.getSubtitleAnalysis listings) !! c)
     ↔ c ≠ "__proto__" ∧ ∃ entry, entry ∈ listings ∧ Spec.hasLanguage c entry = true)
  ∧ (∀ entry subtitles la,
       entry ∈ listings → entry.2 = Some subtitles →
       Spec.hasExternal c entry = true →
       read listings c = api.language la →
       ∃ info,
         info ∈ episode_details la
         ∧ episode_id info = id entry.1
         ∧ (λ st, (es_stream_index st, es_language_code st, es_display_name st))
             <$> embedded_streams info
           = (λ sub, (stream_index sub,
                      match languageCode sub with
                      | Some code => if decide (code = "") then "unknown" else code
                      | None => "unknown"
                      end,
                      display_name sub))
               <$> opt_list (embedded_subtitles subtitles))
  ∧ countsAt (Spec.dropDual <$> listings) = countsAt listings
  ∧ (∀ entry subtitles,
       entry ∈ listings → entry.2 = Some subtitles →
       (∃ sub, sub ∈ opt_list (external_subtitles subtitles)
               ∧ truthy (is_dual_subtitle sub) = false
               ∧ (language_code sub = None ∨ language_code sub = Some ""))
       ∨ (∃ sub, sub ∈ opt_list (embedded_subtitles subtitles)
                 ∧ (languageCode sub = None ∨ languageCode sub = Some "")) →
       ∃ la, read listings "unknown" = api.language la
             ∧ id entry.1 ∈ episode_id <$> episode_details la).
Proof.
  intros read countsAt. unfold countsAt, read.
  assert ((∃ la, api.readProperty (api.getSubtitleAnalysis listings) c = api.language la)
          ↔ ∃ entry, entry ∈ listings ∧ Spec.hasLanguage c entry = true) as Hread.
  { split.
    + intros [la Hla%readProperty_language]. revert Hla.
      rewrite getSubtitleAnalysis_lookup. case_decide as Hnil; [done|]. intros _.
      destruct (List.filter _ _) as [|entry rest] eqn:E; [done|].
      exists entry. apply elem_of_filter_bool. rewrite E. left.
    + intros (entry & Hin & Hlang).
      pose proof (getSubtitleAnalysis_lookup listings c) as Hlookup.
      case_decide as Hnil.
      * apply (proj1 (filter_nil_false _ _) Hnil) in Hin. congruence.
      * eexists. apply readProperty_language. exact Hlookup. }
  split; [|split; [exact Hread|split; [|split; [|split]]]].
  - intros la ->%readProperty_language%getSubtitleAnalysis_Some.
    split; [done|]. split; [done|]. split; [done|].
    cbn [episode_details]. rewrite <- list_fmap_compose. by apply list_fmap_ext.
  - rewrite <- Hread. unfold api.ownProperties. split.
    + intros [la [Hne Hla]%lookup_delete_Some]. split; [done|].
      exists la. by apply readProperty_language.
    + intros [Hne [la Hla%readProperty_language]]. exists la.
      by apply lookup_delete_Some.
  - intros entry subtitles la Hin Hsub Hext ->%readProperty_language%getSubtitleAnalysis_Some.
    exists (Spec.infoOf entry). split; [|split].
    + simpl. apply list_elem_of_fmap. exists entry. split; [done|].
      apply elem_of_filter_bool. split; [done|].
      unfold Spec.hasLanguage. by rewrite Hext.
    + done.
    + unfold Spec.infoOf. rewrite Hsub. cbn [default api.episodeInfo embedded_streams].
      rewrite <- list_fmap_compose. apply list_fmap_ext. intros _ sub _.
      cbn [compose api.embeddedStream es_stream_index es_language_code es_display_name].
      unfold or_default. by destruct (languageCode sub).
  - rewrite !readProperty_record, !getSubtitleAnalysis_lookup.
    assert (∀ P : Spec.Listing → bool, (∀ e, P (Spec.dropDual e) = P e) →
              List.filter P (Spec.dropDual <$> listings) = [] ↔ List.filter P listings = [])
      as Hnil.
    { intros P HP. rewrite filter_fmap_bool, (filter_ext_bool _ P) by done.
      split; [apply fmap_nil_inv | by intros ->]. }
    assert (∀ e, Spec.hasLanguage c (Spec.dropDual e) = Spec.hasLanguage c e) as Hlang.
    { intros e. unfold Spec.hasLanguage.
      by rewrite hasExternal_dropDual, hasEmbedded_dropDual. }
    specialize (Hnil _ Hlang).
    destruct (decide (List.filter _ (Spec.dropDual <$> listings) = [])) as [H1|H1];
      destruct (decide (List.filter _ listings = [])) as [H2|H2].
    + reflexivity.
    + exfalso. apply H2, Hnil, H1.
    + exfalso. apply H1, Hnil, H2.
    + cbn [fmap option_fmap option_map]. f_equal.
      unfold Spec.counts, Spec.countEpisodes. cbn [episodes_available
        episodes_with_external episodes_with_embedded].
      rewrite !episodesWhere_dropDual;
        auto using hasExternal_dropDual, hasEmbedded_dropDual.
  - intros entry subtitles Hin Hsub Htrack.
    assert (Spec.hasLanguage "unknown" entry = true) as Hlang.
    { unfold Spec.hasLanguage, Spec.hasExternal, Spec.hasEmbedded. rewrite Hsub.
      apply orb_true_iff.
      destruct Htrack as [(sub & Hs & Hdual & Hcode)|(sub & Hs & Hcode)]; [left|right];
        apply bool_decide_eq_true, list_elem_of_fmap; exists sub;
        (split; [by destruct Hcode as [-> | ->]|]); [|done].
      apply elem_of_filter_bool. by rewrite Hdual. }
    pose proof (getSubtitleAnalysis_lookup listings "unknown") as Hlookup.
    case_decide as Hnil.
    { apply (proj1 (filter_nil_false _ _) Hnil) in Hin. congruence. }
    eexists; split; [apply readProperty_language; exact Hlookup|].
    cbn [episode_details]. rewrite <- list_fmap_compose.
    apply list_elem_of_fmap. exists entry. split; [done|].
    by apply elem_of_filter_bool.
Qed.

Lemma getSubtitleAnalysis_counts_witness :
  ∃ la, api.readProperty (api.getSubtitleAnalysis Scenario.listings) "ja" = api.language la
        ∧ episodes_available la = 22
        ∧ episodes_with_external la = 18
        ∧ episodes_with_embedded la = 4.
Proof.
  eexists. split; [vm_compute; reflexivity|].
  match goal with
  | |- episodes_available ?la = _ ∧ _ =>
      assert (api.readProperty (api.getSubtitleAnalysis Scenario.listings) "ja"
              = api.language la) as Hla by (vm_compute; reflexivity);
      destruct (proj1 (getSubtitleAnalysis_counts Scenario.listings "ja") la Hla)
        as (H1 & H2 & H3 & _)
  end.
  rewrite H1, H2, H3. clear. vm_compute. repeat split; reflexivity.
Defined.

(** ** The statistics of the preview step *)

Section selector_lemmas.
Import api Spec EpisodePreviewStep.

Local Abbreviation ids := (fmap (M:=list) (λ entry : Listing, id entry.1)).

Lemma details_ids listings c la :
  language_availability (getSubtitleAnalysis listings) !! c = Some la →
  episode_id <$> episode_details la = ids (List.filter (hasLanguage c) listings).
Proof.
  intros ->%getSubtitleAnalysis_Some. simpl.
  rewrite <- list_fmap_compose. by apply list_fmap_ext.
Qed.

Lemma NoDup_fmap_filter {A B} (f : A → B) (P : A → bool) (l : list A) :
  NoDup (f <$> l) → NoDup (f <$> List.filter P l).
Proof.
  induction l as [|a l IH]; simpl; [done|].
  intros [Ha Hl]%NoDup_cons. destruct (P a); simpl; [|by auto].
  apply NoDup_cons. split; [|by auto].
  intros (x & Hfx & Hx)%list_elem_of_fmap. apply Ha.
  apply list_elem_of_fmap. exists x. split; [done|].
  by apply elem_of_filter_bool in Hx as [].
Qed.

Lemma NoDup_fmap_elem_inj {A B} (f : A → B) (l : list A) x y :
  NoDup (f <$> l) → x ∈ l → y ∈ l → f x = f y → x = y.
Proof.
  induction l as [|a l IH]; simpl; [by intros _ ?%elem_of_nil|].
  intros [Ha Hl]%NoDup_cons [->|Hx]%elem_of_cons [->|Hy]%elem_of_cons Hf; auto.
  - exfalso. apply Ha. rewrite Hf. by apply list_elem_of_fmap_2.
  - exfalso. apply Ha. rewrite <- Hf. by apply list_elem_of_fmap_2.
Qed.

Lemma details_NoDup listings c la :
  NoDup (ids listings) →
  language_availability (getSubtitleAnalysis listings) !! c = Some la →
  NoDup (episode_id <$> episode_details la).
Proof.
  intros Hnd Hla. rewrite (details_ids _ _ _ Hla). by apply NoDup_fmap_filter.
Qed.

Lemma available_length listings c la :
  NoDup (ids listings) →
  language_availability (getSubtitleAnalysis listings) !! c = Some la →
  episodes_available la = Z.of_nat (length (episode_details la)).
Proof.
  intros Hnd Hla. pose proof (details_NoDup _ _ _ Hnd Hla) as Hnd'.
  rewrite (details_ids _ _ _ Hla) in Hnd'.
  apply getSubtitleAnalysis_Some in Hla as ->. simpl.
  unfold countEpisodes, episodesWhere.
  rewrite size_list_to_set by done. by rewrite !length_fmap.
Qed.
End selector_lemmas.
Section selector_lemmas2.
Import api Spec EpisodePreviewStep.

Local Abbreviation ids := (fmap (M:=list) (λ entry : Listing, id entry.1)).
Local Abbreviation known ys :=
  (λ ep, existsb (λ other, bool_decide (episode_id other = episode_id ep)) ys).

Lemma known_elem_of ys ep :
  known ys ep = true ↔ episode_id ep ∈ episode_id <$> ys.
Proof.
  rewrite existsb_exists, list_elem_of_fmap. split.
  - intros (o & Hin & Heq%bool_decide_eq_true). exists o.
    by rewrite list_elem_of_In.
  - intros (o & Heq & Hin). exists o. rewrite bool_decide_eq_true.
    by rewrite <- list_elem_of_In.
Qed.

Lemma length_filter_split {A} (P : A → bool) (l : list A) :
  length l = (length (List.filter P l) + length (List.filter (λ x, negb (P x)) l))%nat.
Proof.
  induction l as [|a l IH]; simpl; [done|]. destruct (P a); simpl; lia.
Qed.

(** With distinct ids on both sides, as many episodes of [xs] occur in [ys]
    as episodes of [ys] occur in [xs]. *)
Lemma length_common xs ys :
  NoDup (episode_id <$> xs) → NoDup (episode_id <$> ys) →
  length (List.filter (known ys) xs) = length (List.filter (known xs) ys).
Proof.
  intros Hx Hy.
  rewrite <- (length_fmap episode_id (List.filter (known ys) xs)).
  rewrite <- (length_fmap episode_id (List.filter (known xs) ys)).
  apply Permutation_length, NoDup_Permutation.
  - by apply NoDup_fmap_filter.
  - by apply NoDup_fmap_filter.
  - intros x. rewrite !list_elem_of_fmap. split.
    + intros (e & -> & [He Hk]%elem_of_filter_bool).
      apply known_elem_of, list_elem_of_fmap in Hk as (o & Heq & Ho).
      exists o. split; [done|]. apply elem_of_filter_bool. split; [done|].
      apply known_elem_of. rewrite <- Heq. by apply list_elem_of_fmap_2.
    + intros (e & -> & [He Hk]%elem_of_filter_bool).
      apply known_elem_of, list_elem_of_fmap in Hk as (o & Heq & Ho).
      exists o. split; [done|]. apply elem_of_filter_bool. split; [done|].
      apply known_elem_of. rewrite <- Heq. by apply list_elem_of_fmap_2.
Qed.
End selector_lemmas2.

(** C3 (as amended). For the analysis of listings with distinct episode ids
    and two chosen languages: when both occur in the analysis,
    [needsAttention] is the larger of the two [episodes_available] minus the
    number of episodes available in both, which is the larger of the number
    of primary-only and the number of secondary-only episodes; it is the
    number of episodes with exactly one of the two languages if and only if
    one of these two numbers is zero. When what is read from the analysis
    for one of the languages is falsy, which is the case of a code that is
    neither a language of the analysis nor the name of a property that the
    object inherits, the guard gives 0 for [needsAttention]. *)
Theorem needsAttention_is_larger_one_sided_count
    (listings : list Spec.Listing) (primaryLanguage secondaryLanguage : string) :
  NoDup ((λ entry : Spec.Listing, id entry.1) <$> listings) →
  let analysis := api.getSubtitleAnalysis listings in
  let st := EpisodePreviewStep.stats analysis primaryLanguage secondaryLanguage in
  (∀ primaryAvail secondaryAvail,
     language_availability analysis !! primaryLanguage = Some primaryAvail →
     language_availability analysis !! secondaryLanguage = Some secondaryAvail →
     let onlyPrimary :=
       Z.of_nat (length (Spec.onlyIn (episode_details primaryAvail)
                                     (episode_details secondaryAvail))) in
     let onlySecondary :=
       Z.of_nat (length (Spec.onlyIn (episode_details secondaryAvail)
                                     (episode_details primaryAvail))) in
     EpisodePreviewStep.needsAttention st
     = Z.max (episodes_available primaryAvail) (episodes_available secondaryAvail)
       - Z.of_nat (length (api.episodesWithBoth primaryAvail secondaryAvail))
     ∧ EpisodePreviewStep.needsAttention st = Z.max onlyPrimary onlySecondary
     ∧ Spec.exactlyOneLanguage analysis primaryLanguage secondaryLanguage
       = onlyPrimary + onlySecondary
     ∧ (EpisodePreviewStep.needsAttention st
        = Spec.exactlyOneLanguage analysis primaryLanguage secondaryLanguage
        ↔ onlyPrimary = 0 ∨ onlySecondary = 0))
  ∧ (api.truthyProperty (api.readProperty analysis primaryLanguage) = false
     ∨ api.truthyProperty (api.readProperty analysis secondaryLanguage) = false →
     EpisodePreviewStep.needsAttention st = 0)
  ∧ (primaryLanguage ∉ Object_prototype_names →
     secondaryLanguage ∉ Object_prototype_names →
     language_availability analysis !! "__proto__" = None →
     language_availability analysis !! primaryLanguage = None
     ∨ language_availability analysis !! secondaryLanguage = None →
     api.truthyProperty (api.readProperty analysis primaryLanguage) = false
     ∨ api.truthyProperty (api.readProperty analysis secondaryLanguage) = false).
Proof.
  intros Hnd analysis st. split.
  - intros pa sa Hpa Hsa onlyP onlyS.
    assert (EpisodePreviewStep.needsAttention st
            = Z.max (episodes_available pa) (episodes_available sa)
              - Z.of_nat (length (api.episodesWithBoth pa sa))) as Hformula.
    { unfold st, EpisodePreviewStep.stats. by rewrite Hpa, Hsa. }
    assert (Spec.exactlyOneLanguage analysis primaryLanguage secondaryLanguage
            = onlyP + onlyS) as Hexact.
    { unfold Spec.exactlyOneLanguage, Spec.detailsOf. by rewrite Hpa, Hsa. }
    rewrite Hexact, Hformula.
    rewrite (available_length _ _ _ Hnd Hpa), (available_length _ _ _ Hnd Hsa).
    pose proof (length_filter_split
                  (λ ep, existsb (λ other, bool_decide (episode_id other = episode_id ep))
                                 (episode_details sa))
                  (episode_details pa)) as Hp.
    pose proof (length_filter_split
                  (λ ep, existsb (λ other, bool_decide (episode_id other = episode_id ep))
                                 (episode_details pa))
                  (episode_details sa)) as Hs.
    pose proof (length_common (episode_details pa) (episode_details sa)
                  (details_NoDup _ _ _ Hnd Hpa) (details_NoDup _ _ _ Hnd Hsa)) as Hc.
    unfold api.episodesWithBoth. unfold onlyP, onlyS, Spec.onlyIn.
    cbv beta in Hp, Hs.
    split; [reflexivity|]. split; [lia|]. split; lia.
  - split.
    + intros Hnone. unfold st, EpisodePreviewStep.stats.
      destruct Hnone as [->%readProperty_falsy | ->%readProperty_falsy]; [done|].
      by destruct (_ !! primaryLanguage).
    + intros Hp Hs Hproto Hnone. unfold api.readProperty. rewrite Hproto.
      cbn [mbind option_bind].
      rewrite !bool_decide_eq_false_2 by done.
      destruct Hnone as [-> | ->]; [by left | by right].
Qed.

Lemma needsAttention_is_larger_one_sided_count_witness :
  (EpisodePreviewStep.needsAttention
     (EpisodePreviewStep.stats (api.getSubtitleAnalysis Scenario.listings) "en" "ja") = 2
   ∧ Spec.exactlyOneLanguage (api.getSubtitleAnalysis Scenario.listings) "en" "ja" = 2)
  ∧ EpisodePreviewStep.needsAttention
      (EpisodePreviewStep.stats (api.getSubtitleAnalysis Scenario.listings) "en" "nl") = 0.
Proof.
  assert (NoDup ((λ entry : Spec.Listing, id entry.1) <$> Scenario.listings)) as Hnd
    by (vm_compute; repeat (constructor; [by vm_compute; set_solver|]); constructor).
  split; cycle 1.
  { destruct (needsAttention_is_larger_one_sided_count Scenario.listings "en" "nl" Hnd)
      as (_ & Hzero & Hfalsy).
    apply Hzero, Hfalsy.
    - apply (bool_decide_unpack _). vm_compute. exact I.
    - apply (bool_decide_unpack _). vm_compute. exact I.
    - vm_compute. reflexivity.
    - right. vm_compute. reflexivity. }
  assert (∃ pa, language_availability (api.getSubtitleAnalysis Scenario.listings) !! "en"
                = Some pa) as [pa Hpa] by (eexists; vm_compute; reflexivity).
  assert (∃ sa, language_availability (api.getSubtitleAnalysis Scenario.listings) !! "ja"
                = Some sa) as [sa Hsa] by (eexists; vm_compute; reflexivity).
  destruct (proj1 (needsAttention_is_larger_one_sided_count Scenario.listings "en" "ja" Hnd)
              pa sa Hpa Hsa) as (H1 & _ & _ & H4).
  split; [clear; vm_compute; reflexivity|].
  rewrite <- (proj2 H4); [clear; vm_compute; reflexivity|].
  right. clear -Hpa Hsa. vm_compute in Hpa, Hsa.
  injection Hpa as <-. injection Hsa as <-. vm_compute. reflexivity.
Defined.

(** C3, as stated, fails: with one English-only and one Japanese-only
    episode, [needsAttention] is 1 although two episodes have exactly one of
    the two languages. *)
Lemma needsAttention_not_exactly_one :
  let analysis := api.getSubtitleAnalysis Disjoint.listings in
  EpisodePreviewStep.needsAttention (EpisodePreviewStep.stats analysis "en" "ja") = 1
  ∧ Spec.exactlyOneLanguage analysis "en" "ja" = 2
  ∧ EpisodePreviewStep.needsAttention (EpisodePreviewStep.stats analysis "en" "ja")
    ≠ Spec.exactlyOneLanguage analysis "en" "ja".
Proof. vm_compute. repeat split; discriminate. Qed.

Section scenario_lemmas.
Import api Spec EpisodePreviewStep.

Local Abbreviation ids := (fmap (M:=list) (λ entry : Listing, id entry.1)).
Local Abbreviation known ys :=
  (λ ep, existsb (λ other, bool_decide (episode_id other = episode_id ep)) ys).

Lemma filter_filter_bool {A} (P Q : A → bool) (l : list A) :
  List.filter P (List.filter Q l) = List.filter (λ x, Q x && P x) l.
Proof.
  induction l as [|a l IH]; simpl; [done|].
  destruct (Q a); simpl; [destruct (P a)|]; by rewrite IH.
Qed.

Lemma filter_ext_in_bool {A} (P Q : A → bool) (l : list A) :
  (∀ x, x ∈ l → P x = Q x) → List.filter P l = List.filter Q l.
Proof.
  intros H. apply List.filter_ext_in. intros x Hx. apply H. by apply list_elem_of_In.
Qed.

Lemma filter_all {A} (P : A → bool) (l : list A) :
  Forall (λ x, P x = true) l → List.filter P l = l.
Proof. induction 1 as [|a l Ha _ IH]; simpl; [done|]. by rewrite Ha, IH. Qed.

(** With distinct ids, an episode of the listings is known, by id, among the
    entries of a language exactly when it has the language. *)
Lemma known_infoOf (P : Listing → bool) listings entry :
  NoDup (ids listings) → entry ∈ listings →
  known (infoOf <$> List.filter P listings) (infoOf entry) = P entry.
Proof.
  intros Hnd Hin. apply eq_true_iff_eq. rewrite known_elem_of.
  rewrite <- list_fmap_compose. split.
  - intros (e & Hid & [He HP]%elem_of_filter_bool)%list_elem_of_fmap.
    by rewrite (NoDup_fmap_elem_inj _ _ entry e Hnd Hin He Hid).
  - intros HP. apply list_elem_of_fmap. exists entry. split; [done|].
    by apply elem_of_filter_bool.
Qed.

(** The statistics of a show in which the primary language is available in
    every episode. *)
Lemma stats_primary_everywhere listings primaryLanguage secondaryLanguage :
  NoDup (ids listings) →
  Forall (λ entry, hasLanguage primaryLanguage entry = true) listings →
  let hasSecondary := List.filter (hasLanguage secondaryLanguage) listings in
  let covered :=
    List.filter
      (λ entry, hasLanguage secondaryLanguage entry
                && episodeHasDualSubtitle (infoOf entry) primaryLanguage secondaryLanguage)
      listings in
  hasSecondary ≠ [] →
  stats (getSubtitleAnalysis listings) primaryLanguage secondaryLanguage
  = {| ready := Z.of_nat (length hasSecondary) - Z.of_nat (length covered);
       needsAttention := Z.of_nat (length listings) - Z.of_nat (length hasSecondary);
       willSkip := 0;
       alreadyExists := Z.of_nat (length covered) |}.
Proof.
  intros Hnd Hall hasSecondary covered Hsome.
  assert (List.filter (hasLanguage primaryLanguage) listings = listings) as Hp
    by (by apply filter_all).
  assert (listings ≠ []) as Hne by (intros ->; by apply Hsome).
  pose proof (getSubtitleAnalysis_lookup listings primaryLanguage) as Hpa.
  pose proof (getSubtitleAnalysis_lookup listings secondaryLanguage) as Hsa.
  rewrite Hp in Hpa. rewrite decide_False in Hpa by done.
  rewrite decide_False in Hsa by done.
  pose proof (available_length _ _ _ Hnd Hpa) as Hpn.
  pose proof (available_length _ _ _ Hnd Hsa) as Hsn.
  cbn [episode_details episodes_available] in Hpn, Hsn.
  rewrite !length_fmap in Hpn, Hsn.
  set (pa := {| name := getLanguageName primaryLanguage |}) in *.
  set (sa := {| name := getLanguageName secondaryLanguage |}) in *.
  assert (episodesWithBoth pa sa = infoOf <$> hasSecondary) as Hboth.
  { unfold episodesWithBoth, pa, sa. cbn [episode_details].
    rewrite filter_fmap_bool. f_equal.
    apply filter_ext_in_bool. intros entry Hin. by apply known_infoOf. }
  assert (List.filter
            (λ ep, episodeHasDualSubtitle ep primaryLanguage secondaryLanguage)
            (infoOf <$> hasSecondary) = infoOf <$> covered) as Hcov.
  { rewrite filter_fmap_bool. unfold hasSecondary, covered.
    by rewrite filter_filter_bool. }
  assert (length hasSecondary ≤ length listings)%nat as Hle.
  { unfold hasSecondary. clear. induction listings as [|a l IH]; simpl; [done|].
    destruct (hasLanguage secondaryLanguage a); simpl; lia. }
  unfold stats. rewrite Hpa, Hsa. cbv zeta. rewrite Hboth, Hcov, !length_fmap.
  unfold pa, sa. cbn [episodes_available total_episodes getSubtitleAnalysis].
  rewrite Hpn, Hsn. fold hasSecondary. f_equal; lia.
Qed.
End scenario_lemmas.

(** C8. For a show of 24 episodes with distinct ids in which English is
    available in all 24 episodes, Japanese in 22 of them, and 2 of these 22
    have a dual file for English and Japanese, the preview step computes 20
    ready, 2 already existing, 2 needing attention and none to skip. *)
Theorem scenario_stats (listings : list Spec.Listing) :
  NoDup ((λ entry : Spec.Listing, id entry.1) <$> listings) →
  length listings = 24%nat →
  Forall (λ entry, Spec.hasLanguage "en" entry = true) listings →
  length (List.filter (Spec.hasLanguage "ja") listings) = 22%nat →
  length (List.filter
            (λ entry, Spec.hasLanguage "ja" entry
                      && api.episodeHasDualSubtitle (Spec.infoOf entry) "en" "ja")
            listings) = 2%nat →
  EpisodePreviewStep.stats (api.getSubtitleAnalysis listings) "en" "ja"
  = {| EpisodePreviewStep.ready := 20;
       EpisodePreviewStep.needsAttention := 2;
       EpisodePreviewStep.willSkip := 0;
       EpisodePreviewStep.alreadyExists := 2 |}.
Proof.
  intros Hnd Htotal Hen Hja Hdual.
  rewrite stats_primary_everywhere; [|done|done|].
  - by rewrite Htotal, Hja, Hdual.
  - intros Hnil. by rewrite Hnil in Hja.
Qed.

Lemma scenario_stats_witness :
  let analysis := api.getSubtitleAnalysis Scenario.listings in
  total_episodes analysis = 24
  ∧ Spec.counts <$> language_availability analysis !! "en" = Some (24, 20, 4)
  ∧ Spec.counts <$> language_availability analysis !! "ja" = Some (22, 18, 4)
  ∧ EpisodePreviewStep.stats analysis "en" "ja"
    = {| EpisodePreviewStep.ready := 20;
         EpisodePreviewStep.needsAttention := 2;
         EpisodePreviewStep.willSkip := 0;
         EpisodePreviewStep.alreadyExists := 2 |}.
Proof.
  split; [vm_compute; reflexivity|].
  split; [vm_compute; reflexivity|].
  split; [vm_compute; reflexivity|].
  apply (scenario_stats Scenario.listings).
  - apply (bool_decide_unpack _). vm_compute. exact I.
  - vm_compute. reflexivity.
  - apply (bool_decide_unpack _). vm_compute. exact I.
  - vm_compute. reflexivity.
  - vm_compute. reflexivity.
Defined.

(** ** The bulk run *)

Section run_lemmas.
Import api RunSpec.
Context (w : World) (primaryLanguage secondaryLanguage : string)
        (stylingConfig : DualSubtitleConfig).

Local Abbreviation tryEpisode := (tryEpisode w primaryLanguage secondaryLanguage stylingConfig).
Local Abbreviation iteration := (iteration w primaryLanguage secondaryLanguage stylingConfig).
Local Abbreviation loop := (loop w primaryLanguage secondaryLanguage stylingConfig).
Local Abbreviation taskOutcome :=
  (taskOutcome w primaryLanguage secondaryLanguage stylingConfig).
Local Abbreviation taskOutcomes :=
  (taskOutcomes w primaryLanguage secondaryLanguage stylingConfig).
Local Abbreviation reports :=
  (reports w primaryLanguage secondaryLanguage stylingConfig).


Lemma tryEpisode_outcome i episode st :
  tryEpisode i episode st = record (taskOutcome i episode) st.
Proof.
  unfold api.tryEpisode, RunSpec.taskOutcome.
  destruct (getEpisodeSubtitles w i (episode_id episode)) as [subs|]; [|done].
  destruct (missingLanguage _ _ subs); [done|].
  by destruct (createDualSubtitleWithTimeout w i _ _ _).
Qed.


Lemma loop_closed_form total i episodes st :
  loop total i episodes st
  = {| results :=
         {| successful := successful (results st) ++ successfulOf (taskOutcomes i episodes);
            failed := failed (results st) ++ failedOf (taskOutcomes i episodes);
            skipped := skipped (results st) ++ skippedOf (taskOutcomes i episodes) |};
       episodeTimes := episodeTimes st ++ durationsOf (taskOutcomes i episodes);
       reported := reported st ++ reports total i episodes (episodeTimes st) |}.
Proof.
  revert i st. induction episodes as [|episode rest IH]; intros i st.
  - destruct st as [[] ? ?]; simpl. by rewrite !app_nil_r.
  - cbn [api.loop RunSpec.taskOutcomes reports]. rewrite IH.
    unfold api.iteration. rewrite tryEpisode_outcome.
    unfold successfulOf, failedOf, skippedOf, durationsOf.
    destruct (taskOutcome i episode); destruct st as [[] ? ?]; simpl;
      rewrite <- ?app_assoc, ?app_nil_r; reflexivity.
Qed.

Lemma reports_length total i episodes times :
  length (reports total i episodes times) = length episodes.
Proof.
  revert i times. induction episodes as [|e rest IH]; intros i times; simpl; [done|].
  by rewrite IH.
Qed.

Lemma reports_lookup total i episodes times n episode :
  episodes !! n = Some episode →
  reports total i episodes times !! n
  = Some (progressAt (times ++ durationsOf (taskOutcomes i (take n episodes)))
                     total (i + n) episode).
Proof.
  revert i times n. induction episodes as [|e rest IH]; intros i times n Hn; [done|].
  destruct n as [|n]; simpl in *.
  - injection Hn as ->. rewrite app_nil_r. replace (i + 0)%nat with i by lia. reflexivity.
  - rewrite (IH _ _ _ Hn). unfold durationsOf. simpl.
    rewrite app_nil_r, <- app_assoc, Nat.add_succ_r. done.
Qed.

Lemma outcome_ids i episodes :
  resultIds {| successful := successfulOf (taskOutcomes i episodes);
               failed := failedOf (taskOutcomes i episodes);
               skipped := skippedOf (taskOutcomes i episodes) |}
  ≡ₚ episode_id <$> episodes.
Proof.
  revert i. induction episodes as [|e rest IH]; intros i; [done|].
  specialize (IH (S i)). unfold resultIds in *. simpl in *.
  unfold successfulOf, failedOf, skippedOf in *. simpl.
  rewrite <- IH. rewrite !fmap_app.
  assert (∀ o, o = taskOutcome i e →
               match o with
               | Succeeded x _ => s_episode_id x
               | Failed x => f_episode_id x
               | Skipped x => k_episode_id x
               end = episode_id e) as Hid.
  { intros o ->. unfold RunSpec.taskOutcome. repeat case_match; simplify_eq; done. }
  specialize (Hid _ eq_refl).
  destruct (taskOutcome i e); simpl in *; rewrite Hid.
  - done.
  - by rewrite <- Permutation_middle.
  - rewrite app_assoc. rewrite <- Permutation_middle. by rewrite <- app_assoc.
Qed.

Lemma skipped_reason i episodes k :
  k ∈ skippedOf (taskOutcomes i episodes) →
  ∃ lang, k_reason k = "Missing " +:+ lang +:+ " subtitle".
Proof.
  revert i. induction episodes as [|e rest IH]; intros i; simpl.
  - by intros ?%elem_of_nil.
  - unfold skippedOf. simpl. rewrite elem_of_app. intros [Hk|Hk]; [|by eapply IH].
    destruct (taskOutcome i e) as [| |entry] eqn:Ho;
      try (by apply elem_of_nil in Hk).
    simpl in Hk. apply list_elem_of_singleton in Hk as ->.
    unfold RunSpec.taskOutcome in Ho. repeat case_match; simplify_eq. simpl. eauto.
Qed.

Lemma runTasks_closed_form tasks :
  let total := Z.of_nat (length tasks) in
  let st := runTasks w primaryLanguage secondaryLanguage stylingConfig tasks in
  results st = {| successful := successfulOf (taskOutcomes 0 tasks);
                  failed := failedOf (taskOutcomes 0 tasks);
                  skipped := skippedOf (taskOutcomes 0 tasks) |}
  ∧ episodeTimes st = durationsOf (taskOutcomes 0 tasks)
  ∧ reported st = reports total 0 tasks [] ++ [finalProgress total].
Proof.
  unfold runTasks. rewrite loop_closed_form. by cbn.
Qed.

Lemma processBulkDualSubtitles_Returns res progress :
  processBulkDualSubtitles w primaryLanguage secondaryLanguage stylingConfig
  = Returns (res, progress) →
  ∃ listings primaryAvail secondaryAvail,
    fetchListings w = Returns listings
    ∧ language_availability (getSubtitleAnalysis listings) !! primaryLanguage
      = Some primaryAvail
    ∧ language_availability (getSubtitleAnalysis listings) !! secondaryLanguage
      = Some secondaryAvail
    ∧ let st := runTasks w primaryLanguage secondaryLanguage stylingConfig
                  (episodesToProcess primaryLanguage secondaryLanguage
                                     primaryAvail secondaryAvail) in
      res = results st ∧ progress = reported st.
Proof.
  unfold processBulkDualSubtitles.
  destruct (fetchListings w) as [listings|]; [|done].
  destruct (readProperty _ primaryLanguage) as [|pa|[]] eqn:Hpa; try done;
    destruct (readProperty _ secondaryLanguage) as [|sa|[]] eqn:Hsa; try done.
  - apply readProperty_language in Hpa, Hsa.
    intros [= <- <-]. by exists listings, pa, sa.
  - apply readProperty_language in Hpa.
    cbn [truthyProperty negb orb].
    pose proof (details_nonempty _ _ _ Hpa). by destruct (episode_details pa).
Qed.
End run_lemmas.


Lemma episodesToProcess_NoDup listings p s pa sa :
  NoDup ((λ entry : Spec.Listing, id entry.1) <$> listings) →
  language_availability (api.getSubtitleAnalysis listings) !! p = Some pa →
  NoDup (episode_id <$> api.episodesToProcess p s pa sa).
Proof.
  intros Hnd Hpa. unfold api.episodesToProcess, api.episodesWithBoth.
  do 2 apply NoDup_fmap_filter. by eapply details_NoDup.
Qed.

(** C1. When a bulk run completes, the ids in its [successful], [failed] and
    [skipped] lists, taken together, are the ids of its task list (the
    episodes with both languages and no dual file for the pair), each as
    often as in the task list; and when the episodes of the show have
    distinct ids, no id occurs twice in the three lists together: none is
    repeated in a list and none is in two lists. *)
Theorem bulk_results_partition_tasks
    (w : api.World) (primaryLanguage secondaryLanguage : string)
    (stylingConfig : api.DualSubtitleConfig)
    (res : api.Results) (progress : list api.Progress) :
  api.processBulkDualSubtitles w primaryLanguage secondaryLanguage stylingConfig
  = api.Returns (res, progress) →
  ∃ listings primaryAvail secondaryAvail,
    api.fetchListings w = api.Returns listings
    ∧ language_availability (api.getSubtitleAnalysis listings) !! primaryLanguage
      = Some primaryAvail
    ∧ language_availability (api.getSubtitleAnalysis listings) !! secondaryLanguage
      = Some secondaryAvail
    ∧ let tasks := api.episodesToProcess primaryLanguage secondaryLanguage
                     primaryAvail secondaryAvail in
      RunSpec.resultIds res ≡ₚ episode_id <$> tasks
      ∧ (NoDup ((λ entry : Spec.Listing, id entry.1) <$> listings) →
         NoDup (RunSpec.resultIds res)
         ∧ (api.s_episode_id <$> api.successful res)
             ## (api.f_episode_id <$> api.failed res)
         ∧ (api.s_episode_id <$> api.successful res)
             ## (api.k_episode_id <$> api.skipped res)
         ∧ (api.f_episode_id <$> api.failed res)
             ## (api.k_episode_id <$> api.skipped res)).
Proof.
  intros (listings & pa & sa & Hfetch & Hpa & Hsa & Hres & _)
    %processBulkDualSubtitles_Returns.
  exists listings, pa, sa. repeat (split; [done|]).
  cbn zeta in *.
  destruct (runTasks_closed_form w primaryLanguage secondaryLanguage stylingConfig
              (api.episodesToProcess primaryLanguage secondaryLanguage pa sa))
    as (Hr & _).
  cbn zeta in Hr. rewrite <- Hres in Hr.
  assert (RunSpec.resultIds res
          ≡ₚ episode_id <$> api.episodesToProcess primaryLanguage secondaryLanguage pa sa)
    as Hperm by (rewrite Hr; apply outcome_ids).
  split; [done|]. intros Hnd.
  assert (NoDup (RunSpec.resultIds res)) as Hnd'.
  { rewrite Hperm. by eapply episodesToProcess_NoDup. }
  split; [done|]. unfold RunSpec.resultIds in Hnd'.
  apply NoDup_app in Hnd' as (_ & Hsf & (_ & Hfk & _)%NoDup_app).
  repeat split.
  - intros x Hx Hy. apply (Hsf x Hx), elem_of_app. by left.
  - intros x Hx Hy. apply (Hsf x Hx), elem_of_app. by right.
  - intros x Hx Hy. by apply (Hfk x Hx).
Qed.

Lemma bulk_results_partition_tasks_witness :
  RunSpec.resultIds Run.answer.1 ≡ₚ ["ep2"; "ep3"; "ep4"; "ep5"].
Proof.
  destruct (bulk_results_partition_tasks Run.world "en" "ja" Run.stylingConfig
              Run.answer.1 Run.answer.2)
    as (listings & pa & sa & Hfetch & Hpa & Hsa & Hperm & _);
    [vm_compute; reflexivity|].
  injection Hfetch as <-.
  vm_compute in Hpa, Hsa. injection Hpa as <-. injection Hsa as <-.
  exact Hperm.
Defined.

(** What a completed run was run on, and the ids it answers. *)
Lemma bulk_ids_of_run
    (w : api.World) (primaryLanguage secondaryLanguage : string)
    (stylingConfig : api.DualSubtitleConfig)
    (res : api.Results) (progress : list api.Progress) :
  api.processBulkDualSubtitles w primaryLanguage secondaryLanguage stylingConfig
  = api.Returns (res, progress) →
  ∃ listings primaryAvail secondaryAvail,
    api.fetchListings w = api.Returns listings
    ∧ language_availability (api.getSubtitleAnalysis listings) !! primaryLanguage
      = Some primaryAvail
    ∧ language_availability (api.getSubtitleAnalysis listings) !! secondaryLanguage
      = Some secondaryAvail
    ∧ (let os := RunSpec.taskOutcomes w primaryLanguage secondaryLanguage stylingConfig 0
                   (api.episodesToProcess primaryLanguage secondaryLanguage
                      primaryAvail secondaryAvail) in
       res = {| api.successful := RunSpec.successfulOf os;
                api.failed := RunSpec.failedOf os;
                api.skipped := RunSpec.skippedOf os |})
    ∧ RunSpec.resultIds res
      ≡ₚ episode_id <$> api.episodesToProcess primaryLanguage secondaryLanguage
                          primaryAvail secondaryAvail.
Proof.
  intros (listings & pa & sa & Hfetch & Hpa & Hsa & Hres & _)
    %processBulkDualSubtitles_Returns.
  exists listings, pa, sa. repeat (split; [done|]).
  cbn zeta in *.
  destruct (runTasks_closed_form w primaryLanguage secondaryLanguage stylingConfig
              (api.episodesToProcess primaryLanguage secondaryLanguage pa sa))
    as (Hr & _).
  cbn zeta in Hr. rewrite <- Hres in Hr. split; [done|].
  rewrite Hr. apply outcome_ids.
Qed.

(** C2 (as amended). When a bulk run completes, an episode with both
    languages that already has a dual file for the requested pair, in either
    order, is left out of the task list, and, the episodes of the show having
    distinct ids, it occurs in none of the three result lists; the reasons in
    the [skipped] list are all of the form "Missing <language> subtitle",
    never "already exists". *)
Theorem existing_dual_is_left_out
    (w : api.World) (primaryLanguage secondaryLanguage : string)
    (stylingConfig : api.DualSubtitleConfig)
    (res : api.Results) (progress : list api.Progress) :
  api.processBulkDualSubtitles w primaryLanguage secondaryLanguage stylingConfig
  = api.Returns (res, progress) →
  ∃ listings primaryAvail secondaryAvail,
    api.fetchListings w = api.Returns listings
    ∧ language_availability (api.getSubtitleAnalysis listings) !! primaryLanguage
      = Some primaryAvail
    ∧ language_availability (api.getSubtitleAnalysis listings) !! secondaryLanguage
      = Some secondaryAvail
    ∧ (∀ k, k ∈ api.skipped res →
         (∃ lang, api.k_reason k = "Missing " +:+ lang +:+ " subtitle")
         ∧ api.k_reason k ≠ "already exists")
    ∧ (∀ episode,
         episode ∈ api.episodesWithBoth primaryAvail secondaryAvail →
         api.episodeHasDualSubtitle episode primaryLanguage secondaryLanguage = true →
         (episode ∉ api.episodesToProcess primaryLanguage secondaryLanguage
                      primaryAvail secondaryAvail)
         ∧ (NoDup ((λ entry : Spec.Listing, id entry.1) <$> listings) →
            episode_id episode ∉ RunSpec.resultIds res)).
Proof.
  intros Hrun.
  destruct (bulk_ids_of_run _ _ _ _ _ _ Hrun)
    as (listings & pa & sa & Hfetch & Hpa & Hsa & Hres & Hperm).
  exists listings, pa, sa. repeat (split; [done|]). split.
  - intros k Hk. rewrite Hres in Hk. simpl in Hk.
    apply skipped_reason in Hk as [lang Hlang]. split; [eauto|].
    rewrite Hlang. discriminate.
  - intros episode Hboth Hdual. split.
    + unfold api.episodesToProcess. rewrite elem_of_filter_bool, Hdual.
      by intros [_ ?].
    + intros Hnd. rewrite Hperm.
      intros (task & Hid & Htask)%list_elem_of_fmap.
      assert (task = episode) as ->.
      { unfold api.episodesToProcess, api.episodesWithBoth in *.
        apply elem_of_filter_bool in Htask as [Htask _].
        apply elem_of_filter_bool in Htask as [Htask _].
        apply elem_of_filter_bool in Hboth as [Hboth _].
        apply (NoDup_fmap_elem_inj episode_id (episode_details pa));
          [by eapply details_NoDup|done..]. }
      unfold api.episodesToProcess in Htask.
      apply elem_of_filter_bool in Htask as [_ Htask]. by rewrite Hdual in Htask.
Qed.

Lemma existing_dual_is_left_out_witness :
  (Run.info1 ∉ Run.tasks) ∧ ("ep1" ∉ RunSpec.resultIds Run.answer.1).
Proof.
  destruct (existing_dual_is_left_out Run.world "en" "ja" Run.stylingConfig
              Run.answer.1 Run.answer.2)
    as (listings & pa & sa & Hfetch & Hpa & Hsa & _ & Hout);
    [vm_compute; reflexivity|].
  injection Hfetch as <-.
  vm_compute in Hpa, Hsa. injection Hpa as <-. injection Hsa as <-.
  destruct (Hout Run.info1) as [Htasks Hids].
  - vm_compute. constructor.
  - vm_compute. reflexivity.
  - split; [exact Htasks|]. apply Hids.
    apply (bool_decide_unpack _). vm_compute. exact I.
Defined.

(** C2, as stated, fails: in the run over five episodes, episode 1 has both
    languages and a Japanese and English dual file, and the run answers a
    [skipped] list without it. *)
Lemma existing_dual_not_recorded_as_skipped :
  api.processBulkDualSubtitles Run.world "en" "ja" Run.stylingConfig
  = api.Returns Run.answer
  ∧ episode_id Run.info1 = "ep1"
  ∧ api.episodeHasDualSubtitle Run.info1 "en" "ja" = true
  ∧ api.skipped Run.answer.1
    = [ {| api.k_episode_id := "ep3"; api.k_reason := "Missing ja subtitle" |} ]
  ∧ ¬ ∃ k, k ∈ api.skipped Run.answer.1
           ∧ api.k_episode_id k = "ep1" ∧ api.k_reason k = "already exists".
Proof.
  repeat split; try (vm_compute; reflexivity).
  intros (k & Hk & Hid & _). vm_compute in Hk.
  apply list_elem_of_singleton in Hk as ->. discriminate Hid.
Qed.

(** ** Source resolution and timing *)

Section task_lemmas.
Import api RunSpec.
Context (w : World) (primaryLanguage secondaryLanguage : string)
        (stylingConfig : DualSubtitleConfig).



End task_lemmas.



Section timing_lemmas.
Import api RunSpec.

Lemma sumTimes_snoc times d :
  sumTimes (times ++ [d]) = round64 (sumTimes times + Qc_of_Z d)%Qc.
Proof. unfold sumTimes. by rewrite foldl_app. Qed.

Lemma exactSum_snoc l x : Spec.exactSum (l ++ [x]) = Spec.exactSum l + x.
Proof. induction l as [|y l IH]; simpl; [lia|]. rewrite IH. lia. Qed.

Lemma exactSum_Permutation l l' : l ≡ₚ l' → Spec.exactSum l = Spec.exactSum l'.
Proof.
  induction 1 as [|x l l' _ IH|x y l|l l' l'' _ IH1 _ IH2]; simpl; [done|lia|lia|].
  by rewrite IH1.
Qed.

Lemma exactSum_abs l : Z.abs (Spec.exactSum l) ≤ Spec.exactSum (Z.abs <$> l).
Proof.
  induction l as [|x l IH]; [done|]. rewrite fmap_cons.
  change (Spec.exactSum (x :: l)) with (x + Spec.exactSum l).
  change (Spec.exactSum (Z.abs x :: (Z.abs <$> l)))
    with (Z.abs x + Spec.exactSum (Z.abs <$> l)).
  lia.
Qed.

Lemma record_reported o st : reported (record o st) = reported st.
Proof. by destruct o. Qed.

Lemma Qpow2_pos (e : Z) : (0 < Qpow2 e)%Q.
Proof.
  unfold Qpow2. case_bool_decide as He.
  - assert (0 < 2 ^ e) by (apply Z.pow_pos_nonneg; lia).
    unfold Qlt. simpl. lia.
  - reflexivity.
Qed.

Lemma nearest_even_nonneg (x : Q) : (0 <= x)%Q → 0 ≤ nearest_even x.
Proof.
  intros Hx. unfold nearest_even.
  assert (0 ≤ Qfloor x) as Hf.
  { change 0 with (Qfloor 0). by apply Qfloor_resp_le. }
  destruct (_ ?= _)%Q; [destruct (Z.even _)| |]; lia.
Qed.

Lemma round64_pos_nonneg (x : Q) : (0 <= x)%Q → (0 <= round64_pos x)%Q.
Proof.
  intros Hx. unfold round64_pos.
  apply Qmult_le_0_compat; [|apply Qlt_le_weak, Qpow2_pos].
  change 0%Q with (inject_Z 0). rewrite <- Zle_Qle.
  apply nearest_even_nonneg. apply Qle_shift_div_l; [apply Qpow2_pos|].
  by rewrite Qmult_0_l.
Qed.

Lemma nearest_even_integer (x : Q) (n : Z) : (x == inject_Z n)%Q → nearest_even x = n.
Proof.
  intros Hx. unfold nearest_even.
  assert (Qfloor x = n) as -> by (rewrite Hx; apply Qfloor_Z).
  assert ((x - inject_Z n ?= 1 # 2)%Q = Lt) as ->; [|done].
  rewrite <- Qlt_alt. rewrite Hx. unfold Qminus. rewrite Qplus_opp_r. reflexivity.
Qed.

Lemma Qlog2_integer (z : Z) : 0 < z → Qlog2 (inject_Z z) = Z.log2 z.
Proof.
  intros Hz. unfold Qlog2. cbn [Qnum Qden inject_Z].
  change (Z.log2 1) with 0. rewrite Z.sub_0_r.
  assert (Qle_bool (Qpow2 (Z.log2 z)) (inject_Z z) = true) as ->; [|done].
  apply Qle_bool_iff. unfold Qpow2.
  rewrite bool_decide_eq_true_2 by apply Z.log2_nonneg.
  rewrite <- Zle_Qle. apply Z.log2_spec. lia.
Qed.

Lemma Qpow2_inverse (e : Z) : e ≤ 0 → (Qpow2 e * inject_Z (2 ^ (- e)) == 1)%Q.
Proof.
  intros He. unfold Qpow2. case_bool_decide.
  - assert (e = 0) as -> by lia. reflexivity.
  - assert (0 < 2 ^ (- e)) by (apply Z.pow_pos_nonneg; lia).
    unfold Qmult, Qeq. cbn [Qnum Qden inject_Z].
    rewrite Pos.mul_1_r, Z2Pos.id by done. lia.
Qed.

(** An integer of fewer than 54 binary digits is a double. *)
Lemma round64_pos_integer (z : Z) :
  0 < z < 2 ^ 53 → (round64_pos (inject_Z z) == inject_Z z)%Q.
Proof.
  intros Hz. unfold round64_pos. rewrite (Qlog2_integer z) by lia.
  set (e := Z.max (Z.log2 z - 52) (-1074)).
  assert (e ≤ 0) as He.
  { unfold e. assert (Z.log2 z < 53) by (apply Z.log2_lt_pow2; lia). lia. }
  pose proof (Qpow2_inverse e He) as Hinv.
  assert (¬ (Qpow2 e == 0)%Q) as Hnz.
  { pose proof (Qpow2_pos e) as Hpos. intros Heq. rewrite Heq in Hpos.
    by apply Qlt_irrefl in Hpos. }
  assert (inject_Z z / Qpow2 e == inject_Z (z * 2 ^ (- e)))%Q as Hquot.
  { rewrite inject_Z_mult. apply Qmult_inj_r with (Qpow2 e); [done|].
    rewrite Qmult_comm, Qmult_div_r by done.
    by rewrite <- Qmult_assoc, (Qmult_comm (inject_Z (2 ^ _))), Hinv, Qmult_1_r. }
  rewrite (nearest_even_integer _ _ Hquot), inject_Z_mult.
  by rewrite <- Qmult_assoc, (Qmult_comm (inject_Z (2 ^ _))), Hinv, Qmult_1_r.
Qed.

Lemma this_Qc_of_Z (z : Z) : this (Qc_of_Z z) = inject_Z z.
Proof. reflexivity. Qed.

Lemma Qcopp_of_Z (z : Z) : (- Qc_of_Z z)%Qc = Qc_of_Z (- z).
Proof.
  apply Qc_is_canon. unfold Qcopp. cbn [this Q2Qc]. rewrite this_Qc_of_Z.
  by rewrite !Qred_correct.
Qed.

Lemma Q2Qc_integer (q : Q) (z : Z) : (q == inject_Z z)%Q → Q2Qc q = Qc_of_Z z.
Proof.
  intros Hq. apply Qc_is_canon. cbn [this Q2Qc]. rewrite this_Qc_of_Z.
  by rewrite Qred_correct.
Qed.

Lemma round64_integer (z : Z) : Z.abs z < 2 ^ 53 → round64 (Qc_of_Z z) = Qc_of_Z z.
Proof.
  intros Hz. unfold round64. rewrite this_Qc_of_Z. cbn [Qnum inject_Z].
  destruct (Z.compare_spec z 0) as [->|Hneg|Hpos].
  - reflexivity.
  - change (- inject_Z z)%Q with (inject_Z (- z)).
    assert (Q2Qc (round64_pos (inject_Z (- z))) = Qc_of_Z (- z)) as ->.
    { apply Q2Qc_integer, round64_pos_integer. lia. }
    by rewrite Qcopp_of_Z, Z.opp_involutive.
  - apply Q2Qc_integer, round64_pos_integer. lia.
Qed.

(** The additions of [sumTimes] are exact as long as the durations, taken
    without their signs, add up to less than 2^53. *)
Lemma sumTimes_exact times :
  Spec.exactSum (Z.abs <$> times) < 2 ^ 53 →
  sumTimes times = Qc_of_Z (Spec.exactSum times).
Proof.
  induction times as [|d times IH] using rev_ind; [done|].
  rewrite fmap_app, list_fmap_singleton, !exactSum_snoc, sumTimes_snoc. intros Hbound.
  rewrite IH by lia. rewrite <- Z2Qc_inj_add. apply round64_integer.
  pose proof (exactSum_abs times). lia.
Qed.

Lemma averageTimePerEpisodeOf_Permutation l l' :
  Spec.exactSum (Z.abs <$> l) < 2 ^ 53 →
  l ≡ₚ l' → averageTimePerEpisodeOf l = averageTimePerEpisodeOf l'.
Proof.
  intros Hbound Hperm. unfold averageTimePerEpisodeOf.
  rewrite (sumTimes_exact l) by done.
  rewrite (sumTimes_exact l')
    by (by rewrite <- (exactSum_Permutation _ _ (fmap_Permutation Z.abs _ _ Hperm))).
  by rewrite (exactSum_Permutation _ _ Hperm), (Permutation_length Hperm).
Qed.

Lemma round64_nonneg (x : Qc) : (0 ≤ x)%Qc → (0 ≤ round64 x)%Qc.
Proof.
  intros Hx. unfold round64. destruct (Z.compare_spec (Qnum x) 0) as [H|H|H]; [done| |].
  - exfalso. destruct x as [[n d] Hc]. cbn in H.
    unfold Qcle, Qle in Hx. cbn in Hx. change (Qred 0) with (0 # 1)%Q in Hx.
    cbn in Hx. lia.
  - unfold Qcle. cbn [this Q2Qc]. change (Qred 0) with 0%Q.
    rewrite Qred_correct. by apply round64_pos_nonneg.
Qed.
End timing_lemmas.

(** The rounding on some numbers: one tenth, a third, 3100/3, an integer
    that needs 54 binary digits, an integer that does not; and the estimate
    for three recorded durations of 1000, 1000 and 1100 ms with 15 tasks
    left, which is 15499.999999999998 ms and is displayed as 15 seconds. *)
Example round64_tests :
  this (round64 (Q2Qc (1 # 10))) = (3602879701896397 # 36028797018963968)%Q
  ∧ this (round64 (Q2Qc (1 # 3))) = (6004799503160661 # 18014398509481984)%Q
  ∧ this (round64 (Q2Qc (- 1 # 3))) = (- 6004799503160661 # 18014398509481984)%Q
  ∧ this (round64 (Q2Qc (3100 # 3))) = (4544648061474133 # 4398046511104)%Q
  ∧ this (round64 (Qc_of_Z 9007199254740993)) = inject_Z 9007199254740992
  ∧ this (round64 (Qc_of_Z 9007199254740995)) = inject_Z 9007199254740996
  ∧ this (round64 (Qc_of_Z 15500)) = inject_Z 15500
  ∧ this (api.averageTimePerEpisodeOf [1000; 1000; 1100])
    = (4544648061474133 # 4398046511104)%Q
  ∧ this (api.estimatedRemainingMs [1000; 1000; 1100] 18 3)
    = (8521215115263999 # 549755813888)%Q
  ∧ api.formatTimeRemaining (api.estimatedRemainingMs [1000; 1000; 1100] 18 3) = "15s".
Proof. vm_compute. repeat split. Qed.

(** C6 (as amended). In a run over a task list: the call to the progress
    callback before task [n] reports [n] as processed, and the last call
    reports the total; the timing history receives the duration of a task
    only when its dual file was created, nothing for a failed or a skipped
    task; and the estimate reported before task [n] is the number of tasks
    from [n] on times the mean of the durations recorded so far, 45 seconds
    standing for the mean while none is recorded. The mean is the sum of
    the durations divided by their number; the additions of the sum, the
    quotient and the product are those of doubles, each rounded to the
    nearest double, and the sum is the exact one as long as the durations,
    taken without their signs, add up to less than 2^53 milliseconds. The
    last call carries no estimate. *)
Theorem progress_and_recorded_durations
    (w : api.World) (primaryLanguage secondaryLanguage : string)
    (stylingConfig : api.DualSubtitleConfig) (tasks : list EpisodeSubtitleInfo) :
  let total := Z.of_nat (length tasks) in
  let st := api.runTasks w primaryLanguage secondaryLanguage stylingConfig tasks in
  let recorded :=
    RunSpec.recordedDurations w primaryLanguage secondaryLanguage stylingConfig in
  api.episodeTimes st = recorded 0%nat tasks
  ∧ length (api.reported st) = S (length tasks)
  ∧ (∀ (n : nat) (episode : EpisodeSubtitleInfo),
       tasks !! n = Some episode →
       ∃ pr, api.reported st !! n = Some pr
             ∧ api.processed pr = Z.of_nat n
             ∧ api.total pr = total
             ∧ api.estimatedTimeRemaining pr
               = Some (api.formatTimeRemaining
                         (round64
                            (Qc_of_Z (total - Z.of_nat n)
                             * api.averageTimePerEpisodeOf
                                 (recorded 0%nat (take n tasks)))%Qc)))
  ∧ api.reported st !! length tasks = Some (api.finalProgress total)
  ∧ (∀ (i : nat) (episode : EpisodeSubtitleInfo) (rest : list EpisodeSubtitleInfo),
       recorded i (episode :: rest)
       = match RunSpec.taskOutcome w primaryLanguage secondaryLanguage stylingConfig
                 i episode with
         | RunSpec.Succeeded _ _ => [api.episodeEndTime w i - api.episodeStartTime w i]
         | _ => []
         end ++ recorded (S i) rest)
  ∧ api.averageTimePerEpisodeOf [] = Qc_of_Z 45000
  ∧ (∀ (d : Z) (times : list Z),
       api.averageTimePerEpisodeOf (d :: times)
       = round64 (api.sumTimes (d :: times)
                  / Qc_of_Z (1 + Z.of_nat (length times)))%Qc)
  ∧ api.sumTimes [] = Qc_of_Z 0
  ∧ (∀ (times : list Z) (d : Z),
       api.sumTimes (times ++ [d]) = round64 (api.sumTimes times + Qc_of_Z d)%Qc)
  ∧ (∀ times : list Z,
       Spec.exactSum (Z.abs <$> times) < 2 ^ 53 →
       api.sumTimes times = Qc_of_Z (Spec.exactSum times)).
Proof.
  intros total st recorded.
  destruct (runTasks_closed_form w primaryLanguage secondaryLanguage stylingConfig tasks)
    as (_ & Htimes & Hreported).
  fold total st in Htimes, Hreported.
  split; [done|]. split; [|split; [|split; [|split; [|split; [|split; [|split; [|split]]]]]]].
  - rewrite Hreported, length_app, reports_length. simpl. lia.
  - intros n episode Hn. eexists. split.
    + rewrite Hreported, lookup_app_l
        by (rewrite reports_length; by eapply lookup_lt_Some).
      by apply reports_lookup.
    + split; [reflexivity|]. split; [reflexivity|].
      reflexivity.
  - rewrite Hreported, lookup_app_r by (by rewrite reports_length).
    by rewrite reports_length, Nat.sub_diag.
  - intros i episode rest. unfold recorded, RunSpec.recordedDurations, RunSpec.durationsOf.
    simpl. f_equal. unfold RunSpec.taskOutcome. repeat case_match; simplify_eq; done.
  - done.
  - intros d times. unfold api.averageTimePerEpisodeOf.
    rewrite bool_decide_eq_true_2 by (simpl; lia).
    do 3 f_equal. simpl length. lia.
  - done.
  - apply sumTimes_snoc.
  - apply sumTimes_exact.
Qed.

Lemma progress_and_recorded_durations_witness :
  api.estimatedTimeRemaining
    <$> api.reported (api.runTasks Run.world "en" "ja" Run.stylingConfig Run.tasks) !! 1%nat
  = Some (Some "12s").
Proof.
  destruct (progress_and_recorded_durations Run.world "en" "ja" Run.stylingConfig Run.tasks)
    as (_ & _ & Hreport & _).
  destruct (Hreport 1%nat Run.info3) as (pr & Hpr & _ & _ & Heta);
    [vm_compute; reflexivity|].
  rewrite Hpr. cbn [fmap option_fmap option_map]. rewrite Heta.
  vm_compute. reflexivity.
Defined.

(** C6, as stated, fails: after the first three tasks of the run over five
    episodes, of which one was skipped and one failed, the timing history
    holds one duration rather than three; and the estimate reported before
    the first task, with nothing recorded, is four times 45 seconds. *)
Lemma unsuccessful_tasks_record_no_duration :
  let st3 := api.loop Run.world "en" "ja" Run.stylingConfig 4 0
               (take 3 Run.tasks) api.initialState in
  length (api.reported st3) = 3%nat
  ∧ api.episodeTimes st3 = [4000]
  ∧ length (api.episodeTimes st3) ≠ 3%nat
  ∧ api.estimatedTimeRemaining
      <$> api.reported (api.runTasks Run.world "en" "ja" Run.stylingConfig Run.tasks) !! 0%nat
    = Some (Some "3m 0s").
Proof. vm_compute. repeat split; discriminate. Qed.

(** C7. The progress call of an iteration is computed from the durations
    recorded so far, the total and the counter, and the estimate it displays
    is that of [estimatedRemainingMs]. This estimate depends on the recorded
    durations only through what they are, not through their order, and on
    the total and the counter only through the number of tasks that remain:
    for two histories that hold the same durations in a different order and
    two positions with the same number of remaining tasks, the estimate in
    milliseconds is the same. The durations are those of a run: integers
    which, taken without their signs, add up to less than 2^53 milliseconds,
    so that the additions of their sum are exact in whatever order. *)
Theorem estimate_independent_of_order :
  (∀ (w : api.World) (primaryLanguage secondaryLanguage : string)
     (stylingConfig : api.DualSubtitleConfig) (total : Z) (i : nat)
     (episode : EpisodeSubtitleInfo) (st : api.LoopState),
     api.reported (api.iteration w primaryLanguage secondaryLanguage stylingConfig
                                 total i episode st)
     = api.reported st ++ [api.progressAt (api.episodeTimes st) total i episode])
  ∧ (∀ (times : list Z) (total : Z) (i : nat) (episode : EpisodeSubtitleInfo),
       api.estimatedTimeRemaining (api.progressAt times total i episode)
       = Some (api.formatTimeRemaining (api.estimatedRemainingMs times total i)))
  ∧ (∀ (times times' : list Z) (total total' : Z) (i i' : nat),
       Spec.exactSum (Z.abs <$> times) < 2 ^ 53 →
       times ≡ₚ times' →
       total - Z.of_nat i = total' - Z.of_nat i' →
       api.estimatedRemainingMs times total i = api.estimatedRemainingMs times' total' i').
Proof.
  split; [|split].
  - intros. unfold api.iteration. by rewrite tryEpisode_outcome, record_reported.
  - done.
  - intros times times' total total' i i' Hbound Hperm Hremaining.
    unfold api.estimatedRemainingMs. cbv zeta.
    by rewrite (averageTimePerEpisodeOf_Permutation _ _ Hbound Hperm), Hremaining.
Qed.

Lemma estimate_independent_of_order_witness :
  api.estimatedRemainingMs [4000; 6000; 11000] 10 3
  = api.estimatedRemainingMs [11000; 4000; 6000] 12 5.
Proof.
  apply (proj2 (proj2 estimate_independent_of_order)
           [4000; 6000; 11000] [11000; 4000; 6000] 10 12 3%nat 5%nat).
  - vm_compute. reflexivity.
  - apply (bool_decide_unpack _). vm_compute. exact I.
  - reflexivity.
Defined.

(** * Further properties *)

(** ** More on the availability analysis *)

Section analysis_more.
Import api Spec.

Lemma elem_of_episodesWhere (P : Listing → bool) listings x :
  x ∈ episodesWhere P listings
  ↔ ∃ entry, entry ∈ listings ∧ P entry = true ∧ id entry.1 = x.
Proof.
  unfold episodesWhere. rewrite elem_of_list_to_set, list_elem_of_fmap. split.
  - intros (entry & -> & [? ?]%elem_of_filter_bool). eauto.
  - intros (entry & ? & ? & <-). exists entry. split; [done|].
    by apply elem_of_filter_bool.
Qed.

Lemma size_list_to_set_le (l : list string) :
  (size (list_to_set (C:=gset string) l) ≤ length l)%nat.
Proof.
  induction l as [|x l IH].
  - by rewrite list_to_set_nil, size_empty.
  - rewrite list_to_set_cons. cbn [length].
    rewrite size_union_alt, size_singleton.
    assert (size (list_to_set (C:=gset string) l ∖ {[x]}) ≤ size (list_to_set (C:=gset string) l))%nat
      by (apply subseteq_size; set_solver).
    lia.
Qed.

Lemma length_filter_le {A} (P : A → bool) (l : list A) :
  (length (List.filter P l) ≤ length l)%nat.
Proof. induction l as [|a l IH]; simpl; [done|]. destruct (P a); simpl; lia. Qed.

Lemma episodesWhere_size_le (P : Listing → bool) listings :
  (size (episodesWhere P listings) ≤ length (List.filter P listings))%nat.
Proof.
  unfold episodesWhere. etrans; [apply size_list_to_set_le|]. by rewrite length_fmap.
Qed.

Lemma episodesWhere_language c listings :
  episodesWhere (hasLanguage c) listings
  = episodesWhere (hasExternal c) listings ∪ episodesWhere (hasEmbedded c) listings.
Proof.
  apply set_eq. intros x. rewrite elem_of_union, !elem_of_episodesWhere.
  unfold hasLanguage. split.
  - intros (entry & ? & [?|?]%orb_true_iff & ?); eauto.
  - intros [(entry & ? & Hp & ?)|(entry & ? & Hp & ?)];
      exists entry; rewrite Hp, ?orb_true_r; eauto.
Qed.

Lemma getLanguageName_nonempty c : c ≠ "" → getLanguageName c ≠ "".
Proof.
  intros Hc. unfold getLanguageName, readTable.
  destruct (decide (c = "hi")); [done|].
  assert (toUpperCase c ≠ "") as Hupper.
  { unfold toUpperCase. destruct (all_ascii c); [|done].
    destruct c; [done|]. discriminate. }
  destruct (lookup_table c languages) as [v|] eqn:Hv.
  - assert (v ≠ "") as Hne.
    { unfold languages in Hv. simpl in Hv.
      repeat (case_decide; [injection Hv as <-; discriminate|]). done. }
    cbn [truthyName]. rewrite bool_decide_eq_false_2 by done.
    cbn [negb]. congruence.
  - by case_bool_decide.
Qed.

Lemma or_default_nonempty' o d : d ≠ "" → or_default o d ≠ "".
Proof.
  intros Hd. unfold or_default. destruct o as [x|]; [|done].
  by destruct (decide (x = "")).
Qed.

Lemma hasLanguage_nonempty c entry : hasLanguage c entry = true → c ≠ "".
Proof.
  unfold hasLanguage, hasExternal, hasEmbedded, codesOfExternal, codesOfEmbedded.
  destruct entry.2; [|done].
  intros [H|H]%orb_true_iff; apply bool_decide_eq_true in H;
    apply list_elem_of_fmap in H as (sub & -> & _); by apply or_default_nonempty'.
Qed.

Lemma scanEpisode_None (m : gmap string LangData) episode :
  scanEpisode m (episode, None) = m.
Proof. done. Qed.

Lemma foldl_scanEpisode_loaded listings (m : gmap string LangData) :
  foldl scanEpisode m listings
  = foldl scanEpisode m (List.filter (λ entry : Listing, bool_decide (is_Some entry.2)) listings).
Proof.
  revert m. induction listings as [|[episode [subs|]] listings IH]; intros m; simpl.
  - done.
  - apply IH.
  - apply IH.
Qed.

Lemma filter_Permutation {A} (P : A → bool) (l l' : list A) :
  l ≡ₚ l' → List.filter P l ≡ₚ List.filter P l'.
Proof.
  induction 1 as [|x l l' _ IH|x y l|l l' l'' _ IH1 _ IH2]; simpl.
  - done.
  - destruct (P x); by rewrite IH.
  - destruct (P x), (P y); try done. apply perm_swap.
  - by etrans.
Qed.

Lemma episodesWhere_Permutation (P : Listing → bool) l l' :
  l ≡ₚ l' → episodesWhere P l = episodesWhere P l'.
Proof.
  intros Hperm. unfold episodesWhere. apply set_eq. intros x.
  rewrite !elem_of_list_to_set.
  by rewrite (fmap_Permutation _ _ _ (filter_Permutation P _ _ Hperm)).
Qed.
End analysis_more.

(** X1. In an analysis, every language that occurs has at least one episode
    and at most as many as the show has; its two source counts are between 0
    and [episodes_available], and together they reach [episodes_available];
    and [episodes_available] never exceeds the number of entries in
    [episode_details]. *)
Theorem analysis_count_bounds (listings : list Spec.Listing) (c : string)
    (la : LanguageAvailability) :
  language_availability (api.getSubtitleAnalysis listings) !! c = Some la →
  1 ≤ episodes_available la ≤ total_episodes (api.getSubtitleAnalysis listings)
  ∧ 0 ≤ episodes_with_external la ≤ episodes_available la
  ∧ 0 ≤ episodes_with_embedded la ≤ episodes_available la
  ∧ episodes_available la ≤ episodes_with_external la + episodes_with_embedded la
  ∧ episodes_available la ≤ Z.of_nat (length (episode_details la)).
Proof.
  intros Hla.
  assert (List.filter (Spec.hasLanguage c) listings ≠ []) as Hne.
  { rewrite getSubtitleAnalysis_lookup in Hla. by case_decide. }
  apply getSubtitleAnalysis_Some in Hla as ->.
  cbn [episodes_available episodes_with_external episodes_with_embedded
       episode_details total_episodes api.getSubtitleAnalysis].
  unfold Spec.countEpisodes. rewrite length_fmap.
  pose proof (episodesWhere_size_le (Spec.hasLanguage c) listings) as Hle.
  pose proof (length_filter_le (Spec.hasLanguage c) listings) as Hle'.
  pose proof (episodesWhere_language c listings) as Hunion.
  assert (size (Spec.episodesWhere (Spec.hasLanguage c) listings) ≠ 0%nat) as Hpos.
  { intros Hz%size_empty_inv. destruct (List.filter _ listings) as [|entry rest] eqn:E; [done|].
    assert (id entry.1 ∈ Spec.episodesWhere (Spec.hasLanguage c) listings) as Hin.
    { apply elem_of_episodesWhere. exists entry.
      assert (entry ∈ List.filter (Spec.hasLanguage c) listings) as Hx
        by (rewrite E; left).
      apply elem_of_filter_bool in Hx as [? ?]. eauto. }
    apply Hz in Hin. by apply elem_of_empty in Hin. }
  assert (size (Spec.episodesWhere (Spec.hasExternal c) listings)
          ≤ size (Spec.episodesWhere (Spec.hasLanguage c) listings))%nat
    by (apply subseteq_size; rewrite Hunion; set_solver).
  assert (size (Spec.episodesWhere (Spec.hasEmbedded c) listings)
          ≤ size (Spec.episodesWhere (Spec.hasLanguage c) listings))%nat
    by (apply subseteq_size; rewrite Hunion; set_solver).
  assert (size (Spec.episodesWhere (Spec.hasLanguage c) listings)
          ≤ size (Spec.episodesWhere (Spec.hasExternal c) listings)
            + size (Spec.episodesWhere (Spec.hasEmbedded c) listings))%nat
    by (rewrite Hunion; rewrite size_union_alt; apply Nat.add_le_mono_l, subseteq_size; set_solver).
  lia.
Qed.


Lemma analysis_count_bounds_witness :
  ∃ la, language_availability (api.getSubtitleAnalysis Scenario.listings) !! "ja" = Some la
        ∧ 1 ≤ episodes_available la ≤ 24
        ∧ episodes_available la ≤ episodes_with_external la + episodes_with_embedded la.
Proof.
  assert (∃ la, language_availability (api.getSubtitleAnalysis Scenario.listings) !! "ja"
                = Some la) as [la Hla] by (eexists; vm_compute; reflexivity).
  exists la. split; [exact Hla|].
  destruct (analysis_count_bounds Scenario.listings "ja" la Hla) as (H1 & _ & _ & H4 & _).
  split; [exact H1|exact H4].
Defined.

(** X2. An episode whose listing could not be fetched counts in
    [total_episodes] and in nothing else: the languages of the analysis, with
    their counts and details, are those of the analysis of the episodes that
    were fetched. *)
Theorem analysis_ignores_failed_fetches (listings : list Spec.Listing) :
  let fetched := List.filter (λ entry : Spec.Listing, bool_decide (is_Some entry.2)) listings in
  language_availability (api.getSubtitleAnalysis listings)
  = language_availability (api.getSubtitleAnalysis fetched)
  ∧ total_episodes (api.getSubtitleAnalysis listings) = Z.of_nat (length listings)
  ∧ (∀ episode : Episode,
       language_availability (api.getSubtitleAnalysis (listings ++ [(episode, None)]))
       = language_availability (api.getSubtitleAnalysis listings)).
Proof.
  intros fetched. unfold api.getSubtitleAnalysis. cbn [language_availability total_episodes].
  split; [|split].
  - by rewrite foldl_scanEpisode_loaded.
  - done.
  - intros episode. by rewrite foldl_app.
Qed.

(** X3. When the episodes of the show have distinct ids, for every language
    of the analysis [episodes_available] is the number of entries of
    [episode_details], and no episode id occurs twice in [episode_details]. *)
Theorem analysis_details_match_count (listings : list Spec.Listing) (c : string)
    (la : LanguageAvailability) :
  NoDup ((λ entry : Spec.Listing, id entry.1) <$> listings) →
  language_availability (api.getSubtitleAnalysis listings) !! c = Some la →
  episodes_available la = Z.of_nat (length (episode_details la))
  ∧ NoDup (episode_id <$> episode_details la).
Proof.
  intros Hnd Hla. split; [by eapply available_length|by eapply details_NoDup].
Qed.

Lemma analysis_details_match_count_witness :
  ∃ la, language_availability (api.getSubtitleAnalysis Scenario.listings) !! "en" = Some la
        ∧ episodes_available la = Z.of_nat (length (episode_details la)).
Proof.
  assert (∃ la, language_availability (api.getSubtitleAnalysis Scenario.listings) !! "en"
                = Some la) as [la Hla] by (eexists; vm_compute; reflexivity).
  exists la. split; [exact Hla|].
  apply (analysis_details_match_count Scenario.listings "en" la); [|exact Hla].
  apply (bool_decide_unpack _). vm_compute. exact I.
Defined.

(** X4. The counts of the analysis do not depend on the order in which the
    episodes are listed: for two orders of the same listings, the total and
    the three counts of every language are equal. *)
Theorem analysis_counts_order_independent (listings listings' : list Spec.Listing)
    (c : string) :
  listings ≡ₚ listings' →
  total_episodes (api.getSubtitleAnalysis listings)
  = total_episodes (api.getSubtitleAnalysis listings')
  ∧ Spec.counts <$> language_availability (api.getSubtitleAnalysis listings) !! c
    = Spec.counts <$> language_availability (api.getSubtitleAnalysis listings') !! c.
Proof.
  intros Hperm. split.
  - cbn [total_episodes api.getSubtitleAnalysis]. by rewrite (Permutation_length Hperm).
  - rewrite !getSubtitleAnalysis_lookup.
    pose proof (filter_Permutation (Spec.hasLanguage c) _ _ Hperm) as Hf.
    destruct (decide (List.filter (Spec.hasLanguage c) listings = [])) as [H1|H1];
      destruct (decide (List.filter (Spec.hasLanguage c) listings' = [])) as [H2|H2].
    + done.
    + exfalso. rewrite H1 in Hf. by apply Permutation_nil_l in Hf.
    + exfalso. rewrite H2 in Hf. by apply Permutation_nil_r in Hf.
    + cbn [fmap option_fmap option_map]. f_equal.
      unfold Spec.counts, Spec.countEpisodes.
      cbn [episodes_available episodes_with_external episodes_with_embedded].
      by rewrite !(episodesWhere_Permutation _ _ _ Hperm).
Qed.

Lemma analysis_counts_order_independent_witness :
  Spec.counts <$> language_availability (api.getSubtitleAnalysis Disjoint.listings) !! "en"
  = Spec.counts <$> language_availability
                      (api.getSubtitleAnalysis (reverse Disjoint.listings)) !! "en".
Proof.
  apply (analysis_counts_order_independent Disjoint.listings (reverse Disjoint.listings) "en").
  symmetry. apply reverse_Permutation.
Defined.

(** X5. The codes and the names of the analysis are never empty: a language
    of the analysis has a non-empty code, and its [name], which is
    [getLanguageName] of the code, is not empty. *)
Theorem analysis_codes_and_names_nonempty (listings : list Spec.Listing) (c : string)
    (la : LanguageAvailability) :
  language_availability (api.getSubtitleAnalysis listings) !! c = Some la →
  c ≠ "" ∧ name la = api.getLanguageName c ∧ name la ≠ "".
Proof.
  intros Hla.
  assert (c ≠ "") as Hc.
  { rewrite getSubtitleAnalysis_lookup in Hla. case_decide as Hne; [done|].
    destruct (List.filter _ listings) as [|entry rest] eqn:E; [done|].
    assert (entry ∈ List.filter (Spec.hasLanguage c) listings) as Hx by (rewrite E; left).
    apply elem_of_filter_bool in Hx as [_ Hx]. by eapply hasLanguage_nonempty. }
  apply getSubtitleAnalysis_Some in Hla as ->. cbn [name].
  split; [done|]. split; [done|]. by apply getLanguageName_nonempty.
Qed.

Lemma analysis_codes_and_names_nonempty_witness :
  ∃ la, language_availability (api.getSubtitleAnalysis Scenario.listings) !! "ja" = Some la
        ∧ name la ≠ "".
Proof.
  assert (∃ la, language_availability (api.getSubtitleAnalysis Scenario.listings) !! "ja"
                = Some la) as [la Hla] by (eexists; vm_compute; reflexivity).
  exists la. split; [exact Hla|].
  apply (analysis_codes_and_names_nonempty Scenario.listings "ja" la Hla).
Defined.

(** ** More on the selection of episodes *)

Section selection_more.
Import api Spec EpisodePreviewStep.

Local Abbreviation ids := (fmap (M:=list) (λ entry : Listing, id entry.1)).




End selection_more.





Section selection_more2.
Import api Spec EpisodePreviewStep RunSpec.

Local Abbreviation ids := (fmap (M:=list) (λ entry : Listing, id entry.1)).


Lemma length_both_le listings p s pa sa :
  NoDup (ids listings) →
  language_availability (getSubtitleAnalysis listings) !! p = Some pa →
  language_availability (getSubtitleAnalysis listings) !! s = Some sa →
  Z.of_nat (length (episodesWithBoth pa sa)) ≤ episodes_available pa
  ∧ Z.of_nat (length (episodesWithBoth pa sa)) ≤ episodes_available sa.
Proof.
  intros Hnd Hpa Hsa.
  rewrite (available_length _ _ _ Hnd Hpa), (available_length _ _ _ Hnd Hsa).
  split.
  - unfold episodesWithBoth. pose proof (length_filter_le
      (λ ep, existsb (λ secEp, bool_decide (episode_id secEp = episode_id ep))
                     (episode_details sa)) (episode_details pa)). lia.
  - unfold episodesWithBoth.
    rewrite (length_common _ _ (details_NoDup _ _ _ Hnd Hpa) (details_NoDup _ _ _ Hnd Hsa)).
    pose proof (length_filter_le
      (λ ep, existsb (λ secEp, bool_decide (episode_id secEp = episode_id ep))
                     (episode_details pa)) (episode_details sa)). lia.
Qed.

Lemma length_outcomes os :
  (length (successfulOf os) + length (failedOf os) + length (skippedOf os))%nat
  = length os.
Proof.
  induction os as [|o os IH]; [done|].
  unfold successfulOf, failedOf, skippedOf in *.
  destruct o; cbn [mbind list_bind app length] in *; lia.
Qed.

Lemma taskOutcomes_length w p s cfg i episodes :
  length (taskOutcomes w p s cfg i episodes) = length episodes.
Proof. revert i. induction episodes as [|e l IH]; intros i; simpl; [done|]. by rewrite IH. Qed.

Lemma reports_total w p s cfg total i episodes times pr :
  pr ∈ reports w p s cfg total i episodes times → api.total pr = total.
Proof.
  revert i times. induction episodes as [|e l IH]; intros i times; simpl.
  - by intros ?%elem_of_nil.
  - intros [->|Hin]%elem_of_cons; [done|]. by eapply IH.
Qed.

Lemma stats_ready_tasks analysis p s pa sa :
  language_availability analysis !! p = Some pa →
  language_availability analysis !! s = Some sa →
  ready (stats analysis p s) = Z.of_nat (length (episodesToProcess p s pa sa)).
Proof.
  intros Hpa Hsa. unfold stats, episodesToProcess. rewrite Hpa, Hsa. cbn [ready].
  rewrite (length_filter_split (λ ep, episodeHasDualSubtitle ep p s) (episodesWithBoth pa sa)).
  lia.
Qed.
End selection_more2.



(** X9. The "ready" number of the preview step is the size of the run: when
    a bulk run over the same listings completes, its three result lists hold
    together as many entries as the preview counted ready, every progress
    call carries that number as its total, and there is one call per task
    and one more at the end. *)
Theorem ready_is_the_size_of_the_run
    (w : api.World) (primaryLanguage secondaryLanguage : string)
    (stylingConfig : api.DualSubtitleConfig) (listings : list Spec.Listing)
    (res : api.Results) (progress : list api.Progress) :
  api.fetchListings w = api.Returns listings →
  api.processBulkDualSubtitles w primaryLanguage secondaryLanguage stylingConfig
  = api.Returns (res, progress) →
  let ready := EpisodePreviewStep.ready
                 (EpisodePreviewStep.stats (api.getSubtitleAnalysis listings)
                                           primaryLanguage secondaryLanguage) in
  Z.of_nat (length (api.successful res) + length (api.failed res)
            + length (api.skipped res)) = ready
  ∧ Z.of_nat (length progress) = ready + 1
  ∧ (∀ pr, pr ∈ progress → api.total pr = ready).
Proof.
  intros Hfetch (listings' & pa & sa & Hfetch' & Hpa & Hsa & Hres & Hprog)
    %processBulkDualSubtitles_Returns ready.
  rewrite Hfetch in Hfetch'. injection Hfetch' as <-.
  unfold ready. rewrite (stats_ready_tasks _ _ _ _ _ Hpa Hsa).
  destruct (runTasks_closed_form w primaryLanguage secondaryLanguage stylingConfig
              (api.episodesToProcess primaryLanguage secondaryLanguage pa sa))
    as (Hr & _ & Hrep).
  cbn zeta in *. rewrite <- Hres in Hr. rewrite <- Hprog in Hrep.
  split; [|split].
  - rewrite Hr. cbn [api.successful api.failed api.skipped].
    by rewrite length_outcomes, taskOutcomes_length.
  - rewrite Hrep, length_app, reports_length. simpl. lia.
  - intros pr. rewrite Hrep, elem_of_app.
    intros [Hin|Hin]; [by eapply reports_total|].
    by apply list_elem_of_singleton in Hin as ->.
Qed.

Lemma ready_is_the_size_of_the_run_witness :
  ∃ res progress,
    api.processBulkDualSubtitles Run.world "en" "ja" Run.stylingConfig
    = api.Returns (res, progress)
    ∧ Z.of_nat (length (api.successful res) + length (api.failed res)
                + length (api.skipped res))
      = EpisodePreviewStep.ready
          (EpisodePreviewStep.stats (api.getSubtitleAnalysis Run.listings) "en" "ja").
Proof.
  assert (∃ res progress,
            api.processBulkDualSubtitles Run.world "en" "ja" Run.stylingConfig
            = api.Returns (res, progress)) as (res & progress & Hrun)
    by (do 2 eexists; vm_compute; reflexivity).
  exists res, progress. split; [exact Hrun|].
  exact (proj1 (ready_is_the_size_of_the_run Run.world "en" "ja" Run.stylingConfig
                  Run.listings res progress eq_refl Hrun)).
Defined.

(** X10. The numbers shown by the discovery step against those of the
    preview step, for two languages of the analysis and distinct episode
    ids: the discovery step shows the smaller of the two episode counts as
    "Episodes Ready", which is never less than the number of episodes that
    have both languages (ready and already existing in the preview step);
    its "Need Attention" is the difference of the two counts and never more
    than the preview's; the two steps agree on the sum of these numbers and
    on "Will Skip". *)
Theorem discovery_numbers_bound_preview (listings : list Spec.Listing)
    (primaryLanguage secondaryLanguage : string)
    (primaryAvail secondaryAvail : LanguageAvailability) :
  NoDup ((λ entry : Spec.Listing, id entry.1) <$> listings) →
  primaryLanguage ≠ "" → secondaryLanguage ≠ "" →
  language_availability (api.getSubtitleAnalysis listings) !! primaryLanguage
  = Some primaryAvail →
  language_availability (api.getSubtitleAnalysis listings) !! secondaryLanguage
  = Some secondaryAvail →
  let analysis := api.getSubtitleAnalysis listings in
  let st := EpisodePreviewStep.stats analysis primaryLanguage secondaryLanguage in
  ∃ data shown,
    LanguageDiscoveryStep.previewData analysis primaryLanguage secondaryLanguage = Some data
    ∧ LanguageDiscoveryStep.previewNumbers analysis data = Some shown
    ∧ LanguageDiscoveryStep.episodesReady shown
      = Z.min (episodes_available primaryAvail) (episodes_available secondaryAvail)
    ∧ LanguageDiscoveryStep.needAttention shown
      = Z.abs (episodes_available primaryAvail - episodes_available secondaryAvail)
    ∧ EpisodePreviewStep.ready st + EpisodePreviewStep.alreadyExists st
      ≤ LanguageDiscoveryStep.episodesReady shown
    ∧ LanguageDiscoveryStep.needAttention shown ≤ EpisodePreviewStep.needsAttention st
    ∧ LanguageDiscoveryStep.episodesReady shown + LanguageDiscoveryStep.needAttention shown
      = EpisodePreviewStep.ready st + EpisodePreviewStep.alreadyExists st
        + EpisodePreviewStep.needsAttention st
    ∧ LanguageDiscoveryStep.willSkip shown = EpisodePreviewStep.willSkip st.
Proof.
  intros Hnd Hp Hs Hpa Hsa analysis st.
  unfold LanguageDiscoveryStep.previewData, truthyString.
  rewrite !bool_decide_eq_false_2 by done. cbn [negb andb].
  eexists. unfold LanguageDiscoveryStep.previewNumbers.
  cbn [LanguageDiscoveryStep.primary LanguageDiscoveryStep.secondary
       LanguageDiscoveryStep.compatible].
  unfold analysis. rewrite Hpa, Hsa. eexists.
  split; [reflexivity|]. split; [reflexivity|].
  cbn [LanguageDiscoveryStep.episodesReady LanguageDiscoveryStep.needAttention
       LanguageDiscoveryStep.willSkip LanguageDiscoveryStep.availableOrZero
       LanguageDiscoveryStep.compatible].
  unfold st, analysis, EpisodePreviewStep.stats. rewrite Hpa, Hsa.
  cbn [EpisodePreviewStep.ready EpisodePreviewStep.alreadyExists
       EpisodePreviewStep.needsAttention EpisodePreviewStep.willSkip].
  pose proof (length_both_le _ _ _ _ _ Hnd Hpa Hsa) as [Hp' Hs']. cbn zeta.
  lia.
Qed.

Lemma discovery_numbers_bound_preview_witness :
  ∃ data shown,
    LanguageDiscoveryStep.previewData (api.getSubtitleAnalysis Disjoint.listings) "en" "ja"
    = Some data
    ∧ LanguageDiscoveryStep.previewNumbers (api.getSubtitleAnalysis Disjoint.listings) data
      = Some shown
    ∧ LanguageDiscoveryStep.episodesReady shown = 1
    ∧ EpisodePreviewStep.ready
        (EpisodePreviewStep.stats (api.getSubtitleAnalysis Disjoint.listings) "en" "ja") = 0.
Proof.
  assert (∃ pa, language_availability (api.getSubtitleAnalysis Disjoint.listings) !! "en"
                = Some pa) as [pa Hpa] by (eexists; vm_compute; reflexivity).
  assert (∃ sa, language_availability (api.getSubtitleAnalysis Disjoint.listings) !! "ja"
                = Some sa) as [sa Hsa] by (eexists; vm_compute; reflexivity).
  assert (NoDup ((λ entry : Spec.Listing, id entry.1) <$> Disjoint.listings)) as Hnd
    by (apply (bool_decide_unpack _); vm_compute; exact I).
  assert ("en" ≠ "") as Hen by discriminate.
  assert ("ja" ≠ "") as Hja by discriminate.
  destruct (discovery_numbers_bound_preview Disjoint.listings "en" "ja" pa sa
              Hnd Hen Hja Hpa Hsa) as (data & shown & Hd & Hn & Hr & _).
  exists data, shown. split; [exact Hd|]. split; [exact Hn|]. split.
  - rewrite Hr. clear Hr Hn Hd.
    apply getSubtitleAnalysis_Some in Hpa as ->. apply getSubtitleAnalysis_Some in Hsa as ->.
    vm_compute. reflexivity.
  - vm_compute. reflexivity.
Defined.

(** ** The discovery step *)

Section discovery_lemmas.
Import api Spec LanguageDiscoveryStep.

Local Abbreviation avail := (λ x : string * LanguageAvailability, episodes_available x.2).
Local Abbreviation descending := (λ x y : string * LanguageAvailability, avail y ≤ avail x).

Lemma insertEntry_Permutation x l : insertEntry x l ≡ₚ x :: l.
Proof.
  induction l as [|y l IH]; simpl; [done|].
  case_bool_decide; [done|]. by rewrite IH, perm_swap.
Qed.

Lemma sortEntries_Permutation entries : sortEntries entries ≡ₚ entries.
Proof.
  induction entries as [|x l IH]; simpl; [done|].
  by rewrite insertEntry_Permutation, IH.
Qed.

Lemma insertEntry_sorted x l :
  StronglySorted descending l → StronglySorted descending (insertEntry x l).
Proof.
  induction 1 as [|y l Hl IH Hy]; simpl.
  - by repeat constructor.
  - unfold compareFn. case_bool_decide as Hc.
    + constructor; [by constructor|]. constructor; [lia|].
      eapply Forall_impl; [exact Hy|]. intros z Hz. simpl in *. lia.
    + constructor; [done|]. rewrite insertEntry_Permutation.
      constructor; [lia|done].
Qed.

Lemma sortEntries_sorted entries : StronglySorted descending (sortEntries entries).
Proof.
  induction entries as [|x l IH]; simpl; [constructor|]. by apply insertEntry_sorted.
Qed.

Lemma insertEntry_stable a l x y :
  [x; y] `sublist_of` insertEntry a l → avail x = avail y →
  [x; y] `sublist_of` l ∨ (x = a ∧ y ∈ l).
Proof.
  induction l as [|z l IH]; simpl; intros Hsub Heq.
  - apply sublist_length in Hsub. simpl in Hsub. lia.
  - unfold compareFn in Hsub. case_bool_decide as Hc.
    + apply sublist_cons_r in Hsub as [Hsub|(l' & [= -> <-] & Hsub)]; [by left|].
      right. split; [done|]. by apply sublist_cons_l in Hsub as (? & ? & -> & _); set_solver.
    + apply sublist_cons_r in Hsub as [Hsub|(l' & [= -> <-] & Hsub)].
      * destruct (IH Hsub Heq) as [?|[-> ?]].
        -- left. by apply sublist_cons.
        -- right. split; [done|]. by right.
      * assert (y ∈ insertEntry a l) as Hy.
        { apply sublist_cons_l in Hsub as (? & ? & -> & _). set_solver. }
        rewrite insertEntry_Permutation in Hy.
        apply elem_of_cons in Hy as [->|Hy]; [simpl in *; lia|].
        left. apply sublist_skip. by apply singleton_sublist_l.
Qed.

Lemma sortEntries_stable entries x y :
  [x; y] `sublist_of` sortEntries entries → avail x = avail y →
  [x; y] `sublist_of` entries.
Proof.
  induction entries as [|a l IH]; simpl; intros Hsub Heq; [done|].
  destruct (insertEntry_stable _ _ _ _ Hsub Heq) as [Hl|[-> Hy]].
  - apply sublist_cons. by apply IH.
  - apply sublist_skip. apply singleton_sublist_l.
    by rewrite sortEntries_Permutation in Hy.
Qed.

Lemma analysis_key_nonempty listings c :
  is_Some (language_availability (getSubtitleAnalysis listings) !! c) → c ≠ "".
Proof.
  rewrite getSubtitleAnalysis_lookup. intros [la Hla].
  destruct (decide (List.filter (hasLanguage c) listings = [])) as [|Hne]; [done|].
  destruct (List.filter (hasLanguage c) listings) as [|entry l] eqn:Hf; [done|].
  assert (entry ∈ List.filter (hasLanguage c) listings) as Hin by (rewrite Hf; left).
  apply elem_of_filter_bool in Hin as [_ Hin]. by eapply hasLanguage_nonempty.
Qed.

(** Away from the inherited names, a read finds the record of the key or
    nothing. *)
Lemma readProperty_not_inherited analysis key :
  key ∉ inheritedNames analysis →
  readProperty analysis key
  = match ownProperties analysis !! key with
    | Some la => language la
    | None => undefined
    end.
Proof.
  unfold inheritedNames. intros [Hproto Hfields]%not_elem_of_app.
  assert (key ≠ "__proto__") as Hkey.
  { intros ->. apply Hproto. apply (bool_decide_unpack _). vm_compute. exact I. }
  unfold readProperty, ownProperties. rewrite lookup_delete_ne by done.
  destruct (language_availability analysis !! key) as [la|]; [done|].
  destruct (language_availability analysis !! "__proto__") as [proto|]; cbn [mbind option_bind].
  - unfold inheritedField.
    repeat (case_decide; [exfalso; apply Hfields; subst key; set_solver|]).
    by rewrite bool_decide_eq_false_2.
  - by rewrite bool_decide_eq_false_2.
Qed.

(** Under a name of [Object.prototype] a read always finds a truthy
    value. *)
Lemma readProperty_prototype_name analysis key :
  key ∈ Object_prototype_names →
  truthyProperty (readProperty analysis key) = true.
Proof.
  intros Hkey. unfold readProperty.
  destruct (language_availability analysis !! key) as [la|]; [done|].
  assert ((language_availability analysis !! "__proto__"
           ≫= λ proto, inheritedField proto key) = None) as ->.
  { destruct (language_availability analysis !! "__proto__") as [proto|]; [|done].
    cbn [mbind option_bind]. unfold inheritedField.
    repeat (case_decide;
            [exfalso; subst key; revert Hkey;
             apply (bool_decide_unpack _); vm_compute; exact I|]).
    done. }
  by rewrite bool_decide_eq_true_2.
Qed.

Lemma canContinue_true analysis p s :
  canContinue analysis p s = true
  ↔ p ≠ "" ∧ s ≠ "" ∧ p ≠ s
    ∧ truthyProperty (readProperty analysis p) = true
    ∧ truthyProperty (readProperty analysis s) = true.
Proof.
  unfold canContinue, truthyString.
  rewrite !andb_true_iff, !negb_true_iff, !bool_decide_eq_false. tauto.
Qed.

Lemma two_keys {A} (entries : list (string * A)) p s :
  p ∈ entries.*1 → s ∈ entries.*1 → p ≠ s → (2 ≤ length entries)%nat.
Proof.
  destruct entries as [|x [|y l]]; simpl; [by intros ?%elem_of_nil| |lia].
  intros ->%list_elem_of_singleton ->%list_elem_of_singleton. done.
Qed.
End discovery_lemmas.

Lemma sortedLanguages_shape (entries : list (string * LanguageAvailability)) :
  let shown := LanguageDiscoveryStep.sortedLanguages entries in
  let others := drop 6 (LanguageDiscoveryStep.sortEntries entries) in
  length shown = (length entries `min` 6)%nat
  ∧ shown ++ others ≡ₚ entries
  ∧ (∀ x y, x ∈ shown → y ∈ others →
            episodes_available y.2 ≤ episodes_available x.2)
  ∧ (∀ n x y, x ∈ take n shown → y ∈ drop n shown →
              episodes_available y.2 ≤ episodes_available x.2).
Proof.
  intros shown others. unfold shown, others, LanguageDiscoveryStep.sortedLanguages.
  split; [|split; [|split]].
  - rewrite length_take, (Permutation_length (sortEntries_Permutation entries)). lia.
  - by rewrite take_drop, sortEntries_Permutation.
  - intros x y Hx Hy.
    pose proof (sortEntries_sorted entries) as Hs.
    rewrite <- (take_drop 6 (LanguageDiscoveryStep.sortEntries entries)) in Hs.
    exact (StronglySorted_app_1_elem_of _ _ _ _ _ Hs Hx Hy).
  - intros n x y Hx Hy.
    pose proof (sortEntries_sorted entries) as Hs.
    rewrite <- (take_drop 6 (LanguageDiscoveryStep.sortEntries entries)) in Hs.
    apply StronglySorted_app_1_l in Hs.
    rewrite <- (take_drop n (take 6 (LanguageDiscoveryStep.sortEntries entries))) in Hs.
    exact (StronglySorted_app_1_elem_of _ _ _ _ _ Hs Hx Hy).
Qed.

(** X11. The languages offered by the discovery step, for the entries of the
    analysis in the order [Object.entries] gives them: at most six are
    offered, all of them when there are no more than six; they are entries
    of the analysis and, together with the ones left out, all of them; no
    language left out has more episodes than one that is offered; they are
    listed by decreasing number of episodes; and two languages with the same
    number of episodes are listed in the order of the entries. *)
Theorem sortedLanguages_top_six (entries : list (string * LanguageAvailability)) :
  let shown := LanguageDiscoveryStep.sortedLanguages entries in
  let others := drop 6 (LanguageDiscoveryStep.sortEntries entries) in
  length shown = (length entries `min` 6)%nat
  ∧ shown ++ others ≡ₚ entries
  ∧ (∀ x y, x ∈ shown → y ∈ others →
            episodes_available y.2 ≤ episodes_available x.2)
  ∧ (∀ n x y, x ∈ take n shown → y ∈ drop n shown →
              episodes_available y.2 ≤ episodes_available x.2)
  ∧ (∀ x y, [x; y] `sublist_of` shown →
            episodes_available x.2 = episodes_available y.2 →
            [x; y] `sublist_of` entries).
Proof.
  intros shown others.
  destruct (sortedLanguages_shape entries) as (Hlen & Hperm & Hothers & Hsorted).
  split; [done|]. split; [done|]. split; [done|]. split; [done|].
  intros x y Hsub Heq. apply sortEntries_stable; [|done].
  etrans; [exact Hsub|]. apply sublist_take.
Qed.

(** X12. Leaving the discovery step, for the languages of the analysis as
    [Object.entries] lists them. For two codes that are not names of
    inherited properties, [canContinue] holds exactly when they are two
    different listed languages; so when fewer than two languages are listed,
    it holds for no selection of such codes. It does hold for a name of
    [Object.prototype], such as "constructor", together with any listed
    language. When at least two languages are listed and nothing is
    selected, the automatic selection takes the first two offered
    languages, the first with at least as many episodes as the second and
    the second with at least as many as any further listed language; this
    selection can continue, and [handleContinue] hands it over. *)
Theorem autoSelect_can_continue (listings : list Spec.Listing)
    (entries : list (string * LanguageAvailability)) :
  let analysis := api.getSubtitleAnalysis listings in
  entries ≡ₚ map_to_list (api.ownProperties analysis) →
  (∀ p s, p ∉ Spec.inheritedNames analysis → s ∉ Spec.inheritedNames analysis →
          LanguageDiscoveryStep.canContinue analysis p s = true
          ↔ p ≠ s ∧ p ∈ entries.*1 ∧ s ∈ entries.*1)
  ∧ ((length entries < 2)%nat →
     ∀ p s, p ∉ Spec.inheritedNames analysis → s ∉ Spec.inheritedNames analysis →
            LanguageDiscoveryStep.canContinue analysis p s = false)
  ∧ (∀ p s, p ∈ Object_prototype_names → s ∈ entries.*1 → p ≠ s →
            LanguageDiscoveryStep.canContinue analysis p s = true)
  ∧ ((2 ≤ length entries)%nat →
     ∃ p s pa sa,
       LanguageDiscoveryStep.autoSelect (LanguageDiscoveryStep.sortedLanguages entries) "" ""
       = (p, s)
       ∧ (p, pa) ∈ entries ∧ (s, sa) ∈ entries ∧ p ≠ s
       ∧ api.readProperty analysis p = api.language pa
       ∧ api.readProperty analysis s = api.language sa
       ∧ episodes_available sa ≤ episodes_available pa
       ∧ (∀ c la, (c, la) ∈ entries → c ≠ p → c ≠ s →
                  episodes_available la ≤ episodes_available sa)
       ∧ LanguageDiscoveryStep.canContinue analysis p s = true
       ∧ LanguageDiscoveryStep.handleContinue p s = Some (p, s)).
Proof.
  intros analysis Hperm.
  assert (∀ c la, (c, la) ∈ entries ↔ api.ownProperties analysis !! c = Some la) as Hin.
  { intros c la. by rewrite Hperm, elem_of_map_to_list. }
  assert (NoDup entries.*1) as Hnd.
  { rewrite Hperm. apply NoDup_fst_map_to_list. }
  assert (∀ c la, (c, la) ∈ entries →
            language_availability analysis !! c = Some la) as Hmap.
  { intros c la Hla%Hin. unfold api.ownProperties in Hla.
    by apply lookup_delete_Some in Hla as [_ Hla]. }
  assert (∀ c la, (c, la) ∈ entries →
            c ≠ "" ∧ api.readProperty analysis c = api.language la) as Hentry.
  { intros c la Hla%Hmap. split.
    - apply (analysis_key_nonempty listings). by exists la.
    - by apply readProperty_language. }
  assert (∀ p s, p ∉ Spec.inheritedNames analysis → s ∉ Spec.inheritedNames analysis →
            LanguageDiscoveryStep.canContinue analysis p s = true
            ↔ p ≠ s ∧ p ∈ entries.*1 ∧ s ∈ entries.*1) as Hiff.
  { intros p s Hp Hs. rewrite canContinue_true.
    rewrite (readProperty_not_inherited _ _ Hp), (readProperty_not_inherited _ _ Hs).
    split.
    - intros (_ & _ & Hne & Hpt & Hst). split; [done|].
      destruct (api.ownProperties analysis !! p) as [pa|] eqn:Hpa; [|done].
      destruct (api.ownProperties analysis !! s) as [sa|] eqn:Hsa; [|done].
      apply Hin in Hpa, Hsa. split.
      + apply list_elem_of_fmap. by exists (p, pa).
      + apply list_elem_of_fmap. by exists (s, sa).
    - intros (Hne & ([p' pa] & -> & Hpa)%list_elem_of_fmap
                  & ([s' sa] & -> & Hsa)%list_elem_of_fmap).
      cbn [fst] in *.
      destruct (Hentry _ _ Hpa) as [Hp' _]. destruct (Hentry _ _ Hsa) as [Hs' _].
      apply Hin in Hpa, Hsa. by rewrite Hpa, Hsa. }
  split; [exact Hiff|]. split; [|split].
  - intros Hlen p s Hp Hs. apply not_true_is_false.
    intros (Hne & Hpe & Hse)%Hiff; [|done|done].
    pose proof (two_keys _ _ _ Hpe Hse Hne). lia.
  - intros p s Hp ([s' sa] & -> & Hsa)%list_elem_of_fmap Hne. cbn [fst] in *.
    destruct (Hentry _ _ Hsa) as [Hs' Hread].
    apply canContinue_true. split; [|split; [done|split; [done|split]]].
    + intros ->. revert Hp. apply (bool_decide_unpack _). vm_compute. exact I.
    + by apply readProperty_prototype_name.
    + by rewrite Hread.
  - intros Hlen.
    pose proof (sortedLanguages_shape entries) as Hshape.
    destruct (LanguageDiscoveryStep.sortedLanguages entries) as [|[p pa] [|[s sa] rest]] eqn:Hs.
    1,2: exfalso; destruct Hshape as [Hl _]; simpl in Hl; lia.
    destruct Hshape as (_ & Happ & Hout & Hdesc).
    assert ((p, pa) ∈ entries ∧ (s, sa) ∈ entries) as [Hp Hs'].
    { rewrite <- Happ. set_solver. }
    assert (p ≠ s) as Hne.
    { rewrite <- Happ in Hnd. rewrite fmap_app in Hnd. apply NoDup_app in Hnd as [Hnd _].
      simpl in Hnd. apply NoDup_cons in Hnd as [Hnd _]. set_solver. }
    destruct (Hentry _ _ Hp) as [Hpne Hpread].
    destruct (Hentry _ _ Hs') as [Hsne Hsread].
    exists p, s, pa, sa. split; [reflexivity|].
    split; [done|]. split; [done|]. split; [done|]. split; [done|]. split; [done|].
    split; [|split; [|split]].
    + apply (Hdesc 1%nat (p, pa) (s, sa)); simpl; set_solver.
    + intros c la Hla Hcp Hcs. rewrite <- Happ in Hla.
      apply elem_of_app in Hla as [Hla|Hla].
      * apply (Hdesc 2%nat (s, sa) (c, la)); simpl; [set_solver|].
        apply elem_of_cons in Hla as [[= -> ->]|Hla]; [done|].
        apply elem_of_cons in Hla as [[= -> ->]|Hla]; [done|]. done.
      * apply (Hout (s, sa) (c, la)); [set_solver|done].
    + apply canContinue_true. by rewrite Hpread, Hsread.
    + unfold LanguageDiscoveryStep.handleContinue, truthyString.
      rewrite !(bool_decide_eq_false_2 (_ = "")) by done.
      by rewrite (bool_decide_eq_false_2 (p = s)) by done.
Qed.

Lemma autoSelect_can_continue_witness :
  (∃ p s,
     LanguageDiscoveryStep.autoSelect
       (LanguageDiscoveryStep.sortedLanguages
          (map_to_list (api.ownProperties (api.getSubtitleAnalysis Scenario.listings))))
       "" "" = (p, s)
     ∧ LanguageDiscoveryStep.canContinue (api.getSubtitleAnalysis Scenario.listings) p s
       = true)
  ∧ LanguageDiscoveryStep.canContinue (api.getSubtitleAnalysis Scenario.listings)
      "constructor" "en" = true
  ∧ LanguageDiscoveryStep.canContinue (api.getSubtitleAnalysis Scenario.listings)
      "nl" "en" = false.
Proof.
  destruct (autoSelect_can_continue Scenario.listings
              (map_to_list (api.ownProperties (api.getSubtitleAnalysis Scenario.listings)))
              (reflexivity _)) as (Hiff & _ & Hinherited & Hsel).
  split; [|split].
  - destruct Hsel as (p & s & pa & sa & Hsel & _ & _ & _ & _ & _ & _ & _ & Hcan & _).
    + vm_compute. lia.
    + exists p, s. split; [exact Hsel | exact Hcan].
  - apply Hinherited; [| |discriminate].
    + apply (bool_decide_unpack _). vm_compute. exact I.
    + apply (bool_decide_unpack _). vm_compute. exact I.
  - apply not_true_is_false. intros (_ & Hnl & _)%Hiff.
    + revert Hnl. apply (bool_decide_unpack _). vm_compute. exact I.
    + apply (bool_decide_unpack _). vm_compute. exact I.
    + apply (bool_decide_unpack _). vm_compute. exact I.
Defined.

(** X13. A bulk run, whose progress callback returns, throws only before
    its first task, and in four ways: with the error of the request when the
    listings of the show cannot be fetched; with the message "Selected
    languages not available in this show" when the value read from the
    analysis for one of the two languages is falsy; and with a [TypeError]
    when both values are truthy but one of them is no record, which is the
    case of a code that is the name of an inherited property: on [filter]
    for the primary language, on [some] for the secondary one. For a
    selection that the discovery step lets continue, over the same
    listings, and whose codes are no inherited names, the run returns its
    results whatever the requests of its tasks answer. *)
Theorem bulk_run_throws_only_before_tasks
    (w : api.World) (primaryLanguage secondaryLanguage : string)
    (stylingConfig : api.DualSubtitleConfig) :
  let run := api.processBulkDualSubtitles w primaryLanguage secondaryLanguage
               stylingConfig in
  let failure (text : string) :=
    {| api.message := Some text;
       api.code := None; api.response_status := None; api.response_detail := None |} in
  (∀ error,
     run = api.Throws error
     ↔ api.fetchListings w = api.Throws error
       ∨ ∃ listings primaryAvail secondaryAvail,
           api.fetchListings w = api.Returns listings
           ∧ api.readProperty (api.getSubtitleAnalysis listings) primaryLanguage
             = primaryAvail
           ∧ api.readProperty (api.getSubtitleAnalysis listings) secondaryLanguage
             = secondaryAvail
           ∧ ((api.truthyProperty primaryAvail && api.truthyProperty secondaryAvail = false
               ∧ error = failure "Selected languages not available in this show")
              ∨ (primaryAvail = api.inheritedValue true
                 ∧ api.truthyProperty secondaryAvail = true
                 ∧ error = failure (api.typeErrorMessage w "filter"))
              ∨ ((∃ la, primaryAvail = api.language la)
                 ∧ secondaryAvail = api.inheritedValue true
                 ∧ error = failure (api.typeErrorMessage w "some"))))
  ∧ (∀ listings,
       api.fetchListings w = api.Returns listings →
       LanguageDiscoveryStep.canContinue (api.getSubtitleAnalysis listings)
         primaryLanguage secondaryLanguage = true →
       primaryLanguage ∉ Spec.inheritedNames (api.getSubtitleAnalysis listings) →
       secondaryLanguage ∉ Spec.inheritedNames (api.getSubtitleAnalysis listings) →
       ∃ res progress, run = api.Returns (res, progress)).
Proof.
  intros run failure. unfold run, api.processBulkDualSubtitles. split.
  - intros error. destruct (api.fetchListings w) as [listings|e]; cycle 1.
    { split; [intros [= ->]; by left|].
      intros [[= ->]|(l & ? & ? & ? & _)]; [done|congruence]. }
    cbv zeta.
    destruct (api.readProperty _ primaryLanguage) as [|pa|[]] eqn:Hpa;
      destruct (api.readProperty _ secondaryLanguage) as [|sa|[]] eqn:Hsa;
      cbn [api.truthyProperty negb orb andb];
      try (split;
           [ intros [= <-]; right; exists listings; do 2 eexists;
             split; [reflexivity|]; split; [exact Hpa|]; split; [exact Hsa|];
             first [ by left | by right; left | by right; right; eauto ]
           | intros [?|(l & pv & sv & [= <-] & Hp & Hs & Hcase)]; [done|];
             rewrite Hpa in Hp; rewrite Hsa in Hs; subst pv sv;
             destruct Hcase as [[Hf ->]|[(Hp & Hs & ->)|([la Hp] & Hs & ->)]];
             try done; reflexivity ]).
    + split; [done|].
      intros [?|(l & pv & sv & [= <-] & Hp & Hs & Hcase)]; [done|].
      rewrite Hpa in Hp; rewrite Hsa in Hs; subst pv sv.
      by destruct Hcase as [[Hf ->]|[(Hp & Hs & ->)|([la Hp] & Hs & ->)]].
    + apply readProperty_language in Hpa as Hpa'.
      pose proof (details_nonempty _ _ _ Hpa') as Hne.
      destruct (episode_details pa) as [|ep rest]; [done|].
      split.
      * intros [= <-]. right. exists listings. do 2 eexists.
        split; [reflexivity|]. split; [exact Hpa|]. split; [exact Hsa|].
        right; right. eauto.
      * intros [?|(l & pv & sv & [= <-] & Hp & Hs & Hcase)]; [done|].
        rewrite Hpa in Hp; rewrite Hsa in Hs; subst pv sv.
        by destruct Hcase as [[Hf ->]|[(Hp & Hs & ->)|([la Hp] & Hs & ->)]].
  - intros listings -> Hcan Hp Hs. apply canContinue_true in Hcan as (_ & _ & _ & Hpt & Hst).
    rewrite (readProperty_not_inherited _ _ Hp) in *.
    rewrite (readProperty_not_inherited _ _ Hs) in *.
    destruct (api.ownProperties _ !! primaryLanguage); [|done].
    destruct (api.ownProperties _ !! secondaryLanguage); [|done].
    cbn. eauto.
Qed.

Lemma bulk_run_throws_only_before_tasks_witness :
  (∃ res progress,
     api.processBulkDualSubtitles Run.world "en" "ja" Run.stylingConfig
     = api.Returns (res, progress))
  ∧ api.processBulkDualSubtitles Run.world "constructor" "en" Run.stylingConfig
    = api.Throws
        {| api.message := Some "Cannot read properties of undefined (reading 'filter')";
           api.code := None; api.response_status := None; api.response_detail := None |}.
Proof.
  split.
  - apply (proj2 (bulk_run_throws_only_before_tasks Run.world "en" "ja" Run.stylingConfig)
             Run.listings).
    + reflexivity.
    + vm_compute. reflexivity.
    + apply (bool_decide_unpack _). vm_compute. exact I.
    + apply (bool_decide_unpack _). vm_compute. exact I.
  - apply (proj1 (bulk_run_throws_only_before_tasks Run.world "constructor" "en"
                    Run.stylingConfig)).
    right. exists Run.listings. do 2 eexists.
    split; [reflexivity|]. split; [reflexivity|]. split; [reflexivity|].
    right. left. split; [vm_compute; reflexivity|]. split; vm_compute; reflexivity.
Defined.

(** ** More on the bulk run *)

Section run_more.
Import api Spec RunSpec.
Context (w : World) (primaryLanguage secondaryLanguage : string)
        (stylingConfig : DualSubtitleConfig).

Local Abbreviation taskOutcome :=
  (taskOutcome w primaryLanguage secondaryLanguage stylingConfig).
Local Abbreviation taskOutcomes :=
  (taskOutcomes w primaryLanguage secondaryLanguage stylingConfig).
Local Abbreviation reports :=
  (reports w primaryLanguage secondaryLanguage stylingConfig).

Lemma sublist_filter_bool {A} (P : A → bool) (l : list A) : List.filter P l `sublist_of` l.
Proof.
  induction l as [|a l IH]; simpl; [done|].
  destruct (P a); [by apply sublist_skip | by apply sublist_cons].
Qed.

Lemma successfulOf_sublist i episodes :
  (λ e, (s_episode_id e, s_episode_title e)) <$> successfulOf (taskOutcomes i episodes)
  `sublist_of` (λ ep, (episode_id ep, title ep)) <$> episodes.
Proof.
  revert i. induction episodes as [|ep rest IH]; intros i; [done|].
  specialize (IH (S i)). unfold successfulOf in *. cbn [RunSpec.taskOutcomes mbind list_bind].
  destruct (taskOutcome i ep) as [entry d| |] eqn:Ho; cbn [app fmap list_fmap];
    try (by apply sublist_cons).
  unfold RunSpec.taskOutcome in Ho. repeat case_match; simplify_eq.
  by apply sublist_skip.
Qed.

Lemma failedOf_sublist i episodes :
  (λ e, (f_episode_id e, f_episode_title e)) <$> failedOf (taskOutcomes i episodes)
  `sublist_of` (λ ep, (episode_id ep, title ep)) <$> episodes.
Proof.
  revert i. induction episodes as [|ep rest IH]; intros i; [done|].
  specialize (IH (S i)). unfold failedOf in *. cbn [RunSpec.taskOutcomes mbind list_bind].
  destruct (taskOutcome i ep) as [|entry|] eqn:Ho; cbn [app fmap list_fmap];
    try (by apply sublist_cons).
  unfold RunSpec.taskOutcome in Ho. repeat case_match; simplify_eq;
    by apply sublist_skip.
Qed.

Lemma skippedOf_sublist i episodes :
  k_episode_id <$> skippedOf (taskOutcomes i episodes)
  `sublist_of` episode_id <$> episodes.
Proof.
  revert i. induction episodes as [|ep rest IH]; intros i; [done|].
  specialize (IH (S i)). unfold skippedOf in *. cbn [RunSpec.taskOutcomes mbind list_bind].
  destruct (taskOutcome i ep) as [| |entry] eqn:Ho; cbn [app fmap list_fmap];
    try (by apply sublist_cons).
  unfold RunSpec.taskOutcome in Ho. repeat case_match; simplify_eq.
  by apply sublist_skip.
Qed.

Lemma reports_currentEpisode total i episodes times :
  currentEpisode <$> reports total i episodes times
  = (λ ep, Some (season_episode ep +:+ ": " +:+ title ep)) <$> episodes.
Proof.
  revert i times. induction episodes as [|ep rest IH]; intros i times; [done|].
  cbn [RunSpec.reports fmap list_fmap]. f_equal. apply IH.
Qed.

Lemma tasks_sublist (f : EpisodeSubtitleInfo → string * string) listings pa sa c :
  language_availability (getSubtitleAnalysis listings) !! c = Some pa →
  f <$> episodesToProcess primaryLanguage secondaryLanguage pa sa
  `sublist_of` (λ entry, f (infoOf entry)) <$> listings.
Proof.
  intros ->%getSubtitleAnalysis_Some. rewrite (list_fmap_compose infoOf f).
  apply fmap_sublist. unfold episodesToProcess, episodesWithBoth. cbn [episode_details].
  etrans; [apply sublist_filter_bool|]. etrans; [apply sublist_filter_bool|].
  apply fmap_sublist, sublist_filter_bool.
Qed.

Lemma errorMessageOf_nonempty error : errorMessageOf error ≠ "".
Proof.
  unfold errorMessageOf. repeat case_match; try done; by apply or_default_nonempty'.
Qed.

Lemma missingLanguage_Some subs lang :
  missingLanguage primaryLanguage secondaryLanguage subs = Some lang →
  lang = primaryLanguage ∨ lang = secondaryLanguage.
Proof. unfold missingLanguage. repeat case_match; naive_solver. Qed.

Lemma failedOf_error i episodes f :
  f ∈ failedOf (taskOutcomes i episodes) → f_error f ≠ "".
Proof.
  revert i. induction episodes as [|e rest IH]; intros i.
  - by intros ?%elem_of_nil.
  - unfold failedOf. cbn [RunSpec.taskOutcomes mbind list_bind]. rewrite elem_of_app.
    intros [Hf|Hf]; [|by eapply IH].
    destruct (taskOutcome i e) as [|entry|] eqn:Ho; try (by apply elem_of_nil in Hf).
    apply list_elem_of_singleton in Hf as ->.
    unfold RunSpec.taskOutcome in Ho.
    repeat case_match; simplify_eq; apply errorMessageOf_nonempty.
Qed.

Lemma skippedOf_reason i episodes k :
  k ∈ skippedOf (taskOutcomes i episodes) →
  k_reason k = "Missing " +:+ primaryLanguage +:+ " subtitle"
  ∨ k_reason k = "Missing " +:+ secondaryLanguage +:+ " subtitle".
Proof.
  revert i. induction episodes as [|e rest IH]; intros i.
  - by intros ?%elem_of_nil.
  - unfold skippedOf. cbn [RunSpec.taskOutcomes mbind list_bind]. rewrite elem_of_app.
    intros [Hk|Hk]; [|by eapply IH].
    destruct (taskOutcome i e) as [| |entry] eqn:Ho; try (by apply elem_of_nil in Hk).
    apply list_elem_of_singleton in Hk as ->.
    unfold RunSpec.taskOutcome in Ho.
    destruct (getEpisodeSubtitles w i (episode_id e)) as [subs|]; [|done].
    destruct (missingLanguage _ _ subs) as [lang|] eqn:Hm; [|by case_match].
    injection Ho as <-. cbn [k_reason].
    by destruct (missingLanguage_Some _ _ Hm) as [->| ->]; [left|right].
Qed.
End run_more.

(** X14. The results of a bulk run keep the order of the show and the titles
    of its episodes: the ids and titles in [successful], those in [failed]
    and the ids in [skipped] are each, in their order, a selection from the
    episodes of the show in the order of the listings; and the episodes
    named by the progress calls are such a selection too, followed by the
    last call that names none. *)
Theorem results_keep_show_order
    (w : api.World) (primaryLanguage secondaryLanguage : string)
    (stylingConfig : api.DualSubtitleConfig) (listings : list Spec.Listing)
    (res : api.Results) (progress : list api.Progress) :
  api.fetchListings w = api.Returns listings →
  api.processBulkDualSubtitles w primaryLanguage secondaryLanguage stylingConfig
  = api.Returns (res, progress) →
  let shown := (λ entry : Spec.Listing, (id entry.1, ep_title entry.1)) <$> listings in
  (λ e, (api.s_episode_id e, api.s_episode_title e)) <$> api.successful res
    `sublist_of` shown
  ∧ (λ e, (api.f_episode_id e, api.f_episode_title e)) <$> api.failed res
    `sublist_of` shown
  ∧ api.k_episode_id <$> api.skipped res `sublist_of` shown.*1
  ∧ ∃ named,
      api.currentEpisode <$> progress = (Some <$> named) ++ [None]
      ∧ named `sublist_of`
          (λ entry : Spec.Listing,
             ep_season_episode entry.1 +:+ ": " +:+ ep_title entry.1) <$> listings.
Proof.
  intros Hfetch (listings' & pa & sa & Hfetch' & Hpa & Hsa & Hres & Hprog)
    %processBulkDualSubtitles_Returns shown.
  rewrite Hfetch in Hfetch'. injection Hfetch' as <-.
  destruct (runTasks_closed_form w primaryLanguage secondaryLanguage stylingConfig
              (api.episodesToProcess primaryLanguage secondaryLanguage pa sa))
    as (Hr & _ & Hrep).
  cbn zeta in *. rewrite <- Hres in Hr. rewrite <- Hprog in Hrep.
  pose proof (tasks_sublist primaryLanguage secondaryLanguage
                (λ ep, (episode_id ep, title ep)) listings pa sa _ Hpa) as Htasks.
  rewrite Hr. cbn [api.successful api.failed api.skipped].
  split; [|split; [|split]].
  - etrans; [apply successfulOf_sublist|exact Htasks].
  - etrans; [apply failedOf_sublist|exact Htasks].
  - etrans; [apply skippedOf_sublist|].
    unfold shown. rewrite <- !list_fmap_compose.
    apply (fmap_sublist fst) in Htasks. by rewrite <- !list_fmap_compose in Htasks.
  - exists ((λ ep, season_episode ep +:+ ": " +:+ title ep)
              <$> api.episodesToProcess primaryLanguage secondaryLanguage pa sa).
    split.
    + rewrite Hrep, fmap_app, reports_currentEpisode, <- list_fmap_compose. done.
    + pose proof (tasks_sublist primaryLanguage secondaryLanguage
                    (λ ep, (season_episode ep +:+ ": " +:+ title ep, ""))
                    listings pa sa _ Hpa) as Hnamed.
      apply (fmap_sublist fst) in Hnamed. by rewrite <- !list_fmap_compose in Hnamed.
Qed.

Lemma results_keep_show_order_witness :
  ∃ res progress,
    api.processBulkDualSubtitles Run.world "en" "ja" Run.stylingConfig
    = api.Returns (res, progress)
    ∧ api.k_episode_id <$> api.skipped res
      `sublist_of` (λ entry : Spec.Listing, id entry.1) <$> Run.listings.
Proof.
  assert (∃ res progress,
            api.processBulkDualSubtitles Run.world "en" "ja" Run.stylingConfig
            = api.Returns (res, progress)) as (res & progress & Hrun)
    by (do 2 eexists; vm_compute; reflexivity).
  exists res, progress. split; [exact Hrun|].
  destruct (results_keep_show_order Run.world "en" "ja" Run.stylingConfig
              Run.listings res progress eq_refl Hrun) as (_ & _ & Hk & _).
  by rewrite <- list_fmap_compose in Hk.
Defined.

(** X15. Every entry that a completed bulk run leaves in [failed] carries a
    non-empty error message, and every entry in [skipped] carries the reason
    "Missing <language> subtitle" for the primary or the secondary language
    of the run. *)
Theorem unfinished_tasks_carry_a_reason
    (w : api.World) (primaryLanguage secondaryLanguage : string)
    (stylingConfig : api.DualSubtitleConfig)
    (res : api.Results) (progress : list api.Progress) :
  api.processBulkDualSubtitles w primaryLanguage secondaryLanguage stylingConfig
  = api.Returns (res, progress) →
  (∀ f, f ∈ api.failed res → api.f_error f ≠ "")
  ∧ (∀ k, k ∈ api.skipped res →
          api.k_reason k = "Missing " +:+ primaryLanguage +:+ " subtitle"
          ∨ api.k_reason k = "Missing " +:+ secondaryLanguage +:+ " subtitle").
Proof.
  intros (listings & pa & sa & _ & _ & _ & Hres & _)%processBulkDualSubtitles_Returns.
  destruct (runTasks_closed_form w primaryLanguage secondaryLanguage stylingConfig
              (api.episodesToProcess primaryLanguage secondaryLanguage pa sa))
    as (Hr & _).
  cbn zeta in *. rewrite <- Hres in Hr. rewrite Hr. cbn [api.failed api.skipped].
  split.
  - intros f. apply failedOf_error.
  - intros k. apply skippedOf_reason.
Qed.

Lemma unfinished_tasks_carry_a_reason_witness :
  ∃ res progress,
    api.processBulkDualSubtitles Run.world "en" "ja" Run.stylingConfig
    = api.Returns (res, progress)
    ∧ ∀ f, f ∈ api.failed res → api.f_error f ≠ "".
Proof.
  assert (∃ res progress,
            api.processBulkDualSubtitles Run.world "en" "ja" Run.stylingConfig
            = api.Returns (res, progress)) as (res & progress & Hrun)
    by (do 2 eexists; vm_compute; reflexivity).
  exists res, progress. split; [exact Hrun|].
  exact (proj1 (unfinished_tasks_carry_a_reason Run.world "en" "ja" Run.stylingConfig
                  res progress Hrun)).
Defined.

(** ** The display of the remaining time *)

Section format_lemmas.
Import api Text.





Lemma Math_round_nonneg (x : Qc) : (0 ≤ x)%Qc → 0 ≤ Math_round x.
Proof.
  intros Hx. unfold Math_round.
  assert (0 ≤ x + Q2Qc (1 # 2))%Qc as H by (by apply Qcplus_nonneg_nonneg).
  apply Qfloor_resp_le in H. exact H.
Qed.



End format_lemmas.



Section estimate_lemmas.
Import api RunSpec.
Context (w : World) (primaryLanguage secondaryLanguage : string)
        (stylingConfig : DualSubtitleConfig).

Lemma Qc_of_Z_nonneg (z : Z) : 0 ≤ z → (0 ≤ Qc_of_Z z)%Qc.
Proof.
  intros Hz. pose proof (proj1 (Z2Qc_inj_le 0 z) Hz) as H. by rewrite Z2Qc_inj_0 in H.
Qed.

Lemma Qc_of_Z_pos (z : Z) : 0 < z → (0 < Qc_of_Z z)%Qc.
Proof.
  intros Hz. pose proof (proj1 (Z2Qc_inj_lt 0 z) Hz) as H. by rewrite Z2Qc_inj_0 in H.
Qed.

Lemma sumTimes_nonneg times : Forall (λ d, 0 ≤ d) times → (0 ≤ sumTimes times)%Qc.
Proof.
  induction times as [|d times IH] using rev_ind; [done|].
  intros [Htimes Hd]%Forall_app. apply Forall_inv in Hd.
  rewrite sumTimes_snoc. apply round64_nonneg.
  apply (Qcplus_le_compat 0 (sumTimes times) 0 (Qc_of_Z d));
    [by apply IH|by apply Qc_of_Z_nonneg].
Qed.

Lemma averageTimePerEpisodeOf_nonneg times :
  Forall (λ d, 0 ≤ d) times → (0 ≤ averageTimePerEpisodeOf times)%Qc.
Proof.
  intros Hall. unfold averageTimePerEpisodeOf. case_bool_decide as Hlen.
  - apply round64_nonneg, Qcmult_nonneg_nonneg.
    + by apply sumTimes_nonneg.
    + apply Qclt_le_weak, Qcinv_pos, Qc_of_Z_pos. lia.
  - by apply Qc_of_Z_nonneg.
Qed.

Lemma durationsOf_nonneg i episodes :
  (∀ j, episodeStartTime w j ≤ episodeEndTime w j) →
  Forall (λ d, 0 ≤ d)
         (durationsOf (taskOutcomes w primaryLanguage secondaryLanguage stylingConfig
                                    i episodes)).
Proof.
  intros Hclock. revert i. induction episodes as [|e rest IH]; intros i; [constructor|].
  unfold durationsOf in *. cbn [RunSpec.taskOutcomes mbind list_bind].
  apply Forall_app. split; [|apply IH].
  destruct (taskOutcome w primaryLanguage secondaryLanguage stylingConfig i e)
    as [entry d| |] eqn:Ho; try constructor; [|constructor].
  unfold RunSpec.taskOutcome in Ho. repeat case_match; simplify_eq.
  specialize (Hclock i). lia.
Qed.
End estimate_lemmas.

(** X17. When the clock does not run backwards during the tasks, every
    progress call of the loop reports a non-negative average time per
    episode and displays an estimate computed from a non-negative number of
    milliseconds. *)
Theorem estimates_are_not_negative
    (w : api.World) (primaryLanguage secondaryLanguage : string)
    (stylingConfig : api.DualSubtitleConfig) (tasks : list EpisodeSubtitleInfo)
    (n : nat) (pr : api.Progress) :
  (∀ i, api.episodeStartTime w i ≤ api.episodeEndTime w i) →
  (n < length tasks)%nat →
  api.reported (api.runTasks w primaryLanguage secondaryLanguage stylingConfig tasks) !! n
  = Some pr →
  ∃ (ms : Qc) (average : Z),
    api.estimatedTimeRemaining pr = Some (api.formatTimeRemaining ms)
    ∧ (0 ≤ ms)%Qc
    ∧ api.averageTimePerEpisode pr = Some average
    ∧ 0 ≤ average.
Proof.
  intros Hclock Hn Hpr.
  destruct (runTasks_closed_form w primaryLanguage secondaryLanguage stylingConfig tasks)
    as (_ & _ & Hrep).
  cbn zeta in Hrep. rewrite Hrep in Hpr.
  rewrite lookup_app_l in Hpr by (by rewrite reports_length).
  destruct (lookup_lt_is_Some_2 tasks n Hn) as [episode Hep].
  rewrite (reports_lookup _ _ _ _ _ _ _ _ _ _ Hep) in Hpr. injection Hpr as <-.
  cbn [api.progressAt api.estimatedTimeRemaining api.averageTimePerEpisode app].
  pose proof (averageTimePerEpisodeOf_nonneg _
                (durationsOf_nonneg w primaryLanguage secondaryLanguage stylingConfig
                   0 (take n tasks) Hclock)) as Havg.
  eexists _, _. split; [reflexivity|]. split; [|split; [reflexivity|]].
  - unfold api.estimatedRemainingMs. apply round64_nonneg, Qcmult_nonneg_nonneg; [|done].
    apply Qc_of_Z_nonneg. lia.
  - apply Math_round_nonneg, round64_nonneg.
    apply Qcmult_nonneg_nonneg; [done|].
    apply Qclt_le_weak, Qcinv_pos, Qc_of_Z_pos. lia.
Qed.

Lemma estimates_are_not_negative_witness :
  ∃ (ms : Qc),
    api.estimatedTimeRemaining
      <$> api.reported (api.runTasks Run.world "en" "ja" Run.stylingConfig Run.tasks) !! 1%nat
    = Some (Some (api.formatTimeRemaining ms))
    ∧ (0 ≤ ms)%Qc.
Proof.
  assert (∃ pr, api.reported (api.runTasks Run.world "en" "ja" Run.stylingConfig Run.tasks)
                  !! 1%nat = Some pr) as [pr Hpr] by (eexists; vm_compute; reflexivity).
  assert (∀ i, api.episodeStartTime Run.world i ≤ api.episodeEndTime Run.world i) as Hclock.
  { intros i. cbn. destruct (bool_decide (i = 0%nat)); lia. }
  assert (1 < length Run.tasks)%nat as Hn by (vm_compute; lia).
  destruct (estimates_are_not_negative Run.world "en" "ja" Run.stylingConfig Run.tasks
              1%nat pr Hclock Hn Hpr) as (ms & _ & Hms & Hpos & _).
  exists ms. rewrite Hpr. cbn [fmap option_fmap option_map]. rewrite Hms. done.
Defined.

(** ** More on the language detection *)

Section detection_more.
Import languageDetection.

Local Arguments canon_eq : simpl never.
Local Arguments in_class : simpl never.

Lemma regex_match_Some r s cap :
  regex_match r s = Some cap →
  ∃ stem t, s = stem +:+ t ∧ match_at r t None (λ _ cap, Some cap) = Some cap.
Proof.
  induction s as [|a s IH]; rewrite regex_match_unfold.
  - destruct (match_at r "" None _) as [c|] eqn:E; [|done].
    intros [= <-]. by exists "", "".
  - destruct (match_at r (String a s) None _) as [c|] eqn:E.
    + intros [= <-]. by exists "", (String a s).
    + intros (stem & t & -> & Ht)%IH. by exists (String a stem), t.
Qed.

Lemma lower_upper_char e : lower_char (upper_char e) = lower_char e.
Proof. by destruct e as [[] [] [] [] [] [] [] []]; vm_compute. Qed.

Lemma lower_upper_lower c : is_lower c = true → lower_char (upper_char c) = c.
Proof. by destruct c as [[] [] [] [] [] [] [] []]; vm_compute. Qed.

Lemma canon_eq_letter c e : is_lower c = true → canon_eq c e = true → lower_char e = c.
Proof.
  intros Hc Heq%bool_decide_eq_true.
  by rewrite <- (lower_upper_char e), <- Heq, lower_upper_lower.
Qed.

Lemma upper_char_other c e :
  is_letter c = false → upper_char c = upper_char e → e = c.
Proof.
  intros Hc. assert (upper_char c = c) as -> by (unfold upper_char, is_letter in *;
    by destruct (is_lower c)).
  intros ->. unfold upper_char in *. destruct (is_lower e) eqn:He; [|done].
  exfalso. revert Hc He. by destruct e as [[] [] [] [] [] [] [] []]; vm_compute.
Qed.

Lemma canon_eq_other c e : is_letter c = false → canon_eq c e = true → e = c.
Proof. intros Hc Heq%bool_decide_eq_true. by apply upper_char_other. Qed.

Ltac read_matches :=
  repeat match goal with
         | H : canon_eq ?c ?d = true |- _ =>
             first [ apply (canon_eq_letter c d eq_refl) in H
                   | apply (canon_eq_other c d eq_refl) in H ]
         | H : in_class "a" "z" _ = true |- _ => rewrite in_class_az in H
         end;
  try congruence; subst.

Ltac known_extension :=
  cbn [toLowerCase map_string];
  repeat match goal with H : lower_char _ = _ |- _ => rewrite H; clear H end;
  apply list_elem_of_In; simpl; tauto.

Lemma shape_dot_two t cap :
  match_at (Seq (Chr ".") (Seq (Group1 (Seq az az)) extension)) t None (λ _ cap, Some cap)
  = Some cap →
  ∃ a b e1 e2 e3,
    t = String "." (String a (String b (String "." (String e1 (String e2 (String e3 ""))))))
    ∧ cap = Some (String a (String b ""))
    ∧ is_letter a = true ∧ is_letter b = true
    ∧ toLowerCase (String e1 (String e2 (String e3 ""))) ∈ subtitle_extensions.
Proof.
  intros H.
  destruct t as [|c1 [|c2 [|c3 [|c4 [|c5 [|c6 [|c7 [|c8 t]]]]]]]];
    cbn in H; repeat case_match; try congruence.
  all: simplify_eq; read_matches.
  all: eexists _, _, _, _, _; split; [reflexivity|]; split; [reflexivity|];
    split; [done|]; split; [done|]; known_extension.
Qed.

Lemma shape_sep_two sep t cap :
  is_letter sep = false →
  match_at (Seq (Chr sep) (Seq (Group1 (Seq az az)) extension)) t None (λ _ cap, Some cap)
  = Some cap →
  ∃ a b e1 e2 e3,
    t = String sep (String a (String b (String "." (String e1 (String e2 (String e3 ""))))))
    ∧ cap = Some (String a (String b ""))
    ∧ is_letter a = true ∧ is_letter b = true
    ∧ toLowerCase (String e1 (String e2 (String e3 ""))) ∈ subtitle_extensions.
Proof.
  intros Hsep H.
  destruct t as [|c1 [|c2 [|c3 [|c4 [|c5 [|c6 [|c7 [|c8 t]]]]]]]];
    cbn in H; repeat case_match; try congruence.
  all: simplify_eq.
  all: match goal with H : canon_eq ?c _ = true |- _ =>
         apply (canon_eq_other c _ Hsep) in H end.
  all: read_matches.
  all: eexists _, _, _, _, _; split; [reflexivity|]; split; [reflexivity|];
    split; [done|]; split; [done|]; known_extension.
Qed.

Lemma shape_dot_three t cap :
  match_at (Seq (Chr ".") (Seq (Group1 (Seq az (Seq az az))) extension)) t None
           (λ _ cap, Some cap)
  = Some cap →
  ∃ a b c e1 e2 e3,
    t = String "." (String a (String b (String c
          (String "." (String e1 (String e2 (String e3 "")))))))
    ∧ cap = Some (String a (String b (String c "")))
    ∧ is_letter a = true ∧ is_letter b = true ∧ is_letter c = true
    ∧ toLowerCase (String e1 (String e2 (String e3 ""))) ∈ subtitle_extensions.
Proof.
  intros H.
  destruct t as [|c1 [|c2 [|c3 [|c4 [|c5 [|c6 [|c7 [|c8 [|c9 t]]]]]]]]];
    cbn in H; repeat case_match; try congruence.
  all: simplify_eq; read_matches.
  all: eexists _, _, _, _, _, _; split; [reflexivity|]; split; [reflexivity|];
    split; [done|]; split; [done|]; split; [done|]; known_extension.
Qed.

Lemma shape_dot_region t cap :
  match_at (Seq (Chr ".")
              (Seq (Group1 (Seq az (Seq az (Seq (Chr "-") (Seq az az))))) extension))
           t None (λ _ cap, Some cap)
  = Some cap →
  ∃ a b c d e1 e2 e3,
    t = String "." (String a (String b (String "-" (String c (String d
          (String "." (String e1 (String e2 (String e3 "")))))))))
    ∧ cap = Some (String a (String b (String "-" (String c (String d "")))))
    ∧ is_letter a = true ∧ is_letter b = true ∧ is_letter c = true ∧ is_letter d = true
    ∧ toLowerCase (String e1 (String e2 (String e3 ""))) ∈ subtitle_extensions.
Proof.
  intros H.
  destruct t as [|c1 [|c2 [|c3 [|c4 [|c5 [|c6 [|c7 [|c8 [|c9 [|c10 [|c11 t]]]]]]]]]]];
    cbn in H; repeat case_match; try congruence.
  all: simplify_eq; read_matches.
  all: eexists _, _, _, _, _, _, _; split; [reflexivity|]; split; [reflexivity|];
    split; [done|]; split; [done|]; split; [done|]; split; [done|]; known_extension.
Qed.

Lemma string_app_assoc (a b c : string) : (a +:+ b) +:+ c = a +:+ (b +:+ c).
Proof.
  induction a as [|x a IH]; [reflexivity|].
  change ((String x a +:+ b) +:+ c) with (String x ((a +:+ b) +:+ c)).
  change (String x a +:+ (b +:+ c)) with (String x (a +:+ (b +:+ c))).
  by rewrite IH.
Qed.

Lemma lower_char_idemp c : lower_char (lower_char c) = lower_char c.
Proof. by destruct c as [[] [] [] [] [] [] [] []]; vm_compute. Qed.

Lemma toLowerCase_idemp s : toLowerCase (toLowerCase s) = toLowerCase s.
Proof.
  induction s as [|c s IH]; [done|]. cbn [toLowerCase map_string] in *.
  by rewrite lower_char_idemp, IH.
Qed.

Lemma firstMatch_lower ps filename code :
  firstMatch ps filename = Some code → toLowerCase code = code.
Proof.
  induction ps as [|pattern ps IH]; simpl; [done|].
  destruct (regex_match pattern filename) as [[m|]|]; simpl; try done.
  intros [= <-]. apply toLowerCase_idemp.
Qed.

Lemma firstMatch_Some ps filename code :
  firstMatch ps filename = Some code →
  ∃ pattern m, pattern ∈ ps ∧ regex_match pattern filename = Some m
               ∧ toLowerCase <$> m = Some code.
Proof.
  induction ps as [|p ps IH]; simpl; [done|].
  destruct (regex_match p filename) as [m|] eqn:Hp.
  - intros Hm. exists p, m. split; [left|done].
  - intros (q & m & ? & ? & ?)%IH. exists q, m. split; [by right|done].
Qed.

Lemma extension_width t :
  is_Some (match_at extension t None (λ _ cap, Some cap)) → String.length t = 4%nat.
Proof.
  intros [cap H].
  destruct t as [|c1 [|c2 [|c3 [|c4 [|c5 t]]]]];
    try reflexivity; cbn in H; repeat case_match; congruence.
Qed.

Lemma extension_match e1 e2 e3 :
  toLowerCase (String e1 (String e2 (String e3 ""))) ∈ subtitle_extensions →
  match_at extension (String "." (String e1 (String e2 (String e3 "")))) None
           (λ _ cap, Some cap)
  = Some None.
Proof.
  intros Hext. apply list_elem_of_In in Hext. simpl in Hext.
  assert (∀ x e, lower_char e = x → is_lower x = true → canon_eq x e = true)
    as Hcanon by apply canon_eq_lower.
  assert (canon_eq "." "." = true) as Hdot by reflexivity.
  cbn. rewrite Hdot.
  destruct Hext as [H|[H|[H|[H|[]]]]]; injection H as H1 H2 H3;
    symmetry in H1, H2, H3;
    apply Hcanon in H1; try reflexivity;
    apply Hcanon in H2; try reflexivity;
    apply Hcanon in H3; try reflexivity;
    cbn; repeat case_match; congruence.
Qed.

Lemma shape_extension t cap :
  match_at extension t None (λ _ cap, Some cap) = Some cap →
  ∃ e1 e2 e3,
    t = String "." (String e1 (String e2 (String e3 "")))
    ∧ toLowerCase (String e1 (String e2 (String e3 ""))) ∈ subtitle_extensions.
Proof.
  intros H.
  destruct t as [|c1 [|c2 [|c3 [|c4 [|c5 t]]]]];
    cbn in H; repeat case_match; try congruence.
  all: simplify_eq; read_matches.
  all: eexists _, _, _; split; [reflexivity|]; known_extension.
Qed.

Lemma passes_extension_filter stem e1 e2 e3 :
  toLowerCase (String e1 (String e2 (String e3 ""))) ∈ subtitle_extensions →
  is_Some (regex_match extension
             (stem +:+ String "." (String e1 (String e2 (String e3 ""))))).
Proof.
  intros Hext. exists None.
  apply (regex_match_suffix _ 4); [apply extension_width|done|by apply extension_match].
Qed.
End detection_more.

(** The shape of every match of one of the patterns in a file name. *)
Lemma pattern_match_shape (filename : string) :
  ∀ pattern m,
    pattern ∈ languageDetection.patterns →
    languageDetection.regex_match pattern filename = Some m →
    ∃ (stem : string) (sep : ascii) (raw : string) (e1 e2 e3 : ascii),
      m = Some raw
      ∧ filename = stem +:+ String sep
                     (raw +:+ String "." (String e1 (String e2 (String e3 ""))))
      ∧ toLowerCase (String e1 (String e2 (String e3 "")))
        ∈ languageDetection.subtitle_extensions
      ∧ ((Text.all_letters raw = true
          ∧ ((String.length raw = 2%nat ∧ sep ∈ ["."; "_"; "-"]%char)
             ∨ (String.length raw = 3%nat ∧ sep = "."%char)))
         ∨ (∃ l r : string,
              sep = "."%char ∧ raw = l +:+ String "-" r
              ∧ Text.all_letters l = true ∧ Text.all_letters r = true
              ∧ String.length l = 2%nat ∧ String.length r = 2%nat)).
Proof.
  intros pattern m Hin (stem & t & -> & Ht)%regex_match_Some.
  unfold languageDetection.patterns in Hin.
  repeat (apply elem_of_cons in Hin as [->|Hin]); [..|by apply elem_of_nil in Hin].
  - apply shape_dot_two in Ht as (a & b & e1 & e2 & e3 & -> & -> & Ha & Hb & He).
    exists stem, "."%char, (String a (String b "")), e1, e2, e3.
    repeat (split; [done|]). left. cbn. rewrite Ha, Hb. split; [done|]. left.
    split; [done|]. set_solver.
  - apply shape_dot_region in Ht
      as (a & b & c & d & e1 & e2 & e3 & -> & -> & Ha & Hb & Hc & Hd & He).
    exists stem, "."%char, (String a (String b (String "-" (String c (String d ""))))),
      e1, e2, e3.
    repeat (split; [done|]). right.
    exists (String a (String b "")), (String c (String d "")).
    cbn. by rewrite Ha, Hb, Hc, Hd.
  - apply shape_dot_three in Ht as (a & b & c & e1 & e2 & e3 & -> & -> & Ha & Hb & Hc & He).
    exists stem, "."%char, (String a (String b (String c ""))), e1, e2, e3.
    repeat (split; [done|]). left. cbn. rewrite Ha, Hb, Hc. split; [done|]. by right.
  - apply shape_sep_two in Ht as (a & b & e1 & e2 & e3 & -> & -> & Ha & Hb & He); [|done].
    exists stem, "_"%char, (String a (String b "")), e1, e2, e3.
    repeat (split; [done|]). left. cbn. rewrite Ha, Hb. split; [done|]. left.
    split; [done|]. set_solver.
  - apply shape_sep_two in Ht as (a & b & e1 & e2 & e3 & -> & -> & Ha & Hb & He); [|done].
    exists stem, "-"%char, (String a (String b "")), e1, e2, e3.
    repeat (split; [done|]). left. cbn. rewrite Ha, Hb. split; [done|]. left.
    split; [done|]. set_solver.
Qed.

Lemma extract_passes_filter (filename code : string) :
  languageDetection.extractLanguageFromFilename filename = Some code →
  is_Some (languageDetection.regex_match languageDetection.extension filename).
Proof.
  intros (pattern & m & Hin & Hm & _)%firstMatch_Some.
  destruct (pattern_match_shape filename _ _ Hin Hm)
    as (stem & sep & raw & e1 & e2 & e3 & _ & -> & Hext & _).
  replace (stem +:+ String sep (raw +:+ String "." (String e1 (String e2 (String e3 "")))))
    with ((stem +:+ String sep raw) +:+ String "." (String e1 (String e2 (String e3 ""))))
    by (by rewrite string_app_assoc).
  by apply passes_extension_filter.
Qed.

(** X18. Whatever [extractLanguageFromFilename] answers is read off the end
    of the file name: the name ends with a separator, the code and a dot
    with one of the four subtitle extensions, in any case of the letters;
    the answer is the code in lower case; the code is two letters after a
    dot, an underscore or a hyphen, or three letters after a dot, or two
    letters, a hyphen and two letters after a dot. Hence the answer is in
    lower case, and a name with an answer passes the extension filter of the
    drop handler. No match of a pattern leaves the first group unset. *)
Theorem extractLanguageFromFilename_reads_the_end (filename code : string) :
  languageDetection.extractLanguageFromFilename filename = Some code →
  (∃ (stem : string) (sep : ascii) (raw ext : string),
     filename = stem +:+ String sep (raw +:+ String "." ext)
     ∧ toLowerCase ext ∈ languageDetection.subtitle_extensions
     ∧ code = toLowerCase raw
     ∧ ((Text.all_letters raw = true
         ∧ ((String.length raw = 2%nat ∧ sep ∈ ["."; "_"; "-"]%char)
            ∨ (String.length raw = 3%nat ∧ sep = "."%char)))
        ∨ (∃ l r : string,
             sep = "."%char ∧ raw = l +:+ String "-" r
             ∧ Text.all_letters l = true ∧ Text.all_letters r = true
             ∧ String.length l = 2%nat ∧ String.length r = 2%nat)))
  ∧ toLowerCase code = code
  ∧ is_Some (languageDetection.regex_match languageDetection.extension filename)
  ∧ Forall (λ pattern, languageDetection.regex_match pattern filename ≠ Some None)
           languageDetection.patterns.
Proof.
  intros Hcode.
  destruct (firstMatch_Some _ _ _ Hcode) as (pattern & m & Hin & Hm & Hlow).
  destruct (pattern_match_shape filename _ _ Hin Hm)
    as (stem & sep & raw & e1 & e2 & e3 & -> & Hname & Hext & Hraw).
  injection Hlow as <-.
  split; [|split; [|split]].
  - by exists stem, sep, raw, (String e1 (String e2 (String e3 ""))).
  - apply toLowerCase_idemp.
  - by eapply extract_passes_filter.
  - apply Forall_forall. intros p Hp Hnone.
    by destruct (pattern_match_shape filename _ _ Hp Hnone) as (? & ? & ? & ? & ? & ? & ? & _).
Qed.

Lemma extractLanguageFromFilename_reads_the_end_witness :
  is_Some (languageDetection.regex_match languageDetection.extension "Show_FR.SUB").
Proof.
  apply (extractLanguageFromFilename_reads_the_end "Show_FR.SUB" "fr").
  vm_compute. reflexivity.
Defined.

Section detection_forms.
Import languageDetection.

Local Arguments canon_eq : simpl never.
Local Arguments in_class : simpl never.

Lemma drop_string_app stem s : Text.drop_string (String.length stem) (stem +:+ s) = s.
Proof. induction stem as [|a stem IH]; [by destruct s|]. exact IH. Qed.

(** Two ways of cutting the same text: the shorter of the two ends is the
    end of the longer one. *)
Lemma suffix_drop stem s stem' t :
  stem +:+ s = stem' +:+ t → (String.length s ≤ String.length t)%nat →
  s = Text.drop_string (String.length t - String.length s) t.
Proof.
  revert stem. induction stem' as [|a stem' IH]; intros stem Heq Hlen.
  - change ("" +:+ t) with t in Heq. subst t.
    rewrite string_length_app.
    replace (String.length stem + String.length s - String.length s)%nat
      with (String.length stem) by lia.
    by rewrite drop_string_app.
  - destruct stem as [|b stem].
    + change ("" +:+ s) with s in Heq. subst s. exfalso.
      change (String a stem' +:+ t) with (String a (stem' +:+ t)) in Hlen.
      simpl in Hlen. rewrite string_length_app in Hlen. lia.
    + change (String b stem +:+ s) with (String b (stem +:+ s)) in Heq.
      change (String a stem' +:+ t) with (String a (stem' +:+ t)) in Heq.
      injection Heq as _ Heq. by eapply IH.
Qed.

Lemma known_extension_chars ext :
  toLowerCase ext ∈ subtitle_extensions →
  ∃ e1 e2 e3, ext = String e1 (String e2 (String e3 "")).
Proof.
  intros Hext. apply list_elem_of_In in Hext. simpl in Hext.
  destruct ext as [|e1 [|e2 [|e3 [|e4 ext]]]];
    try (by destruct Hext as [H|[H|[H|[H|[]]]]]).
  eauto.
Qed.

Lemma extension_chars_match e1 e2 e3 :
  toLowerCase (String e1 (String e2 (String e3 ""))) ∈ subtitle_extensions →
  (canon_eq "s" e1 = true ∧ canon_eq "r" e2 = true ∧ canon_eq "t" e3 = true)
  ∨ (canon_eq "a" e1 = true ∧ canon_eq "s" e2 = true ∧ canon_eq "s" e3 = true)
  ∨ (canon_eq "v" e1 = true ∧ canon_eq "t" e2 = true ∧ canon_eq "t" e3 = true)
  ∨ (canon_eq "s" e1 = true ∧ canon_eq "u" e2 = true ∧ canon_eq "b" e3 = true).
Proof.
  intros Hext. apply list_elem_of_In in Hext. simpl in Hext.
  assert (∀ x e, lower_char e = x → is_lower x = true → canon_eq x e = true)
    as Hcanon by apply canon_eq_lower.
  destruct Hext as [H|[H|[H|[H|[]]]]]; injection H as H1 H2 H3;
    symmetry in H1, H2, H3;
    apply Hcanon in H1; try reflexivity;
    apply Hcanon in H2; try reflexivity;
    apply Hcanon in H3; try reflexivity; tauto.
Qed.

Ltac matches_with Hext :=
  assert (canon_eq "." "." = true) as Hdot by reflexivity;
  assert (canon_eq "_" "_" = true) as Hunderscore by reflexivity;
  assert (canon_eq "-" "-" = true) as Hhyphen by reflexivity;
  cbn; rewrite ?in_class_az;
  destruct (extension_chars_match _ _ _ Hext) as [(H1 & H2 & H3)|[(H1 & H2 & H3)|
    [(H1 & H2 & H3)|(H1 & H2 & H3)]]];
  repeat case_match; congruence.

Lemma dot_three_match a b c e1 e2 e3 :
  is_letter a = true → is_letter b = true → is_letter c = true →
  toLowerCase (String e1 (String e2 (String e3 ""))) ∈ subtitle_extensions →
  match_at (Seq (Chr ".") (Seq (Group1 (Seq az (Seq az az))) extension))
           (String "." (String a (String b (String c
              (String "." (String e1 (String e2 (String e3 ""))))))))
           None (λ _ cap, Some cap)
  = Some (Some (String a (String b (String c "")))).
Proof. intros Ha Hb Hc Hext. matches_with Hext. Qed.

Lemma dot_region_match a b c d e1 e2 e3 :
  is_letter a = true → is_letter b = true → is_letter c = true → is_letter d = true →
  toLowerCase (String e1 (String e2 (String e3 ""))) ∈ subtitle_extensions →
  match_at (Seq (Chr ".")
              (Seq (Group1 (Seq az (Seq az (Seq (Chr "-") (Seq az az))))) extension))
           (String "." (String a (String b (String "-" (String c (String d
              (String "." (String e1 (String e2 (String e3 ""))))))))))
           None (λ _ cap, Some cap)
  = Some (Some (String a (String b (String "-" (String c (String d "")))))).
Proof. intros Ha Hb Hc Hd Hext. matches_with Hext. Qed.

Lemma underscore_two_match a b e1 e2 e3 :
  is_letter a = true → is_letter b = true →
  toLowerCase (String e1 (String e2 (String e3 ""))) ∈ subtitle_extensions →
  match_at (Seq (Chr "_") (Seq (Group1 (Seq az az)) extension))
           (String "_" (String a (String b
              (String "." (String e1 (String e2 (String e3 "")))))))
           None (λ _ cap, Some cap)
  = Some (Some (String a (String b ""))).
Proof. intros Ha Hb Hext. matches_with Hext. Qed.

Lemma hyphen_two_match a b e1 e2 e3 :
  is_letter a = true → is_letter b = true →
  toLowerCase (String e1 (String e2 (String e3 ""))) ∈ subtitle_extensions →
  match_at (Seq (Chr "-") (Seq (Group1 (Seq az az)) extension))
           (String "-" (String a (String b
              (String "." (String e1 (String e2 (String e3 "")))))))
           None (λ _ cap, Some cap)
  = Some (Some (String a (String b ""))).
Proof. intros Ha Hb Hext. matches_with Hext. Qed.

(** A pattern whose matches all have a shape that the end of the name does
    not have matches nowhere in the name. *)
Ltac aligned Heq :=
  first [ apply suffix_drop in Heq; [|simpl; lia]
        | symmetry in Heq; apply suffix_drop in Heq; [|simpl; lia] ];
  cbn in Heq; simplify_eq.

Ltac no_match shape :=
  match goal with
  | |- regex_match ?p ?name = None =>
      let Hm := fresh "Hm" in
      let Heq := fresh "Heq" in
      let Ht := fresh "Ht" in
      destruct (regex_match p name) as [?|] eqn:Hm; [exfalso|reflexivity];
      apply regex_match_Some in Hm as (? & ? & Heq & Ht);
      apply shape in Ht; decompose [ex and] Ht; clear Ht; subst;
      aligned Heq
  end.

Lemma shape_underscore_two t cap :
  match_at (Seq (Chr "_") (Seq (Group1 (Seq az az)) extension)) t None (λ _ cap, Some cap)
  = Some cap →
  ∃ a b e1 e2 e3,
    t = String "_" (String a (String b (String "." (String e1 (String e2 (String e3 ""))))))
    ∧ cap = Some (String a (String b ""))
    ∧ is_letter a = true ∧ is_letter b = true
    ∧ toLowerCase (String e1 (String e2 (String e3 ""))) ∈ subtitle_extensions.
Proof. by apply shape_sep_two. Qed.

Lemma form_dot_three stem a b c e1 e2 e3 :
  is_letter a = true → is_letter b = true → is_letter c = true →
  toLowerCase (String e1 (String e2 (String e3 ""))) ∈ subtitle_extensions →
  extractLanguageFromFilename
    (stem +:+ String "." (String a (String b (String c
                (String "." (String e1 (String e2 (String e3 ""))))))))
  = Some (toLowerCase (String a (String b (String c "")))).
Proof.
  intros Ha Hb Hc Hext.
  unfold extractLanguageFromFilename, patterns. cbn [firstMatch].
  match goal with |- context [regex_match ?p ?name] =>
    assert (regex_match p name = None) as -> by (no_match shape_dot_two; congruence) end.
  match goal with |- context [regex_match ?p ?name] =>
    assert (regex_match p name = None) as -> by (no_match shape_dot_region; congruence) end.
  rewrite (regex_match_suffix _ 8 _ _ (Some (String a (String b (String c ""))))).
  - reflexivity.
  - intros t [cap Ht]. apply shape_dot_three in Ht. decompose [ex and] Ht. by subst.
  - reflexivity.
  - by apply dot_three_match.
Qed.

Lemma form_dot_region stem a b c d e1 e2 e3 :
  is_letter a = true → is_letter b = true → is_letter c = true → is_letter d = true →
  toLowerCase (String e1 (String e2 (String e3 ""))) ∈ subtitle_extensions →
  extractLanguageFromFilename
    (stem +:+ String "." (String a (String b (String "-" (String c (String d
                (String "." (String e1 (String e2 (String e3 ""))))))))))
  = Some (toLowerCase (String a (String b (String "-" (String c (String d "")))))).
Proof.
  intros Ha Hb Hc Hd Hext.
  unfold extractLanguageFromFilename, patterns. cbn [firstMatch].
  match goal with |- context [regex_match ?p ?name] =>
    assert (regex_match p name = None) as -> by (no_match shape_dot_two; congruence) end.
  rewrite (regex_match_suffix _ 10 _ _
             (Some (String a (String b (String "-" (String c (String d ""))))))).
  - reflexivity.
  - intros t [cap Ht]. apply shape_dot_region in Ht. decompose [ex and] Ht. by subst.
  - reflexivity.
  - by apply dot_region_match.
Qed.

Lemma form_underscore stem a b e1 e2 e3 :
  is_letter a = true → is_letter b = true →
  toLowerCase (String e1 (String e2 (String e3 ""))) ∈ subtitle_extensions →
  extractLanguageFromFilename
    (stem +:+ String "_" (String a (String b
                (String "." (String e1 (String e2 (String e3 "")))))))
  = Some (toLowerCase (String a (String b ""))).
Proof.
  intros Ha Hb Hext.
  unfold extractLanguageFromFilename, patterns. cbn [firstMatch].
  match goal with |- context [regex_match ?p ?name] =>
    assert (regex_match p name = None) as -> by (no_match shape_dot_two; congruence) end.
  match goal with |- context [regex_match ?p ?name] =>
    assert (regex_match p name = None) as -> by (no_match shape_dot_region; congruence) end.
  match goal with |- context [regex_match ?p ?name] =>
    assert (regex_match p name = None) as -> by (no_match shape_dot_three; congruence) end.
  rewrite (regex_match_suffix _ 7 _ _ (Some (String a (String b "")))).
  - reflexivity.
  - intros t [cap Ht]. apply shape_sep_two in Ht; [|done]. decompose [ex and] Ht. by subst.
  - reflexivity.
  - by apply underscore_two_match.
Qed.

(** Two ways of cutting the same text: the longer of the two ends begins
    with what the other cut leaves before the shorter end. *)
Lemma suffix_split stem s stem' t :
  stem +:+ s = stem' +:+ t → (String.length s ≤ String.length t)%nat →
  ∃ u, t = u +:+ s ∧ stem = stem' +:+ u.
Proof.
  revert stem. induction stem' as [|a stem' IH]; intros stem Heq Hlen.
  - change ("" +:+ t) with t in Heq. subst t. by exists stem.
  - destruct stem as [|b stem].
    + change ("" +:+ s) with s in Heq. subst s. exfalso.
      change (String a stem' +:+ t) with (String a (stem' +:+ t)) in Hlen.
      simpl in Hlen. rewrite string_length_app in Hlen. lia.
    + change (String b stem +:+ s) with (String b (stem +:+ s)) in Heq.
      change (String a stem' +:+ t) with (String a (stem' +:+ t)) in Heq.
      injection Heq as -> Heq.
      destruct (IH _ Heq Hlen) as (u & -> & ->). by exists u.
Qed.

(** A name "stem-xx.ext" is read by the pattern "-xx.ext" when the stem does
    not end with a dot and two letters. *)
Lemma form_hyphen stem a b e1 e2 e3 :
  is_letter a = true → is_letter b = true →
  toLowerCase (String e1 (String e2 (String e3 ""))) ∈ subtitle_extensions →
  (∀ stem' x y, is_letter x = true → is_letter y = true →
                stem ≠ stem' +:+ String "." (String x (String y ""))) →
  extractLanguageFromFilename
    (stem +:+ String "-" (String a (String b
                (String "." (String e1 (String e2 (String e3 "")))))))
  = Some (toLowerCase (String a (String b ""))).
Proof.
  intros Ha Hb Hext Hstem.
  unfold extractLanguageFromFilename, patterns. cbn [firstMatch].
  match goal with |- context [regex_match ?p ?name] =>
    assert (regex_match p name = None) as -> by (no_match shape_dot_two; congruence) end.
  match goal with |- context [regex_match ?p ?name] =>
    assert (regex_match p name = None) as -> end.
  { match goal with |- regex_match ?p ?name = None =>
      destruct (regex_match p name) as [m|] eqn:Hm; [exfalso|reflexivity] end.
    apply regex_match_Some in Hm as (stem' & t & Heq & Ht).
    apply shape_dot_region in Ht. decompose [ex and] Ht. clear Ht. subst.
    apply suffix_split in Heq as (u & Hu & ->); [|simpl; lia].
    destruct u as [|u1 [|u2 [|u3 [|u4 u]]]].
    1-3: by (cbv [String.append] in Hu; simplify_eq).
    - cbv [String.append] in Hu. simplify_eq.
      eapply Hstem; cycle 2; [reflexivity|done|done].
    - exfalso. apply (f_equal String.length) in Hu.
      rewrite string_length_app in Hu. simpl in Hu. lia. }
  match goal with |- context [regex_match ?p ?name] =>
    assert (regex_match p name = None) as -> by (no_match shape_dot_three; congruence) end.
  match goal with |- context [regex_match ?p ?name] =>
    assert (regex_match p name = None) as ->
      by (no_match shape_underscore_two; congruence) end.
  rewrite (regex_match_suffix _ 7 _ _ (Some (String a (String b "")))).
  - reflexivity.
  - intros t [cap Ht]. apply shape_sep_two in Ht; [|done]. decompose [ex and] Ht. by subst.
  - reflexivity.
  - by apply hyphen_two_match.
Qed.
End detection_forms.

(** X19. The other forms of file name that [extractLanguageFromFilename]
    documents, for any text before them and a subtitle extension in any
    case: "name.xxx.ext" gives the three letters, "name.xx-yy.ext" the two
    pairs with their hyphen and "name_xx.ext" the two letters, all in lower
    case. "name-xx.ext" gives the two letters in lower case when the text
    before the hyphen does not end with a dot and two letters; when it ends
    with a dot and the letters x and y, the name is one of the second form
    and gives "xy-" followed by the two letters, in lower case. *)
Theorem extractLanguageFromFilename_documented_forms
    (stem : string) (a b c d : ascii) (ext : string) :
  is_letter a = true → is_letter b = true → is_letter c = true → is_letter d = true →
  toLowerCase ext ∈ languageDetection.subtitle_extensions →
  languageDetection.extractLanguageFromFilename
    (stem +:+ String "." (String a (String b (String c (String "." ext)))))
  = Some (toLowerCase (String a (String b (String c ""))))
  ∧ languageDetection.extractLanguageFromFilename
      (stem +:+ String "." (String a (String b (String "-" (String c (String d
                  (String "." ext)))))))
    = Some (toLowerCase (String a (String b (String "-" (String c (String d ""))))))
  ∧ languageDetection.extractLanguageFromFilename
      (stem +:+ String "_" (String c (String d (String "." ext))))
    = Some (toLowerCase (String c (String d "")))
  ∧ ((∀ stem' x y, is_letter x = true → is_letter y = true →
                   stem ≠ stem' +:+ String "." (String x (String y ""))) →
     languageDetection.extractLanguageFromFilename
       (stem +:+ String "-" (String c (String d (String "." ext))))
     = Some (toLowerCase (String c (String d ""))))
  ∧ (∀ stem' x y, is_letter x = true → is_letter y = true →
                  stem = stem' +:+ String "." (String x (String y "")) →
     languageDetection.extractLanguageFromFilename
       (stem +:+ String "-" (String c (String d (String "." ext))))
     = Some (toLowerCase (String x (String y (String "-" (String c (String d ""))))))).
Proof.
  intros Ha Hb Hc Hd Hext.
  destruct (known_extension_chars _ Hext) as (e1 & e2 & e3 & ->).
  split; [by apply form_dot_three|]. split; [by apply form_dot_region|].
  split; [by apply form_underscore|]. split; [by apply form_hyphen|].
  intros stem' x y Hx Hy ->. rewrite string_app_assoc.
  by apply form_dot_region.
Qed.

Lemma extractLanguageFromFilename_documented_forms_witness :
  languageDetection.extractLanguageFromFilename "Show.S01E01.pt-BR.ASS" = Some "pt-br"
  ∧ languageDetection.extractLanguageFromFilename "Movie-fr.srt" = Some "fr"
  ∧ languageDetection.extractLanguageFromFilename "Movie.zh-tw.srt" = Some "zh-tw".
Proof.
  split; [|split].
  - apply (proj1 (proj2 (extractLanguageFromFilename_documented_forms
                           "Show.S01E01" "p"%char "t"%char "B"%char "R"%char "ASS"
                           eq_refl eq_refl eq_refl eq_refl
                           ltac:(vm_compute; set_solver)))).
  - apply (proj1 (proj2 (proj2 (proj2 (extractLanguageFromFilename_documented_forms
                           "Movie" "f"%char "r"%char "f"%char "r"%char "srt"
                           eq_refl eq_refl eq_refl eq_refl
                           ltac:(vm_compute; set_solver)))))).
    intros stem' x y _ _ Heq.
    destruct stem' as [|c1 [|c2 [|c3 [|c4 [|c5 [|c6 stem']]]]]]; cbn in Heq; simplify_eq.
  - apply (proj2 (proj2 (proj2 (proj2 (extractLanguageFromFilename_documented_forms
                           "Movie.zh" "t"%char "w"%char "t"%char "w"%char "srt"
                           eq_refl eq_refl eq_refl eq_refl
                           ltac:(vm_compute; set_solver))))) "Movie" "z"%char "h"%char);
      reflexivity.
Defined.

(** ** The upload form *)

Section upload_lemmas.
Import languageDetection data_languages EpisodeDetail.

Lemma getLanguageByCode_Some code :
  is_Some (getLanguageByCode code) ↔ code ∈ COMPREHENSIVE_LANGUAGES.
Proof.
  unfold getLanguageByCode. split.
  - intros [lang [Hin Heq%bool_decide_eq_true]%find_some]. subst.
    by apply list_elem_of_In.
  - intros Hin. destruct (List.find _ _) as [lang|] eqn:Hfind; [done|].
    apply list_elem_of_In in Hin.
    pose proof (find_none _ _ Hfind _ Hin) as Hno. simpl in Hno.
    by apply bool_decide_eq_false in Hno.
Qed.

(** The entries of the table that are their own lower-case form have two
    or three letters. *)
Lemma lower_case_codes code :
  code ∈ COMPREHENSIVE_LANGUAGES → toLowerCase code = code →
  Text.all_letters code = true
  ∧ (String.length code = 2%nat ∨ String.length code = 3%nat).
Proof.
  intros Hin Hlow.
  assert (forallb (λ c, implb (bool_decide (toLowerCase c = c))
                              (Text.all_letters c
                               && ((String.length c =? 2)%nat || (String.length c =? 3)%nat)))
                  COMPREHENSIVE_LANGUAGES = true) as Hall by (vm_compute; reflexivity).
  rewrite forallb_forall in Hall. apply list_elem_of_In in Hin.
  specialize (Hall _ Hin). rewrite bool_decide_eq_true_2 in Hall by done.
  simpl in Hall. apply andb_true_iff in Hall as [? [?%Nat.eqb_eq|?%Nat.eqb_eq]%orb_true_iff];
    auto.
Qed.

(** The test [file.name.match(/\.(srt|ass|vtt|sub)$/i)] of the drop
    handler: the name ends with a dot and one of the four extensions, in
    any case. *)
Lemma extension_filter filename :
  is_Some (regex_match extension filename)
  ↔ ∃ stem ext, filename = stem +:+ String "." ext
                ∧ toLowerCase ext ∈ subtitle_extensions.
Proof.
  split.
  - intros [cap (stem & t & -> & Ht)%regex_match_Some].
    apply shape_extension in Ht as (e1 & e2 & e3 & -> & Hext). eauto.
  - intros (stem & ext & -> & Hext).
    destruct (known_extension_chars _ Hext) as (e1 & e2 & e3 & ->).
    by apply passes_extension_filter.
Qed.
End upload_lemmas.

(** X20. The language that the upload form takes from a file name. When a
    language is detected, it becomes the upload language; it is an entry of
    the language table, and it is two or three lower-case letters: the
    entries of the table with a region, which are written with capitals,
    are never detected. When none is detected, the upload language stays as
    it was. A drop of a file whose name ends with a dot and one of the
    extensions srt, ass, vtt and sub, in any case, leads to the same form
    as the file input; so does every drop of a file in which a language is
    detected. A drop of any other file does not show the toast that the
    handler intends: the handler throws, and no form results. A drop
    without a file leaves the form as it is. *)
Theorem upload_language_detection (fileName : string) (form : EpisodeDetail.UploadForm) :
  let form' := EpisodeDetail.detectLanguage fileName form in
  let subtitleFile :=
    ∃ stem ext, fileName = stem +:+ String "." ext
                ∧ toLowerCase ext ∈ languageDetection.subtitle_extensions in
  (∀ lang, EpisodeDetail.detectedLanguage form' = Some lang →
           EpisodeDetail.uploadLanguage form' = lang
           ∧ languageDetection.extractLanguageFromFilename fileName = Some lang
           ∧ lang ∈ data_languages.COMPREHENSIVE_LANGUAGES
           ∧ toLowerCase lang = lang
           ∧ Text.all_letters lang = true
           ∧ (String.length lang = 2%nat ∨ String.length lang = 3%nat))
  ∧ (EpisodeDetail.detectedLanguage form' = None →
     EpisodeDetail.uploadLanguage form' = EpisodeDetail.uploadLanguage form)
  ∧ EpisodeDetail.onChange (Some fileName) form = form'
  ∧ (subtitleFile →
     ∀ rest, EpisodeDetail.handleDrop (fileName :: rest) form = Some form')
  ∧ (¬ subtitleFile →
     ∀ rest, EpisodeDetail.handleDrop (fileName :: rest) form = None)
  ∧ EpisodeDetail.handleDrop [] form = Some form
  ∧ (is_Some (EpisodeDetail.detectedLanguage form') →
     ∀ rest, EpisodeDetail.handleDrop (fileName :: rest) form = Some form').
Proof.
  intros form' subtitleFile.
  assert (∀ lang, EpisodeDetail.detectedLanguage form' = Some lang →
                  EpisodeDetail.uploadLanguage form' = lang
                  ∧ languageDetection.extractLanguageFromFilename fileName = Some lang
                  ∧ lang ∈ data_languages.COMPREHENSIVE_LANGUAGES
                  ∧ toLowerCase lang = lang
                  ∧ Text.all_letters lang = true
                  ∧ (String.length lang = 2%nat ∨ String.length lang = 3%nat)) as Hdetected.
  { intros lang. unfold form', EpisodeDetail.detectLanguage.
    destruct (languageDetection.extractLanguageFromFilename fileName) as [code|] eqn:Hcode;
      [|done].
    destruct (truthyString code
              && bool_decide (is_Some (data_languages.getLanguageByCode code))) eqn:Hok;
      cbn [EpisodeDetail.detectedLanguage EpisodeDetail.uploadLanguage]; [|done].
    intros [= <-].
    apply andb_true_iff in Hok as [_ Hin%bool_decide_eq_true].
    apply getLanguageByCode_Some in Hin.
    pose proof (firstMatch_lower _ _ _ Hcode) as Hlow.
    destruct (lower_case_codes _ Hin Hlow) as [Hletters Hlen]. done. }
  split; [exact Hdetected|]. split.
  { unfold form', EpisodeDetail.detectLanguage. by repeat case_match. }
  split; [reflexivity|]. split; [|split; [|split; [reflexivity|]]].
  - intros Hfile%extension_filter rest. cbn [EpisodeDetail.handleDrop].
    by rewrite bool_decide_eq_true_2.
  - intros Hfile rest. cbn [EpisodeDetail.handleDrop].
    rewrite bool_decide_eq_false_2; [done|]. by rewrite extension_filter.
  - intros [lang Hlang] rest. cbn [EpisodeDetail.handleDrop].
    destruct (Hdetected lang Hlang) as (_ & Hcode & _).
    rewrite bool_decide_eq_true_2; [done|].
    by eapply extract_passes_filter.
Qed.

Lemma upload_language_detection_witness :
  (EpisodeDetail.uploadLanguage
     (EpisodeDetail.detectLanguage "Show.S01E01.pt-BR.srt" EpisodeDetail.initialForm)
   = "en"
   ∧ EpisodeDetail.uploadLanguage
       (EpisodeDetail.detectLanguage "Show.S01E01.FR.srt" EpisodeDetail.initialForm)
     = "fr")
  ∧ EpisodeDetail.handleDrop ["Show.S01E01.FR.srt"] EpisodeDetail.initialForm
    = Some (EpisodeDetail.detectLanguage "Show.S01E01.FR.srt" EpisodeDetail.initialForm)
  ∧ EpisodeDetail.handleDrop ["notes.txt"] EpisodeDetail.initialForm = None.
Proof.
  split; [split|split].
  - apply (proj1 (proj2 (upload_language_detection "Show.S01E01.pt-BR.srt"
                           EpisodeDetail.initialForm))).
    vm_compute. reflexivity.
  - apply (proj1 (upload_language_detection "Show.S01E01.FR.srt"
                    EpisodeDetail.initialForm) "fr").
    vm_compute. reflexivity.
  - apply (proj1 (proj2 (proj2 (proj2 (upload_language_detection "Show.S01E01.FR.srt"
                                         EpisodeDetail.initialForm))))).
    exists "Show.S01E01.FR", "srt". split; [reflexivity|]. vm_compute. set_solver.
  - apply (proj1 (proj2 (proj2 (proj2 (proj2 (upload_language_detection "notes.txt"
                                                EpisodeDetail.initialForm)))))).
    intros (stem & ext & Heq & Hext).
    destruct (known_extension_chars _ Hext) as (e1 & e2 & e3 & ->).
    assert (String.length stem = 5%nat) as Hlen.
    { apply (f_equal String.length) in Heq. rewrite string_length_app in Heq.
      simpl in Heq. lia. }
    destruct stem as [|c1 [|c2 [|c3 [|c4 [|c5 [|c6 stem]]]]]]; simpl in Hlen; try lia.
    cbv [String.append] in Heq. simplify_eq.
    apply list_elem_of_In in Hext. vm_compute in Hext. intuition discriminate.
Defined.

(** ** Image addresses *)

Section image_lemmas.
Import imageUtils.

Lemma string_app_cons c s t : String c s +:+ t = String c (s +:+ t).
Proof. reflexivity. Qed.

Lemma string_app_empty t : "" +:+ t = t.
Proof. reflexivity. Qed.

Lemma prefix_app pattern rest : String.prefix pattern (pattern +:+ rest) = true.
Proof.
  induction pattern as [|c pattern IH]; [by destruct rest|].
  rewrite string_app_cons. cbn [String.prefix].
  by destruct (ascii_dec c c).
Qed.

Lemma replace_unfold pattern replacement s :
  replace pattern replacement s
  = if String.prefix pattern s
    then replacement +:+ Text.drop_string (String.length pattern) s
    else match s with
         | EmptyString => EmptyString
         | String c s' => String c (replace pattern replacement s')
         end.
Proof. by destruct s. Qed.

Lemma replace_prefix pattern rest : replace pattern "" (pattern +:+ rest) = rest.
Proof. by rewrite replace_unfold, prefix_app, string_app_empty, drop_string_app. Qed.

Lemma list_ascii_of_string_app s t :
  String.list_ascii_of_string (s +:+ t)
  = String.list_ascii_of_string s ++ String.list_ascii_of_string t.
Proof.
  induction s as [|c s IH]; [reflexivity|].
  rewrite string_app_cons. simpl. by rewrite IH.
Qed.

Lemma hexDigit_unreserved n : (n < 16)%nat → unreserved (hexDigit n) = true.
Proof.
  intros Hn. do 16 (destruct n as [|n]; [by vm_compute|]). lia.
Qed.

Lemma percentEncoded_chars c :
  Forall (λ c, unreserved c = true ∨ c = "%"%char)
         (String.list_ascii_of_string (percentEncoded c)).
Proof.
  unfold percentEncoded. cbn [String.list_ascii_of_string].
  pose proof (nat_ascii_bounded c) as Hc.
  constructor; [by right|].
  constructor; [left; apply hexDigit_unreserved, Nat.Div0.div_lt_upper_bound; lia|].
  constructor; [left; apply hexDigit_unreserved, Nat.mod_upper_bound; lia|].
  constructor.
Qed.

(** Every character of an encoded text is an unreserved one or [%]. *)
Lemma encodeURIComponent_chars s :
  Forall (λ c, unreserved c = true ∨ c = "%"%char)
         (String.list_ascii_of_string (encodeURIComponent s)).
Proof.
  induction s as [|c s IH]; [constructor|].
  cbn [encodeURIComponent]. rewrite list_ascii_of_string_app. apply Forall_app.
  split; [|done]. destruct (unreserved c) eqn:Hc.
  - simpl. constructor; [by left|constructor].
  - apply percentEncoded_chars.
Qed.

Lemma encodeURIComponent_empty s : encodeURIComponent s = "" → s = "".
Proof.
  destruct s as [|c s]; [done|]. simpl. unfold percentEncoded.
  destruct (unreserved c); by rewrite ?string_app_cons.
Qed.
End image_lemmas.

(** X21. What [fixPlexImageUrl] answers. It answers [null] exactly when
    there is no address, or the address is empty, or the address starts with
    "None/" and no token is stored. Every other answer is a non-empty
    address that does not start with "None/", so that [isValidImageUrl]
    accepts it unless it is the text "None" itself, which is passed on as it
    is; and fixing an answer again changes nothing. *)
Theorem fixPlexImageUrl_answers (getStoredToken thumbUrl : option string) :
  (imageUtils.fixPlexImageUrl getStoredToken thumbUrl = None
   ↔ thumbUrl = None ∨ thumbUrl = Some ""
     ∨ ∃ url, thumbUrl = Some url ∧ imageUtils.startsWith "None/" url = true
              ∧ (getStoredToken = None ∨ getStoredToken = Some ""))
  ∧ (∀ url, imageUtils.fixPlexImageUrl getStoredToken thumbUrl = Some url →
            url ≠ ""
            ∧ imageUtils.startsWith "None/" url = false
            ∧ (url = "None" ∧ thumbUrl = Some "None"
               ∨ imageUtils.isValidImageUrl (Some url) = true)
            ∧ imageUtils.fixPlexImageUrl getStoredToken (Some url) = Some url).
Proof.
  split.
  - unfold imageUtils.fixPlexImageUrl, truthyString.
    destruct thumbUrl as [url|]; [|split; [by left|done]].
    destruct (decide (url = "")) as [->|Hurl].
    { split; [by right; left|done]. }
    rewrite (bool_decide_eq_false_2 (url = "")) by done. cbn [negb].
    destruct (imageUtils.startsWith "None/" url) eqn:Hstart.
    + destruct getStoredToken as [token|].
      * destruct (decide (token = "")) as [->|Htoken].
        -- split; [|done]. intros _. right. right. exists url. eauto.
        -- rewrite (bool_decide_eq_false_2 (token = "")) by done. cbn [negb].
           split; [done|]. intros [?|[?|(u & [= <-] & _ & [?|?])]]; congruence.
      * split; [|done]. intros _. right. right. exists url. eauto.
    + split; [done|]. intros [?|[?|(u & [= <-] & ? & _)]]; congruence.
  - intros url Hfix.
    assert (url ≠ "" ∧ imageUtils.startsWith "None/" url = false
            ∧ (url = "None" → thumbUrl = Some "None")) as (Hne & Hstart & Hnone).
    { unfold imageUtils.fixPlexImageUrl, truthyString in Hfix.
      destruct thumbUrl as [thumb|]; [|done].
      destruct (decide (thumb = "")) as [->|Hthumb]; [done|].
      rewrite (bool_decide_eq_false_2 (thumb = "")) in Hfix by done. cbn [negb] in Hfix.
      destruct (imageUtils.startsWith "None/" thumb) eqn:Hstart.
      - destruct getStoredToken as [token|]; [|done].
        destruct (negb (bool_decide (token = ""))); [|done].
        cbn [negb] in Hfix. injection Hfix as <-. done.
      - injection Hfix as <-. split; [done|]. split; [done|]. by intros ->. }
    split; [done|]. split; [done|]. split.
    + destruct (decide (url = "None")) as [->|Hurl]; [left; auto|right].
      unfold imageUtils.isValidImageUrl.
      by rewrite (bool_decide_eq_false_2 (url = "None")), Hstart.
    + unfold imageUtils.fixPlexImageUrl, truthyString.
      by rewrite (bool_decide_eq_false_2 (url = "")), Hstart.
Qed.

Lemma fixPlexImageUrl_answers_witness :
  imageUtils.isValidImageUrl
    (Some "http://localhost:8000/api/plex-proxy/library%2Fmetadata%2F7%2Fthumb?token=abc")
  = true.
Proof.
  destruct (proj2 (fixPlexImageUrl_answers (Some "abc") (Some "None/library/metadata/7/thumb"))
              "http://localhost:8000/api/plex-proxy/library%2Fmetadata%2F7%2Fthumb?token=abc")
    as (_ & _ & [[Hnone _]|Hvalid] & _).
  - vm_compute. reflexivity.
  - discriminate Hnone.
  - exact Hvalid.
Defined.

(** X22. The address built for an image that the backend could not place:
    for an address "None/<path>" and a stored token that is not empty, the
    answer is the proxy address of the backend followed by the encoded path,
    "?token=" and the encoded token. The two encoded parts consist of
    letters, digits, the marks [- _ . ! ~ * ' ( )] and [%] only, so that no
    character of the path or of the token can end the path or add a
    parameter; and the encoded token is not empty. *)
Theorem proxy_address_is_well_formed (token path : string) :
  token ≠ "" →
  let encodedPath := imageUtils.encodeURIComponent path in
  let encodedToken := imageUtils.encodeURIComponent token in
  imageUtils.fixPlexImageUrl (Some token) (Some ("None/" +:+ path))
  = Some ("http://localhost:8000/api/plex-proxy/" +:+ encodedPath
            +:+ "?token=" +:+ encodedToken)
  ∧ Forall (λ c, imageUtils.unreserved c = true ∨ c = "%"%char)
           (String.list_ascii_of_string encodedPath)
  ∧ Forall (λ c, imageUtils.unreserved c = true ∨ c = "%"%char)
           (String.list_ascii_of_string encodedToken)
  ∧ (∀ c, c ∈ ["/"; "?"; "#"; "&"; "="; "+"; " "]%char →
          (c ∉ String.list_ascii_of_string encodedPath)
          ∧ (c ∉ String.list_ascii_of_string encodedToken))
  ∧ encodedToken ≠ "".
Proof.
  intros Htoken encodedPath encodedToken.
  pose proof (encodeURIComponent_chars path) as Hpath.
  pose proof (encodeURIComponent_chars token) as Htok.
  split; [|split; [done|split; [done|split]]].
  - unfold imageUtils.fixPlexImageUrl, truthyString.
    rewrite (bool_decide_eq_false_2 (token = "")) by done.
    rewrite (bool_decide_eq_false_2 ("None/" +:+ path = "")) by discriminate.
    unfold imageUtils.startsWith. rewrite prefix_app, replace_prefix.
    reflexivity.
  - intros c Hc. rewrite Forall_forall in Hpath, Htok.
    assert (imageUtils.unreserved c = false ∧ c ≠ "%"%char) as [Hun Hpc].
    { repeat (apply elem_of_cons in Hc as [->|Hc]); [by vm_compute..|].
      by apply elem_of_nil in Hc. }
    split; intros Hin.
    + destruct (Hpath c Hin); congruence.
    + destruct (Htok c Hin); congruence.
  - intros Hempty. by apply Htoken, encodeURIComponent_empty.
Qed.

Lemma proxy_address_is_well_formed_witness :
  imageUtils.fixPlexImageUrl (Some "a b&c")
                             (Some ("None/" +:+ "library/metadata/7/thumb?x=1"))
  = Some "http://localhost:8000/api/plex-proxy/library%2Fmetadata%2F7%2Fthumb%3Fx%3D1?token=a%20b%26c".
Proof.
  rewrite (proj1 (proxy_address_is_well_formed "a b&c" "library/metadata/7/thumb?x=1"
                    ltac:(discriminate))).
  vm_compute. reflexivity.
Defined.

(** ** The wizard *)

Section wizard_lemmas.
Import BulkDualSubtitleWizard.

Local Abbreviation selected st :=
  (primaryLanguage st ≠ "" ∧ secondaryLanguage st ≠ ""
   ∧ primaryLanguage st ≠ secondaryLanguage st).

Local Abbreviation invariant wz :=
  ((truthyString (jobId (state wz)) = true → currentStep (state wz) = results)
   ∧ (currentStep (state wz) ≠ discovery ∨ pendingRequests wz ≠ O →
      selected (state wz))).

Lemma handleContinue_Some primary secondary p s :
  LanguageDiscoveryStep.handleContinue primary secondary = Some (p, s) →
  p = primary ∧ s = secondary ∧ p ≠ "" ∧ s ≠ "" ∧ p ≠ s.
Proof.
  unfold LanguageDiscoveryStep.handleContinue, truthyString.
  repeat case_bool_decide; simpl; try done. by intros [= <- <-].
Qed.

Lemma fire_invariant e wz wz' :
  invariant wz → fire e wz = Some wz' → invariant wz'.
Proof.
  intros [Hjob Hsel]. destruct wz as [[step p s job] pending]. simpl in *.
  destruct e as [primary secondary| |startedJobId|]; simpl.
  - case_bool_decide as Hstep; [|done]. subst step.
    destruct (LanguageDiscoveryStep.handleContinue primary secondary) as [[p' s']|] eqn:Hc.
    + apply handleContinue_Some in Hc as (-> & -> & ? & ? & ?).
      intros [= <-]. simpl. split; [|done]. intros Htruthy. by specialize (Hjob Htruthy).
    + by intros [= <-].
  - case_bool_decide as Hstep; [|done]. subst step. intros [= <-]. simpl.
    split; [intros Htruthy; by specialize (Hjob Htruthy)|]. intros _. apply Hsel. by left.
  - destruct pending as [|n]; [done|]. intros [= <-]. simpl.
    split; [done|]. intros _. apply Hsel. by right.
  - unfold canGoBack. simpl. destruct step; simpl; try done.
    + intros [= <-]. simpl. split; [intros Htruthy; by specialize (Hjob Htruthy)|].
      intros _. apply Hsel. by left.
    + destruct (truthyString job) eqn:Htruthy; simpl.
      { by specialize (Hjob eq_refl). }
      intros [= <-]. simpl. split; [by rewrite Htruthy|]. intros _. apply Hsel. by left.
Qed.

Lemma fireAll_invariant events wz wz' :
  invariant wz → fireAll events wz = Some wz' → invariant wz'.
Proof.
  revert wz. induction events as [|e events IH]; intros wz Hinv; simpl.
  - by intros [= <-].
  - destruct (fire e wz) as [wz1|] eqn:Hfire; [|done].
    apply IH. by eapply fire_invariant.
Qed.
End wizard_lemmas.

(** X23. The wizard after any sequence of events from its initial state.
    A job id is held only in the step [results]; hence the button "back" is
    shown exactly in the steps [preview] and [processing], and the clause
    about the job id never hides it. Outside the step [discovery], two
    different languages are selected. The step [results] is never left.
    In every state, exactly one entry of the step indicator is active, the
    last one also during [processing], and the completed entries are those
    before the active one. *)
Theorem wizard_navigation (events : list BulkDualSubtitleWizard.Event)
    (wz : BulkDualSubtitleWizard.Wizard) :
  BulkDualSubtitleWizard.fireAll events BulkDualSubtitleWizard.initialWizard = Some wz →
  let st := BulkDualSubtitleWizard.state wz in
  let step := BulkDualSubtitleWizard.currentStep st in
  (truthyString (BulkDualSubtitleWizard.jobId st) = true
   → step = BulkDualSubtitleWizard.results)
  ∧ BulkDualSubtitleWizard.canGoBack st
    = bool_decide (step ∈ [BulkDualSubtitleWizard.preview;
                           BulkDualSubtitleWizard.processing])
  ∧ (step ≠ BulkDualSubtitleWizard.discovery →
     BulkDualSubtitleWizard.primaryLanguage st ≠ ""
     ∧ BulkDualSubtitleWizard.secondaryLanguage st ≠ ""
     ∧ BulkDualSubtitleWizard.primaryLanguage st
       ≠ BulkDualSubtitleWizard.secondaryLanguage st)
  ∧ (step = BulkDualSubtitleWizard.results →
     ∀ later wz',
       BulkDualSubtitleWizard.fireAll later wz = Some wz' →
       BulkDualSubtitleWizard.currentStep (BulkDualSubtitleWizard.state wz')
       = BulkDualSubtitleWizard.results)
  ∧ ∃ before active after,
      BulkDualSubtitleWizard.indicatorSteps = before ++ active :: after
      ∧ ∀ entry, entry ∈ BulkDualSubtitleWizard.indicatorSteps →
          (BulkDualSubtitleWizard.isActive entry st = true ↔ entry = active)
          ∧ (BulkDualSubtitleWizard.isCompleted entry st = true ↔ entry ∈ before).
Proof.
  intros Hrun st step.
  assert ((truthyString (BulkDualSubtitleWizard.jobId st) = true
           → step = BulkDualSubtitleWizard.results)
          ∧ (step ≠ BulkDualSubtitleWizard.discovery
             ∨ BulkDualSubtitleWizard.pendingRequests wz ≠ O →
             BulkDualSubtitleWizard.primaryLanguage st ≠ ""
             ∧ BulkDualSubtitleWizard.secondaryLanguage st ≠ ""
             ∧ BulkDualSubtitleWizard.primaryLanguage st
               ≠ BulkDualSubtitleWizard.secondaryLanguage st)) as [Hjob Hsel].
  { apply (fireAll_invariant events BulkDualSubtitleWizard.initialWizard wz); [|done].
    simpl. split; [done|]. by intros [?|?]. }
  split; [done|]. split; [|split; [|split]].
  - unfold BulkDualSubtitleWizard.canGoBack. fold step.
    destruct (truthyString (BulkDualSubtitleWizard.jobId st)) eqn:Htruthy.
    + rewrite (Hjob eq_refl). reflexivity.
    + by destruct step.
  - intros Hstep. apply Hsel. by left.
  - intros Hres later. clear Hrun Hjob Hsel. unfold step, st in Hres. clear st step.
    revert wz Hres. induction later as [|e later IH]; intros wz Hres wz'; simpl.
    + by intros [= <-].
    + destruct (BulkDualSubtitleWizard.fire e wz) as [wz1|] eqn:Hfire; [|done].
      apply IH. destruct wz as [[step p s job] pending]. simpl in Hres. subst step.
      destruct e as [primary secondary| |startedJobId|]; simpl in Hfire; try done.
      * destruct pending; [done|]. by injection Hfire as <-.
  - destruct step eqn:Hstep.
    + exists [], BulkDualSubtitleWizard.discovery,
        [BulkDualSubtitleWizard.preview; BulkDualSubtitleWizard.results].
      split; [done|]. intros entry Hentry.
      unfold BulkDualSubtitleWizard.isActive, BulkDualSubtitleWizard.isCompleted.
      fold st step. rewrite Hstep.
      repeat (apply elem_of_cons in Hentry as [->|Hentry]); [..|by apply elem_of_nil in Hentry];
        by vm_compute; split; split; intros H; try done; set_solver.
    + exists [BulkDualSubtitleWizard.discovery], BulkDualSubtitleWizard.preview,
        [BulkDualSubtitleWizard.results].
      split; [done|]. intros entry Hentry.
      unfold BulkDualSubtitleWizard.isActive, BulkDualSubtitleWizard.isCompleted.
      fold st step. rewrite Hstep.
      repeat (apply elem_of_cons in Hentry as [->|Hentry]); [..|by apply elem_of_nil in Hentry];
        by vm_compute; split; split; intros H; try done; set_solver.
    + exists [BulkDualSubtitleWizard.discovery; BulkDualSubtitleWizard.preview],
        BulkDualSubtitleWizard.results, [].
      split; [done|]. intros entry Hentry.
      unfold BulkDualSubtitleWizard.isActive, BulkDualSubtitleWizard.isCompleted.
      fold st step. rewrite Hstep.
      repeat (apply elem_of_cons in Hentry as [->|Hentry]); [..|by apply elem_of_nil in Hentry];
        by vm_compute; split; split; intros H; try done; set_solver.
    + exists [BulkDualSubtitleWizard.discovery; BulkDualSubtitleWizard.preview],
        BulkDualSubtitleWizard.results, [].
      split; [done|]. intros entry Hentry.
      unfold BulkDualSubtitleWizard.isActive, BulkDualSubtitleWizard.isCompleted.
      fold st step. rewrite Hstep.
      repeat (apply elem_of_cons in Hentry as [->|Hentry]); [..|by apply elem_of_nil in Hentry];
        by vm_compute; split; split; intros H; try done; set_solver.
Qed.

Lemma wizard_navigation_witness :
  ∃ wz,
    BulkDualSubtitleWizard.fireAll
      [BulkDualSubtitleWizard.Continue "en" "ja"; BulkDualSubtitleWizard.StartProcessing;
       BulkDualSubtitleWizard.Back; BulkDualSubtitleWizard.JobIdReceived "job-1"]
      BulkDualSubtitleWizard.initialWizard = Some wz
    ∧ BulkDualSubtitleWizard.canGoBack (BulkDualSubtitleWizard.state wz) = false.
Proof.
  assert (∃ wz,
            BulkDualSubtitleWizard.fireAll
              [BulkDualSubtitleWizard.Continue "en" "ja";
               BulkDualSubtitleWizard.StartProcessing;
               BulkDualSubtitleWizard.Back; BulkDualSubtitleWizard.JobIdReceived "job-1"]
              BulkDualSubtitleWizard.initialWizard = Some wz) as [wz Hwz]
    by (eexists; vm_compute; reflexivity).
  exists wz. split; [exact Hwz|].
  destruct (wizard_navigation _ _ Hwz) as (_ & Hback & _).
  rewrite Hback. vm_compute in Hwz. injection Hwz as <-. vm_compute. reflexivity.
Defined.
